(** * FolderSyncService and merge dialogs of the Scheduling Assistant

    A shallow embedding of the folder-based synchronisation code
    (file naming, folder scan, backup retention, checkpointing, working
    files, archive, merge lock, identifiers) and of the two merge
    dialogs (whole database comparison, per-conflict field differences
    and resolutions), of the times and presets of the segment
    adjustment editor and of the moves of menu items in the special
    events, with the properties the specification states about them
    and further properties of the code.

    Conventions of the model:
    - a JavaScript string is a [string]: a sequence of code units in the
      range U+0000..U+00FF;
    - a time value is a [Z], milliseconds since the epoch; an Invalid
      Date (NaN time value) is [None];
    - a directory handle is the finite map of its entries, threaded
      through a state-and-exception monad; every storage call consumes
      one flag of a fault schedule and throws when the flag is set. *)

From Stdlib Require Import ZArith QArith Ascii String.
From stdpp Require Import base option list gmap strings pretty.

Local Open Scope Z_scope.

(** ** Strings *)

Module Str.

(** [s.startsWith(p)], returning the remainder. *)
Fixpoint strip_prefix (p s : string) : option string :=
  match p, s with
  | EmptyString, _ => Some s
  | String a p', String b s' =>
      if Ascii.eqb a b then strip_prefix p' s' else None
  | String _ _, EmptyString => None
  end.

(** [s.endsWith(q)], returning what comes before. *)
Fixpoint strip_suffix (q s : string) : option string :=
  if String.eqb s q then Some EmptyString
  else match s with
       | EmptyString => None
       | String a s' => String a <$> strip_suffix q s'
       end.

Fixpoint forallb (f : ascii → bool) (s : string) : bool :=
  match s with
  | EmptyString => true
  | String a s' => f a && forallb f s'
  end.

(** [s.includes(t)] *)
Fixpoint includes (t s : string) : bool :=
  if String.prefix t s then true
  else match s with
       | EmptyString => false
       | String _ s' => includes t s'
       end.

(** [s.split(sep)] for a separator of one code unit. *)
Fixpoint split (sep : ascii) (s : string) : list string :=
  match s with
  | EmptyString => [EmptyString]
  | String c s' =>
      if Ascii.eqb c sep then EmptyString :: split sep s'
      else match split sep s' with
           | w :: ws => String c w :: ws
           | [] => [String c EmptyString]
           end
  end.

(** The line terminators of ECMAScript that fit in a code unit below
    U+0100: LF and CR (U+2028 and U+2029 are outside the model). *)
Definition is_line_terminator (c : ascii) : bool :=
  match c with
  | "010"%char | "013"%char => true
  | _ => false
  end.

(** The regular expression [.+] applied to a whole string: one or
    more code units, none of them a line terminator. *)
Definition dot_plus (s : string) : bool :=
  match s with
  | EmptyString => false
  | _ => forallb (λ c, negb (is_line_terminator c)) s
  end.

(** [Number(s)] on a string of decimal digits, the only strings it is
    applied to; [None] is NaN. *)
Fixpoint Number_go (acc : Z) (s : string) : option Z :=
  match s with
  | EmptyString => Some acc
  | String c s' =>
      match Ascii.is_nat c with
      | Some d => Number_go (10 * acc + Z.of_nat d) s'
      | None => None
      end
  end.

Definition Number (s : string) : option Z := Number_go 0 s.

(** [n] decimal digits, read as a number, and the rest of the string. *)
Fixpoint p_digits (n : nat) (acc : Z) (s : string) : option (Z * string) :=
  match n with
  | O => Some (acc, s)
  | S n' =>
      match s with
      | String c s' =>
          match Ascii.is_nat c with
          | Some d => p_digits n' (10 * acc + Z.of_nat d) s'
          | None => None
          end
      | EmptyString => None
      end
  end.

Definition p_char (c : ascii) (s : string) : option string :=
  match s with
  | String c' s' => if Ascii.eqb c c' then Some s' else None
  | EmptyString => None
  end.

(** Upper-case letters of Basic Latin and Latin-1 and their lower-case
    forms, as [String.prototype.toLowerCase] maps them. *)
Definition lower_char (c : ascii) : ascii :=
  let n := N_of_ascii c in
  if ((65 <=? n) && (n <=? 90))%N then ascii_of_N (n + 32)
  else if ((192 <=? n) && (n <=? 222) && negb (n =? 215))%N
       then ascii_of_N (n + 32)
       else c.

Fixpoint toLowerCase (s : string) : string :=
  match s with
  | EmptyString => EmptyString
  | String a s' => String (lower_char a) (toLowerCase s')
  end.

(** [String(n).padStart(width, "0")] for a natural number. *)
Definition pad0 (width : nat) (n : Z) : string :=
  let digits := pretty n in
  String.concat EmptyString
    (replicate (width - String.length digits) "0") +:+ digits.

End Str.

(** ** Dates *)

Module JSDate.

Definition msPerDay : Z := 24 * 60 * 60 * 1000.

(** Day number (days since 1970-01-01) of a proleptic Gregorian date,
    [m] in 1..12. *)
Definition days_from_civil (y m d : Z) : Z :=
  let y' := if m <=? 2 then y - 1 else y in
  let era := y' / 400 in
  let yoe := y' - era * 400 in
  let mp := (m + 9) mod 12 in
  let doy := (153 * mp + 2) / 5 + d - 1 in
  let doe := yoe * 365 + yoe / 4 - yoe / 100 + doy in
  era * 146097 + doe - 719468.

(** The inverse: year, month (1..12) and day of a day number. *)
Definition civil_from_days (z : Z) : Z * Z * Z :=
  let z := z + 719468 in
  let era := z / 146097 in
  let doe := z - era * 146097 in
  let yoe := (doe - doe / 1460 + doe / 36524 - doe / 146096) / 365 in
  let doy := doe - (365 * yoe + yoe / 4 - yoe / 100) in
  let mp := (5 * doy + 2) / 153 in
  let d := doy - (153 * mp + 2) / 5 + 1 in
  let m := if mp <? 10 then mp + 3 else mp - 9 in
  let y := yoe + era * 400 in
  (if m <=? 2 then y + 1 else y, m, d).

(** [MakeDay(year, month, date)] of ECMAScript: [month] is a month
    index and may lie outside 0..11, [date] outside the month. *)
Definition MakeDay (year month date : Z) : Z :=
  let ym := year + month / 12 in
  let mn := month mod 12 in
  days_from_civil ym (mn + 1) 1 + date - 1.

(** [new Date(year, monthIndex, day).getTime()]: local midnight of the
    day as a time value, which is UTC(t) = t - LocalTZA(t, false) of
    ECMAScript. [LocalTZA t isUTC] is the offset of local time from UTC,
    in milliseconds, in force at the time value [t], a UTC one when
    [isUTC] and a local one otherwise: it depends on [t] where the zone
    has daylight saving. Years 0..99 mean 1900..1999. *)
Definition Date_ymd (LocalTZA : Z → bool → Z) (year monthIndex day : Z) : Z :=
  let yr := if (0 <=? year) && (year <=? 99) then 1900 + year else year in
  let t := MakeDay yr monthIndex day * msPerDay in
  t - LocalTZA t false.



(** [new Date(t).toISOString().split('T')[0]]: the UTC date as
    YYYY-MM-DD (years outside 0..9999 take a sign and six digits). *)
Definition toISOString_date (t : Z) : string :=
  let '(y, m, d) := civil_from_days (t / msPerDay) in
  let year :=
    if (0 <=? y) && (y <=? 9999) then Str.pad0 4 y
    else (if y <? 0 then "-" else "+") +:+ Str.pad0 6 (Z.abs y) in
  year +:+ "-" +:+ Str.pad0 2 m +:+ "-" +:+ Str.pad0 2 d.

(** The date of today as the calendar on the wall has it: the date of
    local time at [t], written YYYY-MM-DD, [offset] being the offset of
    local time from UTC in force at [t]. No function of the source
    computes it; it is what the date in the name of a backup is compared
    with. *)
Definition local_date (offset : Z) (t : Z) : string :=
  toISOString_date (t + offset).

(** [new Date(t).toISOString()]: the UTC date and time of day as
    YYYY-MM-DDTHH:mm:ss.sssZ. *)
Definition toISOString (t : Z) : string :=
  let ms := t mod msPerDay in
  toISOString_date t +:+ "T" +:+ Str.pad0 2 (ms / 3600000) +:+ ":"
  +:+ Str.pad0 2 (ms / 60000 mod 60) +:+ ":"
  +:+ Str.pad0 2 (ms / 1000 mod 60) +:+ "."
  +:+ Str.pad0 3 (ms mod 1000) +:+ "Z".

(** A reader of the date-time strings that [toISOString] writes,
    YYYY-MM-DDTHH:mm:ss.sssZ. It stands for [new Date(s).getTime()] in
    the examples: [None] is the NaN of an Invalid Date. *)
Definition iso_parse (s : string) : option Z :=
  '(y, s) ← Str.p_digits 4 0 s; s ← Str.p_char "-" s;
  '(mo, s) ← Str.p_digits 2 0 s; s ← Str.p_char "-" s;
  '(d, s) ← Str.p_digits 2 0 s; s ← Str.p_char "T" s;
  '(h, s) ← Str.p_digits 2 0 s; s ← Str.p_char ":" s;
  '(mi, s) ← Str.p_digits 2 0 s; s ← Str.p_char ":" s;
  '(sec, s) ← Str.p_digits 2 0 s; s ← Str.p_char "." s;
  '(ms, s) ← Str.p_digits 3 0 s; s ← Str.p_char "Z" s;
  match s with
  | EmptyString =>
      if (1 <=? mo) && (mo <=? 12) && (1 <=? d) && (d <=? 31)
         && (h <=? 23) && (mi <=? 59) && (sec <=? 59)
      then Some (days_from_civil y mo d * msPerDay
                 + h * 3600000 + mi * 60000 + sec * 1000 + ms)
      else None
  | _ => None
  end.

End JSDate.

(** ** The shared folder *)

Module FS.

(** What a directory handle holds under a name. *)
Inductive entry :=
  | File (data : string)
  | Directory.

(** [handle.kind] *)
Inductive kind := file | directory.

#[global] Instance kind_eq_dec : EqDecision kind.
Proof. solve_decision. Defined.

Definition entry_kind (e : entry) : kind :=
  match e with File _ => file | Directory => directory end.

(** The exceptions of the File System API, and [SyntaxError] for
    [JSON.parse]. [NotAllowedError] stands for every failure of the
    storage itself (permission lost, drive unreachable). *)
Inductive error :=
  | NotFoundError
  | TypeMismatchError
  | NotAllowedError
  | SyntaxError.

Inductive outcome (A : Type) :=
  | Return (a : A)
  | Throw (e : error).
Arguments Return {A} a.
Arguments Throw {A} e.

(** The folder and the fault schedule: the n-th storage call from now
    fails when the n-th flag is set; past the end of the schedule no
    call fails. *)
Record world := World {
  entries : gmap string entry;
  faults : list bool
}.

(** An asynchronous function over the folder. *)
Definition IO (A : Type) : Type := world → outcome A * world.

#[global] Instance IO_ret : MRet IO := λ A a w, (Return a, w).

#[global] Instance IO_bind : MBind IO := λ A B f m w,
  match m w with
  | (Return a, w') => f a w'
  | (Throw e, w') => (Throw e, w')
  end.

Definition throw {A} (e : error) : IO A := λ w, (Throw e, w).

(** [try { m } catch (e) { h e }] *)
Definition try_catch {A} (m : IO A) (h : error → IO A) : IO A := λ w,
  match m w with
  | (Return a, w') => (Return a, w')
  | (Throw e, w') => h e w'
  end.

(** Every storage call starts here. *)
Definition storage_call : IO unit := λ w,
  match faults w with
  | true :: fs => (Throw NotAllowedError, World (entries w) fs)
  | false :: fs => (Return (), World (entries w) fs)
  | [] => (Return (), w)
  end.

(** The entries of the folder, read and replaced. *)
Definition get_entries : IO (gmap string entry) :=
  λ w, (Return (entries w), w).

Definition put_entries (es : gmap string entry) : IO unit :=
  λ w, (Return (), World es (faults w)).

(** A file handle names a file of the folder. *)
Abbreviation FileSystemFileHandle := string (only parsing).

(** [folderHandle.entries()]: the asynchronous iterator over the names
    and handles of the folder. Making it reads nothing; the entries it
    will yield are those of the folder when the loop over it starts (the
    loops of the source change the folder only by removing the entry
    they have just been given). *)
Definition dir_entries : IO (list (string * kind)) :=
  es ← get_entries;
  mret (prod_map id entry_kind <$> map_to_list es).

(** [for await (const x of iterator) { s = body s x }], [l] being what
    the iterator yields. Each step of the iterator is a storage call,
    awaited before the body runs, and so is the last step, which finds
    the iterator exhausted; a step that rejects ends the loop there,
    with its exception, whatever the bodies before it have done. *)
Fixpoint for_await {A S} (body : S → A → IO S) (s : S) (l : list A) : IO S :=
  match l with
  | [] => storage_call;; mret s
  | x :: l' => storage_call;; s' ← body s x; for_await body s' l'
  end.

(** [folderHandle.getFileHandle(name, { create })] *)
Definition getFileHandle (name : string) (create : bool)
  : IO FileSystemFileHandle :=
  storage_call;;
  es ← get_entries;
  match es !! name with
  | Some (File _) => mret name
  | Some Directory => throw TypeMismatchError
  | None =>
      if create
      then put_entries (<[name := File EmptyString]> es);; mret name
      else throw NotFoundError
  end.

(** [handle.getFile()]: the contents of the file at this moment. *)
Definition getFile (handle : FileSystemFileHandle) : IO string :=
  storage_call;;
  es ← get_entries;
  match es !! handle with
  | Some (File data) => mret data
  | _ => throw NotFoundError
  end.

(** [file.arrayBuffer()] and [file.text()] *)
Definition arrayBuffer (f : string) : IO string := storage_call;; mret f.

Definition text (f : string) : IO string := storage_call;; mret f.

(** A [FileSystemWritableFileStream], as the File System standard has
    it: what is written goes to a swap file, which starts empty (the
    option keepExistingData is off) and replaces the contents of the
    target when the stream is closed; until then the target is as it
    was. *)
Record Writable := { target : FileSystemFileHandle; swap : string }.

(** [handle.createWritable()] *)
Definition createWritable (handle : FileSystemFileHandle) : IO Writable :=
  storage_call;;
  es ← get_entries;
  match es !! handle with
  | Some (File _) => mret {| target := handle; swap := EmptyString |}
  | _ => throw NotFoundError
  end.

(** [writable.write(data)], at the cursor, which is the end of what was
    written so far. *)
Definition write (wr : Writable) (data : string) : IO Writable :=
  storage_call;;
  mret {| target := target wr; swap := swap wr +:+ data |}.

(** [writable.close()] *)
Definition close (wr : Writable) : IO unit :=
  storage_call;;
  es ← get_entries;
  put_entries (<[target wr := File (swap wr)]> es).

(** [folderHandle.removeEntry(name)] *)
Definition removeEntry (name : string) : IO unit :=
  storage_call;;
  es ← get_entries;
  match es !! name with
  | Some _ => put_entries (delete name es)
  | None => throw NotFoundError
  end.

(** No storage call of the schedule fails. *)
Definition fault_free (w : world) : Prop :=
  Forall (λ b : bool, b = false) (faults w).

(** The schedules under consideration: any when [faulty], those
    without a failure otherwise. *)
Definition schedule (faulty : bool) (fs : list bool) : Prop :=
  Forall (λ b : bool, b = true → faulty = true) fs.

(** [m], started on the entries [es] under any schedule considered,
    ends with an outcome and entries that satisfy [Q]. *)
Definition wp (faulty : bool) {A} (m : IO A)
    (Q : outcome A → gmap string entry → Prop)
    (es : gmap string entry) : Prop :=
  ∀ fs, schedule faulty fs →
    ∃ r es' fs', m (World es fs) = (r, World es' fs')
                 ∧ schedule faulty fs' ∧ Q r es'.

(** What a run started on [w] leaves of a file whose bytes become
    [new]: all of the folder as it was when the run throws, the file
    with the new bytes in full when it returns, which it does when no
    storage call fails. *)
Definition replaces_atomically {A} (m : IO A) (w : world)
    (h : FileSystemFileHandle) (new : string) : Prop :=
  ∃ r w',
    m w = (r, w')
    ∧ match r with
      | Return _ => entries w' = <[h := File new]> (entries w)
      | Throw _ => entries w' = entries w
      end
    ∧ (fault_free w → ∃ a, r = Return a).

End FS.

(** ** FolderSyncService *)

Module FolderSync.
Import FS.

Record WorkingFileInfo := {
  handle : FileSystemFileHandle;
  email : string;
  fileName : string
}.

Record FolderScanResult := {
  baseFile : option FileSystemFileHandle;
  workingFiles : list WorkingFileInfo;
  backupFiles : list FileSystemFileHandle;
  needsMerge : bool;
  myWorkingFile : option FileSystemFileHandle
}.

Record MergeLockInfo := {
  lock_email : string;
  startedAt : string;
  lock_workingFiles : list string
}.

Definition BASE_FILE_NAME : string := "schedule.base".
Definition BACKUP_EXTENSION : string := ".bak".
Definition MERGE_LOCK_FILE : string := "schedule.merge-lock".

(** [fileName.match(WORKING_FILE_PATTERN)], giving group 1 of
    [/^schedule\.(.+)\.db$/]: the pattern is anchored at both ends, so
    the group is what lies between the two literals. *)
Definition match_WORKING_FILE_PATTERN (fileName : string) : option string :=
  rest ← Str.strip_prefix "schedule." fileName;
  group1 ← Str.strip_suffix ".db" rest;
  if Str.dot_plus group1 then Some group1 else None.

(** The regular expression [\d{4}-\d{2}-\d{2}] on a whole string. *)
Definition is_date (s : string) : bool :=
  match
    '(_, s) ← Str.p_digits 4 0 s; s ← Str.p_char "-" s;
    '(_, s) ← Str.p_digits 2 0 s; s ← Str.p_char "-" s;
    '(_, s) ← Str.p_digits 2 0 s; Some s
  with
  | Some EmptyString => true
  | _ => false
  end.

(** [fileName.match(BACKUP_FILE_PATTERN)], giving group 1 of
    [/^schedule\..+\.db\.bak\.(\d{4}-\d{2}-\d{2})$/]: the last ten
    code units. *)
Definition match_BACKUP_FILE_PATTERN (fileName : string) : option string :=
  rest ← Str.strip_prefix "schedule." fileName;
  let n := String.length rest in
  if (n <? 10)%nat then None
  else
    let group1 := String.substring (n - 10) 10 rest in
    stem ← Str.strip_suffix ".db.bak." (String.substring 0 (n - 10) rest);
    if Str.dot_plus stem && is_date group1 then Some group1 else None.

(** [v.toString(16)] for an integer [v]. *)
Definition hex_char (d : Z) : ascii :=
  if d <? 10 then ascii_of_N (Z.to_N (48 + d))
  else ascii_of_N (Z.to_N (87 + d)).

Fixpoint toString16_go (fuel : nat) (v : Z) (acc : string) : string :=
  match fuel with
  | O => acc
  | S fuel' =>
      let acc' := String (hex_char (v mod 16)) acc in
      if v <? 16 then acc' else toString16_go fuel' (v / 16) acc'
  end.

Definition toString16 (v : Z) : string :=
  (if v <? 0 then "-" else EmptyString)
  +:+ toString16_go (S (Z.to_nat (Z.log2 (Z.abs v)))) (Z.abs v) EmptyString.

(** [x | 0] for a number [x] within the range of the 32-bit integers:
    its integer part. *)
Definition trunc (x : Q) : Z := Z.quot (Qnum x) (Zpos (Qden x)).

(** [template.replace(/[xy]/g, callback)] with the callback of
    [generateUUID]; [random n] is what the [n]-th call of
    [Math.random()] returns, and [calls] counts the calls made so far. *)
Fixpoint replace_xy (template : string) (random : nat → Q) (calls : nat)
  : string :=
  match template with
  | EmptyString => EmptyString
  | String c rest =>
      if Ascii.eqb c "x" || Ascii.eqb c "y" then
        let r := trunc (Qmult (random calls) (inject_Z 16)) in
        let v := if Ascii.eqb c "x" then r else Z.lor (Z.land r 3) 8 in
        toString16 v +:+ replace_xy rest random (S calls)
      else String c (replace_xy rest random calls)
  end.

Definition generateUUID (random : nat → Q) : string :=
  replace_xy "xxxxxxxx-xxxx-4xxx-yxxx-xxxxxxxxxxxx" random 0.

(** A string against a pattern that wants one character of a given
    class at each place; the shape of a version-4 UUID in lower case,
    [[0-9a-f]{8}-[0-9a-f]{4}-4[0-9a-f]{3}-[89ab][0-9a-f]{3}-[0-9a-f]{12}]. *)
Fixpoint matches (pattern : list (ascii → bool)) (s : string) : bool :=
  match pattern, s with
  | [], EmptyString => true
  | p :: pattern', String c s' => p c && matches pattern' s'
  | _, _ => false
  end.

Definition is_hex (c : ascii) : bool :=
  let n := N_of_ascii c in
  (((48 <=? n) && (n <=? 57)) || ((97 <=? n) && (n <=? 102)))%N.

Definition is_89ab (c : ascii) : bool :=
  Ascii.eqb c "8" || Ascii.eqb c "9" || Ascii.eqb c "a" || Ascii.eqb c "b".

Definition uuid_v4_pattern : list (ascii → bool) :=
  replicate 8 is_hex ++ [Ascii.eqb "-"] ++ replicate 4 is_hex
  ++ [Ascii.eqb "-"; Ascii.eqb "4"] ++ replicate 3 is_hex
  ++ [Ascii.eqb "-"; is_89ab] ++ replicate 3 is_hex
  ++ [Ascii.eqb "-"] ++ replicate 12 is_hex.

Definition extractEmailFromFileName (fileName : string) : option string :=
  match match_WORKING_FILE_PATTERN fileName with
  | Some group1 => Some group1
  | None => None
  end.

Definition createWorkingFileName (email : string) : string :=
  "schedule." +:+ email +:+ ".db".

(** [now] is the clock read by [new Date()]. *)
Definition createBackupFileName (now : Z) (workingFileName : string) : string :=
  let today := JSDate.toISOString_date now in
  workingFileName +:+ BACKUP_EXTENSION +:+ "." +:+ today.

Section Platform.

(** The zone of the machine ([LocalTZA t isUTC] of ECMAScript, see
    [JSDate.Date_ymd]), [new Date(s).getTime()] and
    [JSON.parse(text) as MergeLockInfo] ([None]: it throws). *)
Variable LocalTZA : Z → bool → Z.
Variable Date_parse : string → option Z.
Variable JSON_parse : string → option MergeLockInfo.

Definition parseBackupDate (fileName : string) : option Z :=
  match match_BACKUP_FILE_PATTERN fileName with
  | None => None
  | Some dateStr =>
      match Str.Number <$> Str.split "-" dateStr with
      | [Some year; Some month; Some day] =>
          Some (JSDate.Date_ymd LocalTZA year (month - 1) day)
      | _ => None
      end
  end.

(** [a.toLowerCase() === b.toLowerCase()] *)
Definition same_email (a b : string) : bool :=
  String.eqb (Str.toLowerCase a) (Str.toLowerCase b).

(** The body of the loop of [scanFolder], on the result under
    construction. *)
Definition scan_entry (currentUserEmail : string)
    (acc : FolderScanResult) (e : string * kind) : FolderScanResult :=
  let '(name, k) := e in
  match k with
  | directory => acc
  | file =>
      let fileHandle : FileSystemFileHandle := name in
      if String.eqb name BASE_FILE_NAME then
        {| baseFile := Some fileHandle;
           workingFiles := workingFiles acc;
           backupFiles := backupFiles acc;
           needsMerge := needsMerge acc;
           myWorkingFile := myWorkingFile acc |}
      else
        match extractEmailFromFileName name with
        | Some (String _ _ as email) =>
            {| baseFile := baseFile acc;
               workingFiles :=
                 workingFiles acc ++
                 [{| handle := fileHandle; email := email; fileName := name |}];
               backupFiles := backupFiles acc;
               needsMerge := needsMerge acc;
               myWorkingFile :=
                 if same_email email currentUserEmail then Some fileHandle
                 else myWorkingFile acc |}
        | _ =>
            if Str.includes BACKUP_EXTENSION name then
              {| baseFile := baseFile acc;
                 workingFiles := workingFiles acc;
                 backupFiles := backupFiles acc ++ [fileHandle];
                 needsMerge := needsMerge acc;
                 myWorkingFile := myWorkingFile acc |}
            else acc
        end
  end.

Definition scanFolder (currentUserEmail : string) : IO FolderScanResult :=
  es ← dir_entries;
  found ←
    for_await (λ acc e, mret (scan_entry currentUserEmail acc e))
      {| baseFile := None; workingFiles := []; backupFiles := [];
         needsMerge := false; myWorkingFile := None |} es;
  let othersWorkingFiles :=
    filter (λ wf, same_email (email wf) currentUserEmail = false)
      (workingFiles found) in
  let needsMerge := bool_decide (0 < length othersWorkingFiles)%nat in
  mret {| baseFile := baseFile found;
          workingFiles := workingFiles found;
          backupFiles := backupFiles found;
          needsMerge := needsMerge;
          myWorkingFile := myWorkingFile found |}.

(** The body of the loop of [cleanupOldBackups], on the count of
    deleted files. *)
Definition cleanup_entry (cutoffDate : Z) (deletedCount : nat)
    (e : string * kind) : IO nat :=
  let '(name, k) := e in
  match k with
  | directory => mret deletedCount
  | file =>
      if negb (Str.includes BACKUP_EXTENSION name) then mret deletedCount
      else
        match parseBackupDate name with
        | Some backupDate =>
            if backupDate <? cutoffDate then
              try_catch
                (removeEntry name;; mret (S deletedCount))
                (λ _, mret deletedCount)
            else mret deletedCount
        | None => mret deletedCount
        end
  end.

(** A backup name whose embedded date is older than the cutoff. *)
Definition expired (cutoffDate : Z) (fileName : string) : Prop :=
  ∃ backupDate,
    parseBackupDate fileName = Some backupDate ∧ backupDate < cutoffDate.

(** [now] is the clock read by [new Date()]. *)
Definition cleanupOldBackups (now : Z) (maxAgeDays : Z) : IO nat :=
  let cutoffDate := now - maxAgeDays * 24 * 60 * 60 * 1000 in
  es ← dir_entries;
  for_await (cleanup_entry cutoffDate) 0%nat es.

(** [now] is the clock read by [new Date()]. The body of the [try]
    block is [attempt]: [new Date(s)] never throws, an Invalid Date has
    a NaN time value, and [NaN >= maxDays] is false, so the block always
    returns and the [catch] is never entered. The quotient [daysSince]
    is taken exactly. *)
Definition shouldCheckpoint (now : Z) (lastCheckpointStr : option string)
    (maxDays : Z) : bool :=
  match lastCheckpointStr with
  | None | Some EmptyString => true
  | Some s =>
      let attempt : outcome bool :=
        let lastCheckpoint := Date_parse s in
        let daysSince :=
          (λ t, Qmake (now - t) (24 * 60 * 60 * 1000)) <$> lastCheckpoint in
        Return (match daysSince with
                | Some q => Qle_bool (inject_Z maxDays) q
                | None => false
                end) in
      match attempt with
      | Return answer => answer
      | Throw _ => true
      end
  end.

Definition createWorkingFileFromBase (baseHandle : FileSystemFileHandle)
    (email : string) : IO FileSystemFileHandle :=
  let workingFileName := createWorkingFileName email in
  baseFile ← getFile baseHandle;
  baseData ← arrayBuffer baseFile;
  workingHandle ← getFileHandle workingFileName true;
  writable ← createWritable workingHandle;
  writable ← write writable baseData;
  close writable;;
  mret workingHandle.

Definition createEmptyBase (initialDbData : string) : IO FileSystemFileHandle :=
  baseHandle ← getFileHandle BASE_FILE_NAME true;
  writable ← createWritable baseHandle;
  writable ← write writable initialDbData;
  close writable;;
  mret baseHandle.

Definition updateBase (baseHandle : FileSystemFileHandle)
    (mergedData : string) : IO unit :=
  writable ← createWritable baseHandle;
  writable ← write writable mergedData;
  close writable.

Definition archiveWorkingFile (now : Z) (workingFile : WorkingFileInfo)
  : IO unit :=
  let backupFileName := createBackupFileName now (fileName workingFile) in
  file ← getFile (handle workingFile);
  data ← arrayBuffer file;
  backupHandle ← getFileHandle backupFileName true;
  writable ← createWritable backupHandle;
  writable ← write writable data;
  close writable;;
  removeEntry (fileName workingFile).

Definition saveToWorkingFile (workingHandle : FileSystemFileHandle)
    (data : string) : IO unit :=
  writable ← createWritable workingHandle;
  writable ← write writable data;
  close writable.

(** [handle.getFile()] then [file.arrayBuffer()]. *)
Definition readDatabaseFile (handle : FileSystemFileHandle) : IO string :=
  file ← getFile handle;
  arrayBuffer file.

(** [JSON.stringify(lockInfo, null, 2)] *)
Variable JSON_stringify : MergeLockInfo → string.

(** [now] is the clock read by [new Date()]; a failure is logged and
    swallowed. *)
Definition createMergeLock (now : Z) (email : string)
    (workingFileNames : list string) : IO unit :=
  let lockInfo :=
    {| lock_email := email;
       startedAt := JSDate.toISOString now;
       lock_workingFiles := workingFileNames |} in
  try_catch
    (lockHandle ← getFileHandle MERGE_LOCK_FILE true;
     writable ← createWritable lockHandle;
     writable ← write writable (JSON_stringify lockInfo);
     close writable)
    (λ _, mret ()).

Definition removeMergeLock : IO unit :=
  try_catch (removeEntry MERGE_LOCK_FILE) (λ _, mret ()).

(** [now] is the clock read by [Date.now()]; a NaN age is not greater
    than an hour. *)
Definition checkMergeLock (now : Z) : IO (option MergeLockInfo) :=
  try_catch
    (lockHandle ← getFileHandle MERGE_LOCK_FILE false;
     file ← getFile lockHandle;
     text ← text file;
     lockInfo ← from_option mret (throw SyntaxError) (JSON_parse text);
     let lockAge := (λ t, now - t) <$> Date_parse (startedAt lockInfo) in
     let oneHour := 60 * 60 * 1000 in
     if from_option (λ age, oneHour <? age) false lockAge then
       removeMergeLock;; mret None
     else mret (Some lockInfo))
    (λ _, mret None).

End Platform.

End FolderSync.

(** ** MergeDialog: comparison of two whole databases *)

Module MergeDialog.

(** A value of a result row of the embedded database. *)
Inductive SqlValue :=
  | SqlNull
  | SqlInteger (n : Z)
  | SqlText (s : string).

Definition row := list SqlValue.

(** A database holds the rows of each of its tables. *)
Definition Database := gmap string (list row).

Record TableInfo := {
  name : string;
  label : string;
  description : string
}.

Definition ALL_DATA_TABLES : list TableInfo := [
  {| name := "person"; label := "People"; description := "Staff members" |};
  {| name := "person_role"; label := "Person Roles";
     description := "Role assignments per person" |};
  {| name := "person_group"; label := "Person Groups";
     description := "Group memberships" |};
  {| name := "assignment"; label := "Daily Assignments";
     description := "Who's assigned where each day" |};
  {| name := "timeoff"; label := "Time Off";
     description := "Vacation and leave entries" |};
  {| name := "availability_override"; label := "Availability Overrides";
     description := "Per-day availability changes" |};
  {| name := "monthly_default"; label := "Monthly Defaults";
     description := "Default monthly assignments" |};
  {| name := "monthly_default_day"; label := "Monthly Weekday Overrides";
     description := "Weekday-specific defaults" |};
  {| name := "monthly_default_week"; label := "Monthly Week Overrides";
     description := "Week-specific defaults" |};
  {| name := "role"; label := "Roles"; description := "Role definitions" |};
  {| name := "segment"; label := "Segments";
     description := "Time segments (AM, PM, etc.)" |};
  {| name := "segment_role"; label := "Segment Roles";
     description := "Roles available per segment" |};
  {| name := "segment_adjustment"; label := "Segment Adjustments";
     description := "Segment time adjustments" |};
  {| name := "segment_adjustment_condition"; label := "Adjustment Conditions";
     description := "When adjustments apply" |};
  {| name := "groups"; label := "Groups"; description := "Group definitions" |};
  {| name := "export_group"; label := "Export Groups";
     description := "Export configurations" |};
  {| name := "department_event"; label := "Department Events";
     description := "Department-wide events" |};
  {| name := "training"; label := "Training";
     description := "Training records" |};
  {| name := "skill"; label := "Skills"; description := "Skill definitions" |};
  {| name := "person_skill"; label := "Person Skills";
     description := "Skills per person" |}
].

Inductive DifferenceType := none | count | content.

Record TableDiff := {
  table : string;
  table_label : string;
  myCount : Z;
  theirCount : Z;
  hasDifferences : bool;
  differenceType : DifferenceType;
  differenceDetails : string
}.

Inductive Choice := mine | theirs.

(** The query counting the rows of [table], down to the number
    [result[0]?.values[0]?.[0] || 0]; [None]: the table is missing and
    [exec] throws. *)
Definition exec_count (db : Database) (table : string) : option Z :=
  rows ← db !! table; Some (Z.of_nat (length rows)).

(** The query selecting all columns of [table], ordered by the first:
    an array with one result, holding the rows, or an empty array when
    there is no row. The rows only go into a set, so their order is
    left as it is. *)
Definition exec_select (db : Database) (table : string)
  : option (list (list row)) :=
  rows ← db !! table;
  Some (match rows with [] => [] | _ => [rows] end).

(** [JSON.stringify] of a row, the instance of [hashRow] used in the
    examples. *)
Definition hex_digit (n : N) : ascii :=
  if (n <? 10)%N then ascii_of_N (48 + n) else ascii_of_N (87 + n).

Definition JSON_escape_char (c : ascii) : string :=
  let backslash := "092"%char in
  let n := N_of_ascii c in
  if (n =? 34)%N then String backslash (String c EmptyString)
  else if (n =? 92)%N then String backslash (String c EmptyString)
  else if (n =? 8)%N then String backslash "b"
  else if (n =? 9)%N then String backslash "t"
  else if (n =? 10)%N then String backslash "n"
  else if (n =? 12)%N then String backslash "f"
  else if (n =? 13)%N then String backslash "r"
  else if (n <? 32)%N then
    String backslash "u00" +:+
    String (hex_digit (n / 16)) (String (hex_digit (n mod 16)) EmptyString)
  else String c EmptyString.

Fixpoint JSON_escape (s : string) : string :=
  match s with
  | EmptyString => EmptyString
  | String c s' => JSON_escape_char c +:+ JSON_escape s'
  end.

Definition JSON_stringify_value (v : SqlValue) : string :=
  match v with
  | SqlNull => "null"
  | SqlInteger n => pretty n
  | SqlText s =>
      String "034"%char (JSON_escape s +:+ String "034"%char EmptyString)
  end.

Definition JSON_stringify (r : row) : string :=
  "[" +:+ String.concat "," (JSON_stringify_value <$> r) +:+ "]".

Section Analyze.

(** [hashRow(row)], which is [JSON.stringify(row)]. *)
Variable hashRow : row → string.

(** [new Set(rows.map(hashRow))] *)
Definition hashes (rows : list row) : gset string :=
  list_to_set (hashRow <$> rows).

(** The loop counting the hashes of [xs] that [ys] does not have. *)
Definition only_in (xs ys : gset string) : Z :=
  foldl (λ n hash, if decide (hash ∈ ys) then n else n + 1) 0 (elements xs).

(** The body of the loop over the tables; [None] when a count query
    throws, in which case the table gets no entry. *)
Definition analyzeTable (myDb theirDb : Database) (t : TableInfo)
  : option TableDiff :=
  myCount ← exec_count myDb (name t);
  theirCount ← exec_count theirDb (name t);
  let '(hasDifferences, differenceType, differenceDetails) :=
    if negb (myCount =? theirCount) then
      let diff := theirCount - myCount in
      (true, count,
       if 0 <? diff
       then "Their version has " +:+ pretty diff +:+ " more row(s)"
       else "Your version has " +:+ pretty (Z.abs diff) +:+ " more row(s)")
    else if 0 <? myCount then
      match
        myRows ← exec_select myDb (name t);
        theirRows ← exec_select theirDb (name t);
        Some (myRows, theirRows)
      with
      | Some (myValues :: _, theirValues :: _) =>
          let myHashes := hashes myValues in
          let theirHashes := hashes theirValues in
          let onlyInMine := only_in myHashes theirHashes in
          let onlyInTheirs := only_in theirHashes myHashes in
          if (0 <? onlyInMine) || (0 <? onlyInTheirs) then
            (true, content,
             pretty onlyInMine +:+ " row(s) only in yours, " +:+
             pretty onlyInTheirs +:+ " row(s) only in theirs")
          else (false, none, EmptyString)
      | _ => (false, none, EmptyString)
      end
    else (false, none, EmptyString) in
  Some {| table := name t;
          table_label := label t;
          myCount := myCount;
          theirCount := theirCount;
          hasDifferences := hasDifferences;
          differenceType := differenceType;
          differenceDetails := differenceDetails |}.

(** The table differences and the initial choices that
    [analyzeDbDifferences] hands to [setTableDiffs] and [setChoices]. *)
Definition analyzeDbDifferences (myDb theirDb : Database)
  : list TableDiff * gmap string Choice :=
  foldl
    (λ '(diffs, initialChoices) t,
       match analyzeTable myDb theirDb t with
       | Some d => (diffs ++ [d], <[name t := mine]> initialChoices)
       | None => (diffs, initialChoices)
       end)
    ([], ∅) ALL_DATA_TABLES.

End Analyze.

Definition tablesWithDifferences (tableDiffs : list TableDiff)
  : list TableDiff :=
  filter (λ t, hasDifferences t = true) tableDiffs.

Definition tablesWithoutDifferences (tableDiffs : list TableDiff)
  : list TableDiff :=
  filter (λ t, hasDifferences t = false) tableDiffs.

End MergeDialog.

(** ** MergeConflictDialog: the differing fields of a conflict *)

Module MergeConflictDialog.

(** A field value, of type [unknown] in the source. An object is held
    as the text [JSON.stringify] gives for it. *)
Inductive JSValue :=
  | JNull
  | JUndefined
  | JBoolean (b : bool)
  | JNumber (n : Z)
  | JString (s : string)
  | JObject (json : string).

(** A row, [Record<string, unknown>]: its fields in the order of
    [Object.keys]. *)
Definition Row := list (string * JSValue).

Definition Object_keys (r : Row) : list string := r.*1.

(** [row[key]] *)
Fixpoint get (r : Row) (key : string) : JSValue :=
  match r with
  | [] => JUndefined
  | (k, v) :: r' => if String.eqb k key then v else get r' key
  end.

(** [new Set(keys)], in the order of first insertion. *)
Definition Set_of (keys : list string) : list string :=
  foldl (λ acc k, if decide (k ∈ acc) then acc else acc ++ [k]) [] keys.

Definition formatValue (value : JSValue) : string :=
  match value with
  | JNull | JUndefined => "(empty)"
  | JObject json => json
  | JBoolean b => if b then "true" else "false"
  | JNumber n => pretty n
  | JString s => s
  end.

Definition is_bookkeeping (key : string) : bool :=
  String.eqb key "sync_id" || String.eqb key "modified_at"
  || String.eqb key "modified_by".

Definition getDifferences (rowA rowB : option Row) : list string :=
  match rowA, rowB with
  | Some a, Some b =>
      let allKeys := Set_of (Object_keys a ++ Object_keys b) in
      foldl
        (λ diffs key,
           if is_bookkeeping key then diffs
           else if negb (String.eqb (formatValue (get a key))
                                    (formatValue (get b key)))
                then diffs ++ [key]
                else diffs)
        [] allKeys
  | _, _ => []
  end.

(** The text of the cell of differences. *)
Definition differencesCell (rowA rowB : option Row) : string :=
  let diffs := getDifferences rowA rowB in
  if bool_decide (0 < length diffs)%nat then String.concat ", " diffs
  else "All fields".

(** ['base' | 'a' | 'b' | 'both'] *)
Inductive Choice := choice_base | choice_a | choice_b | choice_both.

#[global] Instance Choice_eq_dec : EqDecision Choice.
Proof. solve_decision. Defined.

Record MergeConflict := {
  table : string;
  syncId : string;
  rowA : option Row;
  rowB : option Row;
  rowDescription : string;
  modifiedByA : option string;
  modifiedByB : option string
}.

Record ConflictResolution := {
  resolution_syncId : string;
  resolution_table : string;
  resolution_choice : Choice
}.

(** The key of a conflict in [resolutions], table:syncId. *)
Definition key (c : MergeConflict) : string := table c +:+ ":" +:+ syncId c.

(** The own and inherited properties that an empty object literal
    already has: those of [Object.prototype]. *)
Definition Object_prototype_names : list string :=
  ["constructor"; "__defineGetter__"; "__defineSetter__"; "hasOwnProperty";
   "__lookupGetter__"; "__lookupSetter__"; "isPrototypeOf";
   "propertyIsEnumerable"; "toString"; "valueOf"; "__proto__";
   "toLocaleString"].

(** The body of the loop that groups the conflicts by table, on the
    object under construction, a map from the table to its conflicts.
    [grouped[t]] on the object literal finds an inherited property when
    [t] is one of [Object_prototype_names]; no array is made for it
    then, and the call of [push] on what was found throws a TypeError:
    [None]. *)
Definition group_conflict (grouped : option (gmap string (list MergeConflict)))
    (conflict : MergeConflict) : option (gmap string (list MergeConflict)) :=
  g ← grouped;
  match g !! table conflict with
  | Some l => Some (<[table conflict := l ++ [conflict]]> g)
  | None =>
      if decide (table conflict ∈ Object_prototype_names) then None
      else Some (<[table conflict := [conflict]]> g)
  end.

Definition conflictsByTable (conflicts : list MergeConflict)
  : option (gmap string (list MergeConflict)) :=
  foldl group_conflict (Some ∅) conflicts.

(** What [setAllResolutions choice] hands to [setResolutions]. *)
Definition setAllResolutions (conflicts : list MergeConflict)
    (choice : Choice) : gmap string Choice :=
  foldl (λ newResolutions conflict, <[key conflict := choice]> newResolutions)
    ∅ conflicts.

(** The radio group of a conflict with key [k]:
    [setResolutions(prev => ({...prev, [key]: value}))]. *)
Definition onChange (prev : gmap string Choice) (k : string) (value : Choice)
  : gmap string Choice :=
  <[k := value]> prev.

(** What the handlers hand to [onResolve]. *)
Definition handleKeepAllOriginal (conflicts : list MergeConflict)
  : list ConflictResolution :=
  (λ c, {| resolution_syncId := syncId c; resolution_table := table c;
           resolution_choice := choice_base |}) <$> conflicts.

Definition handleKeepAllA (conflicts : list MergeConflict)
  : list ConflictResolution :=
  (λ c, {| resolution_syncId := syncId c; resolution_table := table c;
           resolution_choice := choice_a |}) <$> conflicts.

Definition handleKeepAllB (conflicts : list MergeConflict)
  : list ConflictResolution :=
  (λ c, {| resolution_syncId := syncId c; resolution_table := table c;
           resolution_choice := choice_b |}) <$> conflicts.

Definition handleAdvancedSubmit (conflicts : list MergeConflict)
    (resolutions : gmap string Choice) : list ConflictResolution :=
  (λ c, {| resolution_syncId := syncId c; resolution_table := table c;
           resolution_choice := default choice_base (resolutions !! key c) |})
  <$> conflicts.

Definition allResolved (conflicts : list MergeConflict)
    (resolutions : gmap string Choice) : bool :=
  forallb (λ c, bool_decide (resolutions !! key c ≠ None)) conflicts.

(** The states of [resolutions] that the dialog can be in: empty at
    first, then changed by the three buttons that set all and by the
    radio groups of the conflicts. *)
Inductive reachable (conflicts : list MergeConflict)
  : gmap string Choice → Prop :=
  | reachable_initial : reachable conflicts ∅
  | reachable_setAll resolutions choice :
      reachable conflicts resolutions →
      reachable conflicts (setAllResolutions conflicts choice)
  | reachable_onChange resolutions c value :
      reachable conflicts resolutions →
      c ∈ conflicts →
      reachable conflicts (onChange resolutions (key c) value).

End MergeConflictDialog.

(** ** SegmentAdjustmentEditor: times and presets *)

Module SegmentAdjustmentEditor.

(** The minutes of a time of day HH:MM; [None] is NaN. [Str.Number]
    reads strings of decimal digits, which is what the times are made
    of. *)
Definition mins (t : string) : option Z :=
  match Str.Number <$> Str.split ":" t with
  | Some h :: Some m :: _ => Some (h * 60 + m)
  | _ => None
  end.

Definition pad2 (n : Z) : string := Str.pad0 2 n.

(** For an integer [m]; [%] is the remainder with the sign of [m]. *)
Definition fmt (m : Z) : string := pad2 (m / 60) +:+ ":" +:+ pad2 (Z.rem m 60).






Definition includes (names : list string) (n : string) : bool :=
  bool_decide (n ∈ names).





End SegmentAdjustmentEditor.

(** ** SpecialEvents: moving a menu item within its section *)

Module SpecialEvents.

(** A menu item, with the fields that the moves read. *)
Record MenuItem := {
  id : Z;
  sort_order : Z;
  is_header : Z
}.

(** [menuItems[i]?.is_header] as a condition. *)
Definition header_at (menuItems : list MenuItem) (i : nat) : bool :=
  match menuItems !! i with
  | Some m => negb (is_header m =? 0)
  | None => false
  end.

(** The first loop of [getSectionBounds], from [i] down to 0. *)
Fixpoint sectionStart_from (menuItems : list MenuItem) (i : nat) : nat :=
  if header_at menuItems i then S i
  else match i with
       | O => O
       | S i' => sectionStart_from menuItems i'
       end.

(** The second loop, upwards from index [i]; [rest] is what the list
    holds from [i] on, [sectionEnd] the value set before the loop. *)
Fixpoint sectionEnd_from (rest : list MenuItem) (i : Z) (sectionEnd : Z) : Z :=
  match rest with
  | [] => sectionEnd
  | m :: rest' =>
      if negb (is_header m =? 0) then i - 1
      else sectionEnd_from rest' (i + 1) sectionEnd
  end.

Definition getSectionBounds (menuItems : list MenuItem) (index : nat) : Z * Z :=
  (Z.of_nat (sectionStart_from menuItems index),
   sectionEnd_from (drop (S index) menuItems) (Z.of_nat index + 1)
     (Z.of_nat (length menuItems) - 1)).

Inductive Direction := up | down.

#[global] Instance Direction_eq_dec : EqDecision Direction.
Proof. solve_decision. Defined.

(** The updates that [handleMoveMenuItem] runs, each the new
    [sort_order] and the id of the item that gets it; none when it
    returns early. *)
Definition handleMoveMenuItem (menuItems : list MenuItem) (item : MenuItem)
    (direction : Direction) : list (Z * Z) :=
  match list_find (λ m, id m = id item) menuItems with
  | None => []
  | Some (currentIndex, _) =>
      let '(sectionStart, sectionEnd) :=
        getSectionBounds menuItems currentIndex in
      if bool_decide (direction = up)
         && (Z.of_nat currentIndex <=? sectionStart) then []
      else if bool_decide (direction = down)
              && (sectionEnd <=? Z.of_nat currentIndex) then []
      else
        let swapIndex :=
          match direction with
          | up => Z.of_nat currentIndex - 1
          | down => Z.of_nat currentIndex + 1
          end in
        match (if swapIndex <? 0 then None
               else menuItems !! Z.to_nat swapIndex) with
        | None => []
        | Some swapItem =>
            [(sort_order swapItem, id item); (sort_order item, id swapItem)]
        end
  end.

(** Whether the buttons of the row at [index] are disabled. *)
Definition disableUp (menuItems : list MenuItem) (index : nat) : bool :=
  Z.of_nat index <=? (getSectionBounds menuItems index).1.

Definition disableDown (menuItems : list MenuItem) (index : nat) : bool :=
  (getSectionBounds menuItems index).2 <=? Z.of_nat index.

End SpecialEvents.

(** ** Exhaustive checks over small ranges, used in the proofs *)

Module Checks.

(** [f] holds of 0, 1, ..., n - 1. *)
Definition all_below (f : Z → bool) (n : N) : bool :=
  snd (N.iter n (λ '(z, ok), (z + 1, ok && f z)) (0, true)).

(** What [JSDate.civil_from_days] computes from a day [doe] of a
    400-year era is a month and a day in range from which
    [JSDate.days_from_civil] comes back to [doe]; before the last two
    months of the era the calendar year stays below 400, and from day
    135080 on (1 January of year 370) it is at least 370. *)
Definition doe_ok (doe : Z) : bool :=
  let yoe := (doe - doe / 1460 + doe / 36524 - doe / 146096) / 365 in
  let doy := doe - (365 * yoe + yoe / 4 - yoe / 100) in
  let mp := (5 * doy + 2) / 153 in
  let d := doy - (153 * mp + 2) / 5 + 1 in
  let m := if mp <? 10 then mp + 3 else mp - 9 in
  (0 <=? yoe) && (yoe <=? 399) && (0 <=? mp) && (mp <=? 11)
  && (1 <=? d) && (d <=? 31) && (1 <=? m) && (m <=? 12)
  && ((m + 9) mod 12 =? mp)
  && (yoe * 365 + yoe / 4 - yoe / 100 + ((153 * mp + 2) / 5 + d - 1) =? doe)
  && implb (doe <? 146037) (yoe + (if m <=? 2 then 1 else 0) <=? 399)
  && implb (135080 <=? doe) (370 <=? yoe + (if m <=? 2 then 1 else 0)).

(** [Str.pad0 width n] is [width] decimal digits that read as [n]. *)
Definition pad_ok (width : nat) (n : Z) : bool :=
  bool_decide
    (Str.p_digits width 0 (Str.pad0 width n) = Some (n, EmptyString)).

End Checks.

(** ** Folders, rows and clocks of the examples *)

Module Examples.
Import FS FolderSync.

(** Ten days after the epoch, at midnight sharp, in UTC. *)
Definition midnight_day10 : Z := 10 * JSDate.msPerDay.

(** A folder with a backup of 1970-01-08, three days before day 10, and
    one of 1970-01-09. *)
Definition folder_backups : world :=
  World (list_to_map [("schedule.base", File "BASE");
                      ("schedule.amy@co.db.bak.1970-01-08", File "OLD");
                      ("schedule.amy@co.db.bak.1970-01-09", File "NEW")]) [].

(** Zones: one that keeps the same offset all year, and that of New
    York in 2025, five hours behind UTC and four from 2025-03-09, when
    02:00 becomes 03:00, to 2025-11-02, when 02:00 becomes 01:00. A
    local time that the change skips or repeats is read with the offset
    in force before the change, as ECMAScript has it. *)
Definition fixed_zone (offset : Z) : Z → bool → Z := λ _ _, offset.

Definition hour : Z := 60 * 60 * 1000.

Definition New_York (t : Z) (isUTC : bool) : Z :=
  let start := JSDate.days_from_civil 2025 3 9 * JSDate.msPerDay in
  let stop := JSDate.days_from_civil 2025 11 2 * JSDate.msPerDay in
  let summer :=
    if isUTC then (start + 7 * hour <=? t) && (t <? stop + 6 * hour)
    else (start + 3 * hour <=? t) && (t <? stop + 2 * hour) in
  if summer then -4 * hour else -5 * hour.

(** The time value of a time of day of New York, [ms] milliseconds
    after the midnight that begins the day. *)
Definition in_New_York (y m d ms : Z) : Z :=
  let t := JSDate.days_from_civil y m d * JSDate.msPerDay + ms in
  t - New_York t false.

(** A folder with backups of the days around the two changes of the
    clock of 2025. *)
Definition folder_2025 : world :=
  World (list_to_map [("schedule.base", File "BASE");
                      ("schedule.amy@co.db.bak.2025-03-07", File "MARCH 7");
                      ("schedule.amy@co.db.bak.2025-03-08", File "MARCH 8");
                      ("schedule.amy@co.db.bak.2025-10-31", File "OCTOBER 31");
                      ("schedule.amy@co.db.bak.2025-11-01", File "NOVEMBER 1")])
    [].

(** The same folder when [n] storage calls succeed and the next one
    fails. *)
Definition failing_at (n : nat) (w : world) : world :=
  World (entries w) (replicate n false ++ [true]).

(** A lock, the text that [JSON.stringify] writes for it, and a
    reader of that text standing for [JSON.parse]. *)
Definition lock_of_amy : MergeLockInfo :=
  {| lock_email := "amy@co";
     startedAt := "2025-01-01T00:00:00.000Z";
     lock_workingFiles := [] |}.

Definition quoted (s : string) : string :=
  String "034"%char (s +:+ String "034"%char EmptyString).

Definition lock_text : string :=
  "{" +:+ quoted "email" +:+ ":" +:+ quoted "amy@co" +:+ ","
  +:+ quoted "startedAt" +:+ ":" +:+ quoted "2025-01-01T00:00:00.000Z"
  +:+ "," +:+ quoted "workingFiles" +:+ ":[]}".

Definition parse_lock_text (content : string) : option MergeLockInfo :=
  if String.eqb content lock_text then Some lock_of_amy else None.

Definition folder_locked : world :=
  World (list_to_map [("schedule.base", File "BASE");
                      ("schedule.merge-lock", File lock_text)]) [].

(** The text of a lock on one line, for strings that need no escape,
    standing for [JSON.stringify]. *)
Definition stringify_lock (l : MergeLockInfo) : string :=
  "{" +:+ quoted "email" +:+ ":" +:+ quoted (lock_email l) +:+ ","
  +:+ quoted "startedAt" +:+ ":" +:+ quoted (startedAt l)
  +:+ "," +:+ quoted "workingFiles" +:+ ":["
  +:+ String.concat "," (quoted <$> lock_workingFiles l) +:+ "]}".

(** A lock whose [startedAt] is not a date, its text and a reader of
    that text. *)
Definition lock_undated : MergeLockInfo :=
  {| lock_email := "amy@co"; startedAt := "soon"; lock_workingFiles := [] |}.

Definition parse_undated_text (content : string) : option MergeLockInfo :=
  if String.eqb content (stringify_lock lock_undated)
  then Some lock_undated else None.

Definition folder_lock_undated : world :=
  World (list_to_map [("schedule.base", File "BASE");
                      ("schedule.merge-lock",
                       File (stringify_lock lock_undated))]) [].

(** 2025-01-01 at two and at zero hours, and 2025-01-04 at zero hours. *)
Definition two_hours_later : Z :=
  JSDate.days_from_civil 2025 1 1 * JSDate.msPerDay + 2 * 60 * 60 * 1000.

Definition jan_1 : Z := JSDate.days_from_civil 2025 1 1 * JSDate.msPerDay.

Definition jan_4 : Z := JSDate.days_from_civil 2025 1 4 * JSDate.msPerDay.

(** A folder where the only working file is that of John@co. *)
Definition folder_john : world :=
  World (list_to_map [("schedule.base", File "BASE");
                      ("schedule.John@co.db", File "EDITS")]) [].

Definition folder_amy : world :=
  World (list_to_map [("schedule.base", File "BASE");
                      ("schedule.amy@co.db", File "EDITS")]) [].

(** The working file of amy@co, as a scan lists it. *)
Definition file_of_amy : WorkingFileInfo :=
  {| handle := "schedule.amy@co.db"; email := "amy@co";
     fileName := "schedule.amy@co.db" |}.

(** Two versions of the person table, three rows each, that differ in
    which of two rows is there twice. *)
Definition row_ann : MergeDialog.row :=
  [MergeDialog.SqlInteger 1; MergeDialog.SqlText "Ann"; MergeDialog.SqlNull].

Definition row_bob : MergeDialog.row :=
  [MergeDialog.SqlInteger 2; MergeDialog.SqlText "Bob"; MergeDialog.SqlNull].

Definition person : MergeDialog.TableInfo :=
  {| MergeDialog.name := "person"; MergeDialog.label := "People";
     MergeDialog.description := "Staff members" |}.

Definition db_mine : MergeDialog.Database :=
  {[ "person" := [row_ann; row_ann; row_bob] ]}.

Definition db_theirs : MergeDialog.Database :=
  {[ "person" := [row_ann; row_bob; row_bob] ]}.

(** A conflict on a row of the person table. *)
Definition conflict_ann : MergeConflictDialog.MergeConflict :=
  {| MergeConflictDialog.table := "person";
     MergeConflictDialog.syncId := "p-1";
     MergeConflictDialog.rowA := None;
     MergeConflictDialog.rowB := None;
     MergeConflictDialog.rowDescription := "Ann";
     MergeConflictDialog.modifiedByA := None;
     MergeConflictDialog.modifiedByB := None |}.

(** A menu of two sections: a header, two dishes, a header, a dish. *)
Definition menu : list SpecialEvents.MenuItem :=
  [{| SpecialEvents.id := 1; SpecialEvents.sort_order := 10;
      SpecialEvents.is_header := 1 |};
   {| SpecialEvents.id := 2; SpecialEvents.sort_order := 20;
      SpecialEvents.is_header := 0 |};
   {| SpecialEvents.id := 3; SpecialEvents.sort_order := 30;
      SpecialEvents.is_header := 0 |};
   {| SpecialEvents.id := 4; SpecialEvents.sort_order := 40;
      SpecialEvents.is_header := 1 |};
   {| SpecialEvents.id := 5; SpecialEvents.sort_order := 50;
      SpecialEvents.is_header := 0 |}].



End Examples.

(** * Properties *)

(** ** The model on the examples of the source *)

Section DocExamples.
Import FS FolderSync.

Example extractEmailFromFileName_doc :
  extractEmailFromFileName "schedule.john@company.com.db"
  = Some "john@company.com".
Proof. reflexivity. Qed.

Example extractEmailFromFileName_base :
  extractEmailFromFileName BASE_FILE_NAME = None.
Proof. reflexivity. Qed.

Example createWorkingFileName_doc :
  createWorkingFileName "john@company.com" = "schedule.john@company.com.db".
Proof. reflexivity. Qed.

Example createBackupFileName_doc :
  createBackupFileName
    (JSDate.days_from_civil 2025 12 26 * JSDate.msPerDay + 36000000)
    "schedule.john@company.com.db"
  = "schedule.john@company.com.db.bak.2025-12-26".
Proof. vm_compute. reflexivity. Qed.

Example parseBackupDate_doc :
  parseBackupDate (Examples.fixed_zone 0)
    "schedule.john@company.com.db.bak.2025-12-26"
  = Some (JSDate.days_from_civil 2025 12 26 * JSDate.msPerDay).
Proof. vm_compute. reflexivity. Qed.

Example parseBackupDate_not_a_backup :
  parseBackupDate (Examples.fixed_zone 0)
    "schedule.john@company.com.db.bak.2025-1-26" = None.
Proof. vm_compute. reflexivity. Qed.

Example epoch_day : JSDate.days_from_civil 1970 1 1 = 0.
Proof. reflexivity. Qed.

Example leap_day :
  JSDate.civil_from_days (JSDate.days_from_civil 2024 2 29) = (2024, 2, 29).
Proof. vm_compute. reflexivity. Qed.

Example iso_parse_epoch :
  JSDate.iso_parse "1970-01-02T00:00:01.005Z" = Some (JSDate.msPerDay + 1005).
Proof. vm_compute. reflexivity. Qed.

End DocExamples.

(** ** Strings *)

Section StrFacts.
Import Str.

Lemma strip_prefix_app p s : strip_prefix p (p +:+ s) = Some s.
Proof.
  induction p as [|a p IH]; simpl; [done|].
  by rewrite Ascii.eqb_refl.
Qed.

Lemma string_length_app s t :
  String.length (s +:+ t) = (String.length s + String.length t)%nat.
Proof. induction s; simpl; auto. Qed.

Lemma strip_suffix_eq q s :
  strip_suffix q s =
    if String.eqb s q then Some EmptyString
    else match s with
         | EmptyString => None
         | String a s' => String a <$> strip_suffix q s'
         end.
Proof. by destruct s. Qed.

Lemma strip_suffix_app q r : strip_suffix q (r +:+ q) = Some r.
Proof.
  induction r as [|a r IH].
  - change (EmptyString +:+ q) with q.
    by rewrite strip_suffix_eq, String.eqb_refl.
  - change (String a r +:+ q) with (String a (r +:+ q)).
    rewrite strip_suffix_eq.
    destruct (String.eqb (String a (r +:+ q)) q) eqn:E.
    + apply String.eqb_eq in E. apply (f_equal String.length) in E.
      simpl in E. rewrite string_length_app in E. lia.
    + by rewrite IH.
Qed.

Lemma string_app_assoc (s t u : string) : (s +:+ t) +:+ u = s +:+ (t +:+ u).
Proof.
  induction s as [|a s IH]; [done|].
  change (String a ((s +:+ t) +:+ u) = String a (s +:+ (t +:+ u))).
  by rewrite IH.
Qed.

Lemma strip_prefix_Some p s r : strip_prefix p s = Some r → s = p +:+ r.
Proof.
  revert s; induction p as [|a p IH]; intros s; simpl.
  - by intros [= ->].
  - destruct s as [|b s]; [done|].
    destruct (Ascii.eqb a b) eqn:E; [|done].
    apply Ascii.eqb_eq in E as ->. by intros ->%IH.
Qed.

Lemma strip_suffix_Some q s r : strip_suffix q s = Some r → s = r +:+ q.
Proof.
  revert r; induction s as [|a s IH]; intros r; rewrite strip_suffix_eq.
  - destruct (String.eqb EmptyString q) eqn:E; [|done].
    apply String.eqb_eq in E as <-. by intros [= <-].
  - destruct (String.eqb (String a s) q) eqn:E.
    + apply String.eqb_eq in E. by intros [= <-].
    + destruct (strip_suffix q s) as [r'|] eqn:E'; simpl; [|done].
      intros [= <-]. by rewrite (IH r').
Qed.

Lemma substring_all s : String.substring 0 (String.length s) s = s.
Proof. induction s as [|a s IH]; simpl; [done|]. by rewrite IH. Qed.

Lemma substring_split s (n : nat) :
  (n ≤ String.length s)%nat →
  s = String.substring 0 n s +:+ String.substring n (String.length s - n) s.
Proof.
  revert s; induction n as [|n IH]; intros s Hn.
  - rewrite Nat.sub_0_r, substring_all. by destruct s.
  - destruct s as [|a s]; simpl in *; [lia|].
    change (String a s = String a (String.substring 0 n s +:+
                                   String.substring n (String.length s - n) s)).
    rewrite <- IH by lia. done.
Qed.

Lemma prefix_app t b : String.prefix t (t +:+ b) = true.
Proof.
  induction t as [|c t IH]; simpl; [by destruct b|].
  destruct (ascii_dec c c); [done | congruence].
Qed.

Lemma includes_eq t s :
  includes t s =
    if String.prefix t s then true
    else match s with
         | EmptyString => false
         | String _ s' => includes t s'
         end.
Proof. by destruct s. Qed.

Lemma includes_app t a b : includes t (a +:+ t +:+ b) = true.
Proof.
  induction a as [|c a IH].
  - change (EmptyString +:+ t +:+ b) with (t +:+ b).
    by rewrite includes_eq, prefix_app.
  - change (String c a +:+ t +:+ b) with (String c (a +:+ t +:+ b)).
    rewrite includes_eq. by destruct (String.prefix _ _).
Qed.

End StrFacts.

(** ** The rules of the logic of storage programs *)

Section IOLogic.
Import FS.
Context (faulty : bool).
Implicit Types es : gmap string entry.

Lemma schedule_tail b fs : schedule faulty (b :: fs) → schedule faulty fs.
Proof. unfold schedule. by inversion 1. Qed.

Lemma wp_ret {A} (a : A) Q es : Q (Return a) es → wp faulty (mret a) Q es.
Proof. intros HQ fs Hfs. by exists (Return a), es, fs. Qed.

Lemma wp_throw {A} e (Q : outcome A → _ → Prop) es :
  Q (Throw e) es → wp faulty (throw e) Q es.
Proof. intros HQ fs Hfs. by exists (Throw e), es, fs. Qed.

Lemma wp_bind {A B} (m : IO A) (f : A → IO B) Q es :
  wp faulty m
     (λ r es', match r with
               | Return a => wp faulty (f a) Q es'
               | Throw e => Q (Throw e) es'
               end) es →
  wp faulty (m ≫= f) Q es.
Proof.
  intros Hm fs Hfs. destruct (Hm fs Hfs) as (r & es' & fs' & Em & Hfs' & HQ).
  unfold mbind, IO_bind. rewrite Em. destruct r as [a|e].
  - apply HQ, Hfs'.
  - by exists (Throw e), es', fs'.
Qed.

Lemma wp_try_catch {A} (m : IO A) (h : error → IO A) Q es :
  wp faulty m
     (λ r es', match r with
               | Return a => Q (Return a) es'
               | Throw e => wp faulty (h e) Q es'
               end) es →
  wp faulty (try_catch m h) Q es.
Proof.
  intros Hm fs Hfs. destruct (Hm fs Hfs) as (r & es' & fs' & Em & Hfs' & HQ).
  unfold try_catch. rewrite Em. destruct r as [a|e].
  - by exists (Return a), es', fs'.
  - apply HQ, Hfs'.
Qed.

Lemma wp_mono {A} (m : IO A) (Q Q' : outcome A → _ → Prop) es :
  wp faulty m Q es → (∀ r es', Q r es' → Q' r es') → wp faulty m Q' es.
Proof.
  intros Hm HQ fs Hfs. destruct (Hm fs Hfs) as (r & es' & fs' & ? & ? & ?).
  exists r, es', fs'. auto.
Qed.

Lemma wp_storage_call (Q : outcome unit → _ → Prop) es :
  (faulty = true → Q (Throw NotAllowedError) es) →
  Q (Return ()) es →
  wp faulty storage_call Q es.
Proof.
  intros Hf Hok fs Hfs. unfold storage_call. simpl.
  destruct fs as [|[] fs].
  - by exists (Return ()), es, [].
  - exists (Throw NotAllowedError), es, fs. split; [done|].
    split; [by eapply schedule_tail|]. apply Hf.
    unfold schedule in Hfs. inversion Hfs; auto.
  - exists (Return ()), es, fs. split; [done|].
    split; [by eapply schedule_tail | done].
Qed.

Lemma wp_get_entries (Q : outcome (gmap string entry) → _ → Prop) es :
  Q (Return es) es → wp faulty get_entries Q es.
Proof. intros HQ fs Hfs. by exists (Return es), es, fs. Qed.

Lemma wp_put_entries (Q : outcome unit → _ → Prop) es es1 :
  Q (Return ()) es1 → wp faulty (put_entries es1) Q es.
Proof. intros HQ fs Hfs. by exists (Return ()), es1, fs. Qed.

(** A storage call that then acts on the entries without failing
    again. *)
Lemma wp_call {A} (k : gmap string entry → IO A)
    (Q : outcome A → gmap string entry → Prop) es :
  (faulty = true → Q (Throw NotAllowedError) es) →
  wp faulty (k es) Q es →
  wp faulty (storage_call ≫= λ _, get_entries ≫= k) Q es.
Proof.
  intros Hf Hk. apply wp_bind, wp_storage_call; [done|].
  by apply wp_bind, wp_get_entries.
Qed.

Lemma wp_dir_entries Q es :
  Q (Return (prod_map id entry_kind <$> map_to_list es)) es →
  wp faulty dir_entries Q es.
Proof. intros HQ. apply wp_bind, wp_get_entries. by apply wp_ret. Qed.

Lemma for_await_cons {A S} (body : S → A → IO S) (s : S) (x : A) (l : list A) :
  for_await body s (x :: l)
  = storage_call ≫= λ _, body s x ≫= λ s', for_await body s' l.
Proof. done. Qed.

(** A loop whose body touches no storage: it folds the body over what
    the iterator yields, unless a step of the iterator fails. *)
Lemma wp_for_await_pure {A S} (f : S → A → S) (l : list A) :
  ∀ (s : S) (Q : outcome S → gmap string entry → Prop) es,
    (faulty = true → Q (Throw NotAllowedError) es) →
    Q (Return (foldl f s l)) es →
    wp faulty (for_await (λ s x, mret (f s x)) s l) Q es.
Proof.
  induction l as [|x l IH]; intros s Q es Hf HQ.
  - apply wp_bind, wp_storage_call; [done|]. by apply wp_ret.
  - rewrite for_await_cons. apply wp_bind, wp_storage_call; [done|].
    apply wp_bind, wp_ret. by apply IH.
Qed.

Lemma wp_getFileHandle (name : string) (create : bool) Q es :
  (faulty = true → Q (Throw NotAllowedError) es) →
  match es !! name with
  | Some (File _) => Q (Return name) es
  | Some Directory => Q (Throw TypeMismatchError) es
  | None =>
      if create then Q (Return name) (<[name := File EmptyString]> es)
      else Q (Throw NotFoundError) es
  end →
  wp faulty (getFileHandle name create) Q es.
Proof.
  intros Hf HQ. apply wp_call; [done|]. cbv beta.
  destruct (es !! name) as [[d|]|].
  - by apply wp_ret.
  - by apply wp_throw.
  - destruct create.
    + apply wp_bind, wp_put_entries. by apply wp_ret.
    + by apply wp_throw.
Qed.

Lemma wp_getFile (h : FileSystemFileHandle) Q es :
  (faulty = true → Q (Throw NotAllowedError) es) →
  match es !! h with
  | Some (File data) => Q (Return data) es
  | _ => Q (Throw NotFoundError) es
  end →
  wp faulty (getFile h) Q es.
Proof.
  intros Hf HQ. apply wp_call; [done|]. cbv beta.
  destruct (es !! h) as [[d|]|]; by (apply wp_ret || apply wp_throw).
Qed.

Lemma wp_arrayBuffer f Q es :
  (faulty = true → Q (Throw NotAllowedError) es) →
  Q (Return f) es →
  wp faulty (arrayBuffer f) Q es.
Proof.
  intros Hf HQ. apply wp_bind, wp_storage_call; [done|]. by apply wp_ret.
Qed.

Lemma wp_text f Q es :
  (faulty = true → Q (Throw NotAllowedError) es) →
  Q (Return f) es →
  wp faulty (text f) Q es.
Proof.
  intros Hf HQ. apply wp_bind, wp_storage_call; [done|]. by apply wp_ret.
Qed.

Lemma wp_createWritable (h : FileSystemFileHandle) Q es :
  (faulty = true → Q (Throw NotAllowedError) es) →
  match es !! h with
  | Some (File _) => Q (Return {| target := h; swap := EmptyString |}) es
  | _ => Q (Throw NotFoundError) es
  end →
  wp faulty (createWritable h) Q es.
Proof.
  intros Hf HQ. apply wp_call; [done|]. cbv beta.
  destruct (es !! h) as [[d|]|]; by (apply wp_ret || apply wp_throw).
Qed.

Lemma wp_write wr data Q es :
  (faulty = true → Q (Throw NotAllowedError) es) →
  Q (Return {| target := target wr; swap := swap wr +:+ data |}) es →
  wp faulty (write wr data) Q es.
Proof.
  intros Hf HQ. apply wp_bind, wp_storage_call; [done|]. by apply wp_ret.
Qed.

Lemma wp_close wr Q es :
  (faulty = true → Q (Throw NotAllowedError) es) →
  Q (Return ()) (<[target wr := File (swap wr)]> es) →
  wp faulty (close wr) Q es.
Proof. intros Hf HQ. apply wp_call; [done|]. by apply wp_put_entries. Qed.

Lemma wp_removeEntry (name : string) Q es :
  (faulty = true → Q (Throw NotAllowedError) es) →
  match es !! name with
  | Some _ => Q (Return ()) (delete name es)
  | None => Q (Throw NotFoundError) es
  end →
  wp faulty (removeEntry name) Q es.
Proof.
  intros Hf HQ. apply wp_call; [done|]. cbv beta.
  destruct (es !! name); by (apply wp_put_entries || apply wp_throw).
Qed.

(** What the logic says of one run. *)
Lemma wp_run {A} (m : IO A) Q w :
  wp faulty m Q (entries w) → schedule faulty (faults w) →
  ∃ r w', m w = (r, w') ∧ Q r (entries w').
Proof.
  intros Hm Hfs. destruct w as [es fs].
  destruct (Hm fs Hfs) as (r & es' & fs' & E & _ & HQ).
  by exists r, (World es' fs').
Qed.

End IOLogic.

(** One step into a sequence of calls. *)
Ltac wp_seq := apply wp_bind.

Lemma schedule_any fs : FS.schedule true fs.
Proof. unfold FS.schedule. by apply Forall_forall. Qed.

Lemma schedule_fault_free w : FS.fault_free w → FS.schedule false (FS.faults w).
Proof.
  unfold FS.fault_free, FS.schedule. intros H.
  eapply Forall_impl; [exact H|]. by intros b ->.
Qed.

(** ** File names *)

Section FileNames.
Import FS FolderSync.

Lemma match_WORKING_FILE_PATTERN_create (email : string) :
  Str.dot_plus email = true →
  match_WORKING_FILE_PATTERN (createWorkingFileName email) = Some email.
Proof.
  intros Hdot. unfold match_WORKING_FILE_PATTERN, createWorkingFileName.
  rewrite strip_prefix_app. simpl.
  rewrite strip_suffix_app. simpl. by rewrite Hdot.
Qed.

(** C10. Round trip of the working-file naming convention: for every
    non-empty author email with no line terminator among its characters
    (the newline characters LF and CR, which the [.] of the pattern does
    not match), [extractEmailFromFileName (createWorkingFileName email)]
    is [email]. *)
Theorem extractEmail_createWorkingFileName (email : string) :
  email ≠ EmptyString →
  Str.forallb (λ c, negb (Str.is_line_terminator c)) email = true →
  extractEmailFromFileName (createWorkingFileName email) = Some email.
Proof.
  intros Hne Hnl. unfold extractEmailFromFileName.
  rewrite match_WORKING_FILE_PATTERN_create; [done|].
  by destruct email.
Qed.

Lemma extractEmail_createWorkingFileName_witness :
  extractEmailFromFileName (createWorkingFileName "john@company.com")
  = Some "john@company.com".
Proof.
  apply (extractEmail_createWorkingFileName "john@company.com");
    [discriminate | reflexivity].
Defined.

Lemma createBackupFileName_longer now (workingFileName : string) :
  createBackupFileName now workingFileName ≠ workingFileName.
Proof.
  unfold createBackupFileName, BACKUP_EXTENSION. intros E.
  apply (f_equal String.length) in E.
  rewrite !string_length_app in E. simpl in E. lia.
Qed.

End FileNames.

(** ** Working files, the base and the archive *)

Section Files.
Import FS FolderSync Examples.

(** C3, as the code has it: in the absence of storage failures,
    [createWorkingFileFromBase base author] copies the bytes of the base
    verbatim into the working file named for that author, creating the
    file when there is none and replacing its contents when there is
    one; it returns the handle of that file and does not fail when the
    working file already exists. *)
Theorem createWorkingFileFromBase_copies (w : world)
    (baseHandle : FileSystemFileHandle) (author data : string) :
  fault_free w →
  entries w !! baseHandle = Some (File data) →
  entries w !! createWorkingFileName author ≠ Some Directory →
  ∃ w', createWorkingFileFromBase baseHandle author w
        = (Return (createWorkingFileName author), w')
        ∧ entries w'
          = <[createWorkingFileName author := File data]> (entries w).
Proof.
  intros Hff Hbase Hdir.
  set (Q := λ (r : outcome string) (es' : gmap string entry),
         r = Return (createWorkingFileName author)
         ∧ es' = <[createWorkingFileName author := File data]> (entries w)).
  destruct (wp_run false (createWorkingFileFromBase baseHandle author) Q w)
    as (r & w' & E & -> & Hes); [|by apply schedule_fault_free|by exists w'].
  unfold createWorkingFileFromBase.
  wp_seq. apply wp_getFile; [done|]. rewrite Hbase.
  wp_seq. apply wp_arrayBuffer; [done|].
  wp_seq. apply wp_getFileHandle; [done|].
  destruct (entries w !! createWorkingFileName author) as [[old|]|] eqn:Ewf;
    [|done|].
  - wp_seq. apply wp_createWritable; [done|]. rewrite Ewf.
    wp_seq. apply wp_write; [done|].
    wp_seq. apply wp_close; [done|]. by apply wp_ret.
  - wp_seq. apply wp_createWritable; [done|]. rewrite lookup_insert_eq.
    wp_seq. apply wp_write; [done|].
    wp_seq. apply wp_close; [done|]. apply wp_ret. split; [done|].
    simpl. by rewrite insert_insert_eq.
Qed.

Lemma createWorkingFileFromBase_copies_witness :
  ∃ w', createWorkingFileFromBase "schedule.base" "amy@co" folder_amy
        = (Return (createWorkingFileName "amy@co"), w')
        ∧ entries w'
          = <[createWorkingFileName "amy@co" := File "BASE"]>
              (entries folder_amy).
Proof.
  apply (createWorkingFileFromBase_copies folder_amy "schedule.base"
           "amy@co" "BASE").
  - constructor.
  - reflexivity.
  - vm_compute. discriminate.
Defined.

(** C3, as stated, fails: with a working file for amy@co in the folder,
    [createWorkingFileFromBase] does not fail at all; it returns the
    handle, and the edits in the file are replaced by the base. *)
Lemma createWorkingFileFromBase_no_AlreadyExists :
  ¬ (∀ (w : world) (baseHandle : FileSystemFileHandle) (author : string),
       (∃ data, entries w !! createWorkingFileName author = Some (File data)) →
       ∃ e, (createWorkingFileFromBase baseHandle author w).1 = Throw e).
Proof.
  intros H.
  destruct (H folder_amy "schedule.base" "amy@co") as [e He].
  - exists "EDITS". reflexivity.
  - vm_compute in He. discriminate.
Qed.

Lemma archiveWorkingFile_wp faulty (now : Z) (wf : WorkingFileInfo)
    (es : gmap string entry) (data : string) :
  handle wf = fileName wf →
  es !! fileName wf = Some (File data) →
  (faulty = false →
   es !! createBackupFileName now (fileName wf) ≠ Some Directory) →
  wp faulty (archiveWorkingFile now wf)
    (λ r es',
       match r with
       | Return _ =>
           es' !! createBackupFileName now (fileName wf) = Some (File data)
           ∧ es' !! fileName wf = None
       | Throw _ => es' !! fileName wf = Some (File data) ∧ faulty = true
       end) es.
Proof.
  intros Hh Hwf Hdir. unfold archiveWorkingFile. rewrite Hh.
  pose proof (createBackupFileName_longer now (fileName wf)) as Hne.
  set (bk := createBackupFileName now (fileName wf)) in *.
  wp_seq. apply wp_getFile; [by intros ->|]. rewrite Hwf.
  wp_seq. apply wp_arrayBuffer; [by intros ->|].
  wp_seq. apply wp_getFileHandle; [by intros ->|].
  assert (∀ (es1 : gmap string entry) old,
            es1 !! bk = Some (File old) →
            es1 !! fileName wf = Some (File data) →
            wp faulty
              (createWritable bk ≫= λ writable,
               write writable data ≫= λ writable,
               close writable ≫= λ _, removeEntry (fileName wf))
              (λ r es',
                 match r with
                 | Return _ => es' !! bk = Some (File data)
                               ∧ es' !! fileName wf = None
                 | Throw _ => es' !! fileName wf = Some (File data)
                              ∧ faulty = true
                 end) es1) as Hrest.
  { intros es1 old Hbk Hwf1.
    wp_seq. apply wp_createWritable; [by intros ->|]. rewrite Hbk.
    wp_seq. apply wp_write; [by intros ->|].
    wp_seq. apply wp_close; [by intros ->|]. simpl.
    apply wp_removeEntry; rewrite lookup_insert_ne by done.
    - by intros ->.
    - rewrite Hwf1. split.
      + by rewrite lookup_delete_ne, lookup_insert_eq.
      + by rewrite lookup_delete_eq. }
  destruct (es !! bk) as [[old|]|] eqn:Ebk.
  - by apply (Hrest es old).
  - split; [done|]. destruct faulty; [done|]. by destruct Hdir.
  - apply (Hrest _ EmptyString).
    + by rewrite lookup_insert_eq.
    + by rewrite lookup_insert_ne.
Qed.

Lemma updateBase_wp faulty (baseHandle : FileSystemFileHandle)
    (mergedData old : string) (es : gmap string entry) :
  es !! baseHandle = Some (File old) →
  wp faulty (updateBase baseHandle mergedData)
    (λ r es',
       match r with
       | Return _ => es' = <[baseHandle := File mergedData]> es
       | Throw _ => es' = es ∧ faulty = true
       end) es.
Proof.
  intros Hbase. unfold updateBase.
  wp_seq. apply wp_createWritable; [by intros ->|]. rewrite Hbase.
  wp_seq. apply wp_write; [by intros ->|].
  apply wp_close; [by intros ->|]. done.
Qed.

Lemma createEmptyBase_wp faulty (initialDbData old : string)
    (es : gmap string entry) :
  es !! BASE_FILE_NAME = Some (File old) →
  wp faulty (createEmptyBase initialDbData)
    (λ r es',
       match r with
       | Return h => h = BASE_FILE_NAME
                     ∧ es' = <[BASE_FILE_NAME := File initialDbData]> es
       | Throw _ => es' = es ∧ faulty = true
       end) es.
Proof.
  intros Hbase. unfold createEmptyBase.
  wp_seq. apply wp_getFileHandle; [by intros ->|]. rewrite Hbase.
  wp_seq. apply wp_createWritable; [by intros ->|]. rewrite Hbase.
  wp_seq. apply wp_write; [by intros ->|].
  wp_seq. apply wp_close; [by intros ->|]. by apply wp_ret.
Qed.

(** C9. The base is replaced in one step, by [updateBase] and by
    [createEmptyBase] over an existing base alike: what is written goes
    to the swap file of the writable stream and reaches the base when
    the stream is closed. Whichever storage call fails, the folder is
    found either as it was, base included, or with the base holding the
    new data in full; the states between two storage calls are those in
    which the next call fails, so no state with a partly written base
    exists. *)
Theorem base_replaced_atomically (w : world) (old new : string) :
  entries w !! BASE_FILE_NAME = Some (File old) →
  replaces_atomically (updateBase BASE_FILE_NAME new) w BASE_FILE_NAME new
  ∧ replaces_atomically (createEmptyBase new) w BASE_FILE_NAME new.
Proof.
  intros Hbase. split.
  - destruct (wp_run true _ _ w
                (updateBase_wp true BASE_FILE_NAME new old _ Hbase)
                (schedule_any _)) as (r & w' & E & HQ).
    exists r, w'. split; [done|]. split.
    + destruct r; [done | by destruct HQ].
    + intros Hff.
      destruct (wp_run false _ _ w
                  (updateBase_wp false BASE_FILE_NAME new old _ Hbase)
                  (schedule_fault_free _ Hff)) as (r2 & w2 & E2 & HQ2).
      rewrite E in E2. injection E2 as <- <-.
      destruct r as [a|e]; [by exists a | by destruct HQ2].
  - destruct (wp_run true _ _ w
                (createEmptyBase_wp true new old _ Hbase)
                (schedule_any _)) as (r & w' & E & HQ).
    exists r, w'. split; [done|]. split.
    + destruct r; by destruct HQ.
    + intros Hff.
      destruct (wp_run false _ _ w
                  (createEmptyBase_wp false new old _ Hbase)
                  (schedule_fault_free _ Hff)) as (r2 & w2 & E2 & HQ2).
      rewrite E in E2. injection E2 as <- <-.
      destruct r as [a|e]; [by exists a | by destruct HQ2].
Qed.

Lemma base_replaced_atomically_witness :
  replaces_atomically (updateBase BASE_FILE_NAME "MERGED") folder_amy
    BASE_FILE_NAME "MERGED"
  ∧ replaces_atomically (createEmptyBase "MERGED") folder_amy
      BASE_FILE_NAME "MERGED".
Proof.
  apply (base_replaced_atomically folder_amy "BASE" "MERGED"). reflexivity.
Defined.

End Files.

(** ** The merge lock *)

Section MergeLock.
Import FS FolderSync.
Variable Date_parse : string → option Z.
Variable JSON_parse : string → option MergeLockInfo.

Lemma removeMergeLock_wp (es : gmap string entry) e :
  es !! MERGE_LOCK_FILE = Some e →
  wp false removeMergeLock
    (λ r es', r = Return () ∧ es' = delete MERGE_LOCK_FILE es) es.
Proof.
  intros Hlock. unfold removeMergeLock.
  apply wp_try_catch, wp_removeEntry; [done|]. by rewrite Hlock.
Qed.

Lemma checkMergeLock_run (now : Z) (w : world) (content : string)
    (lockInfo : MergeLockInfo) (t : Z) :
  fault_free w →
  entries w !! MERGE_LOCK_FILE = Some (File content) →
  JSON_parse content = Some lockInfo →
  Date_parse (startedAt lockInfo) = Some t →
  ∃ w', checkMergeLock Date_parse JSON_parse now w
        = (Return (if bool_decide (60 * 60 * 1000 < now - t)
                   then None else Some lockInfo), w')
        ∧ entries w'
          = if bool_decide (60 * 60 * 1000 < now - t)
            then delete MERGE_LOCK_FILE (entries w) else entries w.
Proof.
  intros Hff Hlock Hjson Hdate.
  set (stale := bool_decide (60 * 60 * 1000 < now - t)).
  set (Q := λ (r : outcome (option MergeLockInfo)) (es' : gmap string entry),
         r = Return (if stale then None else Some lockInfo)
         ∧ es' = if stale then delete MERGE_LOCK_FILE (entries w)
                 else entries w).
  destruct (wp_run false (checkMergeLock Date_parse JSON_parse now) Q w)
    as (r & w' & E & -> & Hes); [|by apply schedule_fault_free|by exists w'].
  unfold checkMergeLock. apply wp_try_catch.
  wp_seq. apply wp_getFileHandle; [done|]. rewrite Hlock.
  wp_seq. apply wp_getFile; [done|]. rewrite Hlock.
  wp_seq. apply wp_text; [done|].
  rewrite Hjson. simpl. wp_seq. apply wp_ret.
  rewrite Hdate. simpl.
  subst Q stale.
  destruct (Z.ltb_spec (60 * 60 * 1000) (now - t)) as [Hlt|Hge].
  - rewrite bool_decide_eq_true_2 by done.
    wp_seq. eapply wp_mono; [by eapply removeMergeLock_wp|].
    intros r es' [-> ->]. by apply wp_ret.
  - rewrite bool_decide_eq_false_2 by lia. by apply wp_ret.
Qed.

(** C5. With a lock file in the folder whose text parses and whose
    [startedAt] is a date, and without storage failure: when that date
    is more than one hour in the past, [checkMergeLock] returns no lock
    and the lock file is deleted, everything else being left as it is;
    when the lock is at most one hour old, it is returned and the
    folder is unchanged. *)
Theorem checkMergeLock_stale (now : Z) (w : world) (content : string)
    (lockInfo : MergeLockInfo) (t : Z) :
  fault_free w →
  entries w !! MERGE_LOCK_FILE = Some (File content) →
  JSON_parse content = Some lockInfo →
  Date_parse (startedAt lockInfo) = Some t →
  (60 * 60 * 1000 < now - t →
   ∃ w', checkMergeLock Date_parse JSON_parse now w = (Return None, w')
         ∧ entries w' = delete MERGE_LOCK_FILE (entries w))
  ∧ (now - t ≤ 60 * 60 * 1000 →
     ∃ w', checkMergeLock Date_parse JSON_parse now w
           = (Return (Some lockInfo), w')
           ∧ entries w' = entries w).
Proof.
  intros Hff Hlock Hjson Hdate.
  destruct (checkMergeLock_run now w content lockInfo t Hff Hlock Hjson Hdate)
    as (w' & E & Hes).
  split; intros Hage; exists w'.
  - by rewrite bool_decide_eq_true_2 in E, Hes by done.
  - by rewrite bool_decide_eq_false_2 in E, Hes by lia.
Qed.

End MergeLock.

Lemma checkMergeLock_stale_witness :
  (60 * 60 * 1000 < Examples.two_hours_later - Examples.jan_1 →
   ∃ w', FolderSync.checkMergeLock JSDate.iso_parse Examples.parse_lock_text
           Examples.two_hours_later Examples.folder_locked
         = (FS.Return None, w')
         ∧ FS.entries w'
           = delete FolderSync.MERGE_LOCK_FILE
               (FS.entries Examples.folder_locked))
  ∧ (Examples.two_hours_later - Examples.jan_1 ≤ 60 * 60 * 1000 →
     ∃ w', FolderSync.checkMergeLock JSDate.iso_parse Examples.parse_lock_text
             Examples.two_hours_later Examples.folder_locked
           = (FS.Return (Some Examples.lock_of_amy), w')
           ∧ FS.entries w' = FS.entries Examples.folder_locked).
Proof.
  apply (checkMergeLock_stale JSDate.iso_parse Examples.parse_lock_text
           Examples.two_hours_later Examples.folder_locked
           Examples.lock_text Examples.lock_of_amy Examples.jan_1).
  - constructor.
  - reflexivity.
  - reflexivity.
  - reflexivity.
Defined.

(** ** The scan of the folder *)

Section Scan.
Import FS FolderSync Examples.

Lemma elem_of_dir_entries (es : gmap string entry) (name : string) :
  (name, file) ∈ prod_map id entry_kind <$> map_to_list es
  ↔ ∃ data, es !! name = Some (File data).
Proof.
  rewrite list_elem_of_fmap. split.
  - intros ([n e] & [= -> Hk] & Hin). apply elem_of_map_to_list in Hin.
    destruct e as [data|]; [by exists data | done].
  - intros [data Hl]. exists (name, File data). split; [done|].
    by apply elem_of_map_to_list.
Qed.

Lemma extractEmail_nonempty (name author : string) :
  extractEmailFromFileName name = Some author → author ≠ EmptyString.
Proof.
  unfold extractEmailFromFileName, match_WORKING_FILE_PATTERN.
  destruct (Str.strip_prefix _ name) as [rest|]; simpl; [|done].
  destruct (Str.strip_suffix _ rest) as [g|]; simpl; [|done].
  destruct (Str.dot_plus g) eqn:E; [|done].
  intros [= <-]. by destruct g.
Qed.

Lemma same_email_false (a b : string) :
  same_email a b = false ↔ Str.toLowerCase a ≠ Str.toLowerCase b.
Proof. unfold same_email. apply String.eqb_neq. Qed.

Lemma scan_workingFiles (cur : string) (es : list (string * kind)) :
  ∀ acc author,
    author ∈ email <$> workingFiles (foldl (scan_entry cur) acc es)
    ↔ author ∈ email <$> workingFiles acc
      ∨ ∃ name, (name, file) ∈ es
                ∧ extractEmailFromFileName name = Some author.
Proof.
  induction es as [|[name k] es IH]; intros acc author; simpl.
  - split; [auto|]. intros [?|(n & Hin & _)]; [done|].
    by apply elem_of_nil in Hin.
  - rewrite IH. clear IH.
    assert (∀ P : Prop,
              (P ↔ k = file ∧ extractEmailFromFileName name = Some author) →
              (P ∨ (∃ n, (n, file) ∈ es
                         ∧ extractEmailFromFileName n = Some author))
              ↔ ∃ n, (n, file) ∈ (name, k) :: es
                     ∧ extractEmailFromFileName n = Some author) as Hsplit.
    { intros P HP. split.
      - intros [HPk|(n & Hin & He)].
        + apply HP in HPk as [-> He]. exists name. split; [left|done].
        + exists n. split; [by right | done].
      - intros (n & Hin & He). apply elem_of_cons in Hin as [[= -> <-]|Hin].
        + left. by apply HP.
        + right. by exists n. }
    destruct k; simpl.
    2:{ rewrite <- (Hsplit False); [tauto|]. split; [done | by intros [? _]]. }
    destruct (String.eqb name BASE_FILE_NAME) eqn:Ebase; simpl.
    { apply String.eqb_eq in Ebase as ->.
      rewrite <- (Hsplit False); [tauto|]. split; [done|]. by intros [_ ?]. }
    destruct (extractEmailFromFileName name) as [[|c a]|] eqn:Eem; simpl.
    + by apply extractEmail_nonempty in Eem.
    + rewrite fmap_app, elem_of_app. simpl. rewrite list_elem_of_singleton.
      rewrite <- (Hsplit (author = String c a)); [tauto|].
      split; [by intros -> | by intros [_ [= ->]]].
    + assert (author ∈ email <$> workingFiles
                (if Str.includes BACKUP_EXTENSION name
                 then {| baseFile := baseFile acc;
                         workingFiles := workingFiles acc;
                         backupFiles := backupFiles acc ++ [name];
                         needsMerge := needsMerge acc;
                         myWorkingFile := myWorkingFile acc |}
                 else acc)
              ↔ author ∈ email <$> workingFiles acc) as ->
        by (by destruct (Str.includes _ _)).
      rewrite <- (Hsplit False); [tauto|]. split; [done | by intros [_ ?]].
Qed.

(** The working files that the scan lists carry the handle of their
    file name. *)
Lemma scan_handles (cur : string) (es : list (string * kind)) :
  ∀ acc,
    Forall (λ wf, handle wf = fileName wf) (workingFiles acc) →
    Forall (λ wf, handle wf = fileName wf)
      (workingFiles (foldl (scan_entry cur) acc es)).
Proof.
  induction es as [|[name k] es IH]; intros acc Hacc; simpl; [done|].
  apply IH. destruct k; simpl; [|done].
  destruct (String.eqb name BASE_FILE_NAME); simpl; [done|].
  destruct (extractEmailFromFileName name) as [[|c a]|]; simpl.
  - by destruct (Str.includes _ _).
  - apply Forall_app. split; [done|]. by apply Forall_singleton.
  - by destruct (Str.includes _ _).
Qed.

(** C1, as the code has it: without storage failure, [scanFolder]
    returns, leaves the folder as it is, and its [needsMerge] is true
    if and only if the folder contains a working file (a file whose
    name matches the working-file pattern) whose author differs from
    the current author once both are put in lower case. *)
Theorem scanFolder_needsMerge (w : world) (currentAuthor : string) :
  fault_free w →
  ∃ r w',
    scanFolder currentAuthor w = (Return r, w')
    ∧ entries w' = entries w
    ∧ (needsMerge r = true
       ↔ ∃ name data author,
           entries w !! name = Some (File data)
           ∧ extractEmailFromFileName name = Some author
           ∧ Str.toLowerCase author ≠ Str.toLowerCase currentAuthor).
Proof.
  intros Hff.
  set (Q := λ (r : outcome FolderScanResult) (es' : gmap string entry),
         ∃ res, r = Return res ∧ es' = entries w
           ∧ (needsMerge res = true
              ↔ ∃ name data author,
                  entries w !! name = Some (File data)
                  ∧ extractEmailFromFileName name = Some author
                  ∧ Str.toLowerCase author ≠ Str.toLowerCase currentAuthor)).
  destruct (wp_run false (scanFolder currentAuthor) Q w)
    as (r & w' & E & res & -> & Hes & Hiff);
    [|by apply schedule_fault_free|by exists res, w'].
  unfold scanFolder. apply wp_bind, wp_dir_entries.
  apply wp_bind, wp_for_await_pure; [done|].
  apply wp_ret. eexists. split; [done|]. split; [done|]. simpl.
  rewrite bool_decide_eq_true.
  set (found := foldl _ _ _).
  split.
  - intros Hlen.
    destruct (filter _ (workingFiles found)) as [|wf l] eqn:Ef;
      [simpl in Hlen; lia|].
    assert (wf ∈ filter (λ wf, same_email (email wf) currentAuthor = false)
                   (workingFiles found)) as Hin by (rewrite Ef; left).
    apply list_elem_of_filter in Hin as [Hne Hin].
    assert (email wf ∈ email <$> workingFiles found) as Hem
      by (apply list_elem_of_fmap; eauto).
    apply scan_workingFiles in Hem as [Hem|(name & Hname & Hex)];
      [by apply elem_of_nil in Hem|].
    apply elem_of_dir_entries in Hname as [data Hdata].
    exists name, data, (email wf). by rewrite <- same_email_false.
  - intros (name & data & author & Hdata & Hex & Hne).
    assert (author ∈ email <$> workingFiles found) as Hem.
    { apply scan_workingFiles. right. exists name. split; [|done].
      apply elem_of_dir_entries. eauto. }
    apply list_elem_of_fmap in Hem as (wf & -> & Hin).
    assert (wf ∈ filter (λ wf, same_email (email wf) currentAuthor = false)
                   (workingFiles found)) as Hf.
    { apply list_elem_of_filter. by rewrite same_email_false. }
    destruct (filter _ (workingFiles found)); [by apply elem_of_nil in Hf|].
    simpl. lia.
Qed.

Lemma scanFolder_needsMerge_witness :
  ∃ r w',
    scanFolder "amy@co" folder_john = (Return r, w')
    ∧ entries w' = entries folder_john
    ∧ (needsMerge r = true
       ↔ ∃ name data author,
           entries folder_john !! name = Some (File data)
           ∧ extractEmailFromFileName name = Some author
           ∧ Str.toLowerCase author ≠ Str.toLowerCase "amy@co").
Proof. apply (scanFolder_needsMerge folder_john "amy@co"). constructor. Defined.

(** C1, as stated, fails: the only working file of the folder is that
    of John@co, an author other than john@co as a string, and
    [needsMerge] is false for the current author john@co. *)
Lemma scanFolder_needsMerge_ignores_case :
  ¬ (∀ (w : world) (currentAuthor : string) r w',
       scanFolder currentAuthor w = (Return r, w') →
       (needsMerge r = true
        ↔ ∃ name data author,
            entries w !! name = Some (File data)
            ∧ extractEmailFromFileName name = Some author
            ∧ author ≠ currentAuthor)).
Proof.
  intros H.
  destruct (scanFolder "john@co" folder_john) as [[r|e] w'] eqn:E;
    [|vm_compute in E; discriminate].
  assert (needsMerge r = false) as Hr
    by (vm_compute in E; by injection E as <- _).
  apply H in E. rewrite Hr in E.
  enough (false = true) by done. apply E.
  exists "schedule.John@co.db", "EDITS", "John@co".
  split; [reflexivity|]. split; [reflexivity | discriminate].
Qed.

End Scan.

(** ** The retention of backups *)

Section Backups.
Import FS FolderSync.
Variable LocalTZA : Z → bool → Z.

Lemma match_BACKUP_FILE_PATTERN_includes (fileName dateStr : string) :
  match_BACKUP_FILE_PATTERN fileName = Some dateStr →
  Str.includes BACKUP_EXTENSION fileName = true.
Proof.
  unfold match_BACKUP_FILE_PATTERN.
  destruct (Str.strip_prefix _ fileName) as [rest|] eqn:Erest; simpl; [|done].
  destruct (String.length rest <? 10)%nat eqn:Elen; [done|].
  apply Nat.ltb_ge in Elen.
  destruct (Str.strip_suffix _ _) as [stem|] eqn:Estem; simpl; [|done].
  intros _.
  apply strip_prefix_Some in Erest. apply strip_suffix_Some in Estem.
  pose proof (substring_split rest (String.length rest - 10)) as Hsplit.
  rewrite Estem in Hsplit. rewrite Erest, Hsplit by lia.
  set (tail := String.substring _ _ rest).
  replace ("schedule." +:+ (stem +:+ ".db.bak.") +:+ tail)
    with (("schedule." +:+ stem +:+ ".db") +:+ BACKUP_EXTENSION
          +:+ ("." +:+ tail)).
  - apply includes_app.
  - unfold BACKUP_EXTENSION. by rewrite !string_app_assoc.
Qed.

Lemma parseBackupDate_includes (fileName : string) (backupDate : Z) :
  parseBackupDate LocalTZA fileName = Some backupDate →
  Str.includes BACKUP_EXTENSION fileName = true.
Proof.
  unfold parseBackupDate.
  destruct (match_BACKUP_FILE_PATTERN fileName) as [dateStr|] eqn:E; [|done].
  intros _. by eapply match_BACKUP_FILE_PATTERN_includes.
Qed.

Lemma cleanup_entry_keep faulty cutoff (n : nat) (name : string) (k : kind)
    (Q : outcome nat → gmap string entry → Prop) (es : gmap string entry) :
  (k = file → ¬ expired LocalTZA cutoff name) →
  Q (Return n) es →
  wp faulty (cleanup_entry LocalTZA cutoff n (name, k)) Q es.
Proof.
  intros Hk HQ. unfold cleanup_entry. destruct k; [|by apply wp_ret].
  destruct (negb _); [by apply wp_ret|].
  destruct (parseBackupDate LocalTZA name) as [d|] eqn:Ed; [|by apply wp_ret].
  destruct (Z.ltb_spec d cutoff); [|by apply wp_ret].
  destruct Hk; [done|]. by exists d.
Qed.

Lemma cleanup_entry_expired faulty cutoff (n : nat) (name : string)
    (Q : outcome nat → gmap string entry → Prop) (es : gmap string entry) e :
  expired LocalTZA cutoff name →
  es !! name = Some e →
  (faulty = true → Q (Return n) es) →
  Q (Return (S n)) (delete name es) →
  wp faulty (cleanup_entry LocalTZA cutoff n (name, file)) Q es.
Proof.
  intros (d & Ed & Hd) He Hf HQ. unfold cleanup_entry.
  rewrite (parseBackupDate_includes _ _ Ed), Ed. simpl.
  apply Z.ltb_lt in Hd. rewrite Hd.
  apply wp_try_catch, wp_bind, wp_removeEntry.
  - intros Hfaulty. apply wp_ret. auto.
  - rewrite He. by apply wp_ret.
Qed.


Lemma cleanup_loop faulty cutoff (l : list (string * kind)) :
  ∀ (n : nat) (es : gmap string entry),
    NoDup l.*1 →
    (∀ name k, (name, k) ∈ l → ∃ e, es !! name = Some e ∧ entry_kind e = k) →
    wp faulty (for_await (cleanup_entry LocalTZA cutoff) n l)
      (λ r es',
         (∀ name, es' !! name = es !! name
                  ∨ (es' !! name = None ∧ (name, file) ∈ l
                     ∧ expired LocalTZA cutoff name))
         ∧ match r with
           | Return n' =>
               (size es + n = size es' + n')%nat
               ∧ (faulty = false →
                  ∀ name, (name, file) ∈ l → expired LocalTZA cutoff name →
                          es' !! name = None)
           | Throw _ => faulty = true
           end) es.
Proof.
  induction l as [|[name k] l IH]; intros n es Hnd Hin.
  - apply wp_bind, wp_storage_call.
    + intros ->. split; [auto | done].
    + apply wp_ret. split; [auto|]. split; [done|].
      intros _ name Hl. by apply elem_of_nil in Hl.
  - rewrite for_await_cons. apply wp_bind, wp_storage_call.
    { intros ->. split; [auto | done]. }
    rewrite fmap_cons in Hnd. apply NoDup_cons in Hnd as [Hfresh Hnd].
    simpl in Hfresh. apply wp_bind.
    assert (wp faulty (for_await (cleanup_entry LocalTZA cutoff) n l)
              (λ r es',
                 (∀ name0, es' !! name0 = es !! name0
                    ∨ (es' !! name0 = None ∧ (name0, file) ∈ (name, k) :: l
                       ∧ expired LocalTZA cutoff name0))
                 ∧ match r with
                   | Return n' =>
                       (size es + n = size es' + n')%nat
                       ∧ (faulty = false →
                          ∀ name0, (name0, file) ∈ l →
                                   expired LocalTZA cutoff name0 →
                                   es' !! name0 = None)
                   | Throw _ => faulty = true
                   end) es) as Hskip.
    { eapply wp_mono.
      - apply IH; [done|]. intros name0 k0 Hl. apply Hin. by right.
      - intros r es' [Hsame Hr]. split; [|done].
        intros name0. destruct (Hsame name0) as [?|(? & ? & ?)]; [by left|].
        right. split; [done|]. split; [by right | done]. }
    destruct (Hin name k) as (e & He & Hk); [left|].
    destruct k.
    2:{ apply cleanup_entry_keep; [done|]. cbv beta iota.
        eapply wp_mono; [exact Hskip|].
        intros r es' [Hsame Hr]. split; [done|].
        destruct r as [n'|err]; [|done]. destruct Hr as [Hsize Hall].
        split; [done|].
        intros Hff name0 [[= _ ?]|Hl]%elem_of_cons; auto. }
    destruct (parseBackupDate LocalTZA name) as [d|] eqn:Ed.
    2:{ assert (¬ expired LocalTZA cutoff name) as Hne
          by (intros (d & Ed' & _); congruence).
        apply cleanup_entry_keep; [done|]. cbv beta iota.
        eapply wp_mono; [exact Hskip|].
        intros r es' [Hsame Hr]. split; [done|].
        destruct r as [n'|err]; [|done]. destruct Hr as [Hsize Hall].
        split; [done|].
        intros Hff name0 [[= ->]|Hl]%elem_of_cons; [done | auto]. }
    destruct (Z.lt_ge_cases d cutoff) as [Hlt|Hge].
    2:{ assert (¬ expired LocalTZA cutoff name) as Hne
          by (intros (d' & Ed' & ?); assert (d' = d) by congruence; lia).
        apply cleanup_entry_keep; [done|]. cbv beta iota.
        eapply wp_mono; [exact Hskip|].
        intros r es' [Hsame Hr]. split; [done|].
        destruct r as [n'|err]; [|done]. destruct Hr as [Hsize Hall].
        split; [done|].
        intros Hff name0 [[= ->]|Hl]%elem_of_cons; [done | auto]. }
    assert (expired LocalTZA cutoff name) as Hexp by (by exists d).
    eapply cleanup_entry_expired; [done | exact He | |].
    + intros ->. cbv beta iota. eapply wp_mono; [exact Hskip|].
      intros r es' [Hsame Hr]. split; [done|].
      destruct r as [n'|err]; [|done]. destruct Hr as [Hsize Hall].
      split; [done|]. done.
    + cbv beta iota. eapply wp_mono.
      * apply IH; [done|]. intros name0 k0 Hl.
        assert (name0 ≠ name) as Hneq.
        { intros ->. apply Hfresh. apply list_elem_of_fmap.
          by exists (name, k0). }
        rewrite lookup_delete_ne by done. apply Hin. by right.
      * intros r es' [Hsame Hr].
        assert (es' !! name = None) as Hgone.
        { destruct (Hsame name) as [E|[E _]]; [|done].
          by rewrite E, lookup_delete_eq. }
        split.
        { intros name0. destruct (decide (name0 = name)) as [->|Hneq].
          - right. split; [done|]. split; [left | done].
          - destruct (Hsame name0) as [E|(? & ? & ?)].
            + left. by rewrite E, lookup_delete_ne.
            + right. split; [done|]. split; [by right | done]. }
        destruct r as [n'|err]; [|done]. destruct Hr as [Hsize Hall].
        split.
        -- rewrite <- Hsize.
           pose proof (map_size_delete_Some name es (mk_is_Some _ _ He)).
           pose proof (map_size_ne_0_lookup_2 es name (mk_is_Some _ _ He)).
           lia.
        -- intros Hff name0 [[= ->]|Hl]%elem_of_cons; [done | auto].
Qed.

Lemma dir_entries_present (es : gmap string entry) (name : string) (k : kind) :
  (name, k) ∈ prod_map id entry_kind <$> map_to_list es →
  ∃ e, es !! name = Some e ∧ entry_kind e = k.
Proof.
  intros ([n e] & [= -> ->] & Hin)%list_elem_of_fmap.
  apply elem_of_map_to_list in Hin. eauto.
Qed.

Lemma dir_entries_NoDup (es : gmap string entry) :
  NoDup (prod_map id entry_kind <$> map_to_list es).*1.
Proof.
  replace ((prod_map id entry_kind <$> map_to_list es).*1)
    with ((map_to_list es).*1); [apply NoDup_fst_map_to_list|].
  rewrite <- list_fmap_compose. apply list_fmap_ext. by intros ? [].
Qed.


Lemma cleanupOldBackups_wp faulty (now maxAgeDays : Z)
    (es : gmap string entry) :
  let cutoffDate := now - maxAgeDays * JSDate.msPerDay in
  wp faulty (cleanupOldBackups LocalTZA now maxAgeDays)
    (λ r es',
       (∀ name, es' !! name = es !! name
                ∨ (es' !! name = None
                   ∧ (∃ data, es !! name = Some (File data))
                   ∧ expired LocalTZA cutoffDate name))
       ∧ match r with
         | Return n =>
             size es = (size es' + n)%nat
             ∧ (faulty = false →
                ∀ name data, es !! name = Some (File data) →
                             expired LocalTZA cutoffDate name →
                             es' !! name = None)
         | Throw _ => faulty = true
         end) es.
Proof.
  intros cutoffDate. unfold cleanupOldBackups.
  replace (now - maxAgeDays * 24 * 60 * 60 * 1000) with cutoffDate
    by (unfold cutoffDate, JSDate.msPerDay; lia).
  apply wp_bind, wp_dir_entries.
  eapply wp_mono.
  - apply cleanup_loop; [apply dir_entries_NoDup | apply dir_entries_present].
  - intros r es' [Hsame Hr]. split.
    + intros name. destruct (Hsame name) as [?|(? & Hin & ?)]; [by left|].
      right. by rewrite <- elem_of_dir_entries.
    + destruct r as [n|err]; [|done]. destruct Hr as [Hsize Hall].
      split; [lia|].
      intros Hff name data Hdata. apply Hall; [done|].
      apply elem_of_dir_entries. eauto.
Qed.


End Backups.

(** Storage failures during a clean-up, in New York on 2025-11-03 at
    23:45 with [maxAgeDays = 3], where the four backups of the folder
    are older than the cutoff. The first storage call is the first step
    of the iteration over the folder. When the second one fails, which
    is the removal of the backup visited first, the sweep goes on: the
    call returns 3 and only that backup is left. When the third one
    fails, which is the second step of the iteration, the call throws,
    and the backup deleted before stays deleted. *)
Example cleanupOldBackups_storage_failures :
  let now := Examples.in_New_York 2025 11 3 (23 * Examples.hour
                                             + 45 * 60 * 1000) in
  let removal_fails :=
    FolderSync.cleanupOldBackups Examples.New_York now 3
      (Examples.failing_at 1 Examples.folder_2025) in
  let step_fails :=
    FolderSync.cleanupOldBackups Examples.New_York now 3
      (Examples.failing_at 2 Examples.folder_2025) in
  (FS.dir_entries Examples.folder_2025).1
  = FS.Return [("schedule.amy@co.db.bak.2025-11-01", FS.file);
               ("schedule.amy@co.db.bak.2025-10-31", FS.file);
               ("schedule.amy@co.db.bak.2025-03-07", FS.file);
               ("schedule.amy@co.db.bak.2025-03-08", FS.file);
               ("schedule.base", FS.file)]
  ∧ removal_fails.1 = FS.Return 3%nat
  ∧ map_to_list (FS.entries removal_fails.2)
    = [("schedule.amy@co.db.bak.2025-11-01", FS.File "NOVEMBER 1");
       ("schedule.base", FS.File "BASE")]
  ∧ step_fails.1 = FS.Throw FS.NotAllowedError
  ∧ FS.entries step_fails.2 !! "schedule.amy@co.db.bak.2025-11-01" = None
  ∧ FS.entries step_fails.2 !! "schedule.amy@co.db.bak.2025-10-31"
    = Some (FS.File "OCTOBER 31").
Proof. vm_compute. repeat split; reflexivity. Qed.


(** ** The solo-user checkpoint *)

Section Checkpoint.
Import FolderSync.
Variable Date_parse : string → option Z.

(** What [shouldCheckpoint] computes: true without a timestamp (null or
    the empty string) and for a date at least [maxDays] days old, the
    bound included; false for a string that is not a date. *)
Lemma shouldCheckpoint_true_iff (now : Z) (lastCheckpointStr : option string)
    (maxDays : Z) :
  shouldCheckpoint Date_parse now lastCheckpointStr maxDays = true
  ↔ lastCheckpointStr = None
    ∨ lastCheckpointStr = Some EmptyString
    ∨ ∃ s t, lastCheckpointStr = Some s ∧ Date_parse s = Some t
             ∧ maxDays * JSDate.msPerDay ≤ now - t.
Proof.
  unfold shouldCheckpoint. destruct lastCheckpointStr as [[|c s]|].
  - split; [auto | done].
  - destruct (Date_parse (String c s)) as [t|] eqn:Et; simpl.
    + rewrite Qle_bool_iff. unfold Qle. simpl. unfold JSDate.msPerDay.
      split.
      * intros Hle. right. right. exists (String c s), t.
        split; [done|]. split; [done | lia].
      * intros [?|[?|(s' & t' & [= <-] & Et' & Hle)]]; [done..|].
        assert (t' = t) as -> by congruence. lia.
    + split; [done|].
      intros [?|[?|(s' & t' & [= <-] & Et' & _)]]; [done..|]. congruence.
  - split; [auto | done].
Qed.

End Checkpoint.

(** C7, at the inputs where the code departs from it. A checkpoint of
    2025-01-01, exactly three days before the clock, has not exceeded
    [maxDays = 3], yet [shouldCheckpoint] is true; a timestamp that is
    not a date gives false, where the [catch] of the source would answer
    true. *)
Theorem shouldCheckpoint_at_bound_and_invalid :
  JSDate.iso_parse "2025-01-01T00:00:00.000Z"
  = Some (Examples.jan_4 - 3 * JSDate.msPerDay)
  ∧ FolderSync.shouldCheckpoint JSDate.iso_parse Examples.jan_4
      (Some "2025-01-01T00:00:00.000Z") 3 = true
  ∧ JSDate.iso_parse "not-a-date" = None
  ∧ FolderSync.shouldCheckpoint JSDate.iso_parse Examples.jan_4
      (Some "not-a-date") 3 = false.
Proof. vm_compute. repeat split; reflexivity. Qed.

(** ** The differing fields of a conflict *)

Section Differences.
Import MergeConflictDialog.

Lemma Set_of_go (keys : list string) :
  ∀ acc : list string,
    NoDup acc →
    let r := foldl (λ acc k, if decide (k ∈ acc) then acc else acc ++ [k])
               acc keys in
    NoDup r ∧ ∀ k, k ∈ r ↔ k ∈ acc ∨ k ∈ keys.
Proof.
  induction keys as [|k0 keys IH]; intros acc Hnd; simpl.
  - split; [done|]. intros k. rewrite elem_of_nil. tauto.
  - destruct (decide (k0 ∈ acc)) as [Hin|Hnin].
    + destruct (IH acc Hnd) as [Hnd' Hel]. split; [done|].
      intros k. rewrite Hel, elem_of_cons.
      split; [tauto|]. intros [?|[->|?]]; auto.
    + assert (NoDup (acc ++ [k0])) as Hnd1.
      { apply NoDup_app. split; [done|]. split; [|apply NoDup_singleton].
        intros x Hx ->%list_elem_of_singleton. done. }
      destruct (IH _ Hnd1) as [Hnd' Hel]. split; [done|].
      intros k. rewrite Hel, elem_of_app, list_elem_of_singleton, elem_of_cons.
      tauto.
Qed.

Lemma Set_of_spec (keys : list string) :
  NoDup (Set_of keys) ∧ ∀ k, k ∈ Set_of keys ↔ k ∈ keys.
Proof.
  destruct (Set_of_go keys [] (NoDup_nil_2)) as [Hnd Hel].
  split; [done|]. intros k. unfold Set_of. rewrite Hel, elem_of_nil. tauto.
Qed.

Lemma differing_go (a b : Row) (keys : list string) :
  ∀ acc : list string,
    foldl (λ diffs key,
             if is_bookkeeping key then diffs
             else if negb (String.eqb (formatValue (get a key))
                                      (formatValue (get b key)))
                  then diffs ++ [key] else diffs) acc keys
    = acc ++ filter (λ key, is_bookkeeping key = false
                            ∧ formatValue (get a key) ≠ formatValue (get b key))
               keys.
Proof.
  induction keys as [|k keys IH]; intros acc; simpl.
  - by rewrite app_nil_r.
  - rewrite IH. rewrite filter_cons.
    destruct (is_bookkeeping k) eqn:Ek.
    + rewrite decide_False; [done | by intros [? _]].
    + destruct (String.eqb_spec (formatValue (get a k)) (formatValue (get b k)))
        as [Heq|Hne]; simpl.
      * rewrite decide_False; [done | by intros [_ ?]].
      * rewrite decide_True by done. by rewrite <- app_assoc.
Qed.

Lemma is_bookkeeping_false (key : string) :
  is_bookkeeping key = false
  ↔ key ≠ "sync_id" ∧ key ≠ "modified_at" ∧ key ≠ "modified_by".
Proof.
  unfold is_bookkeeping. rewrite !orb_false_iff, !String.eqb_neq. tauto.
Qed.

(** C8, as the code has it: the differing fields of a conflict are
    computed over every field name of [rowA] and [rowB], the bookkeeping
    fields [sync_id], [modified_at] and [modified_by] apart, and list,
    each once, exactly the names whose two values differ in the text
    that [formatValue] displays for them; with a row missing, the list
    is empty. *)
Theorem getDifferences_spec (a b : Row) :
  getDifferences None (Some b) = []
  ∧ getDifferences (Some a) None = []
  ∧ getDifferences None None = []
  ∧ NoDup (getDifferences (Some a) (Some b))
  ∧ ∀ key,
      key ∈ getDifferences (Some a) (Some b)
      ↔ (key ∈ Object_keys a ∨ key ∈ Object_keys b)
        ∧ key ≠ "sync_id" ∧ key ≠ "modified_at" ∧ key ≠ "modified_by"
        ∧ formatValue (get a key) ≠ formatValue (get b key).
Proof.
  split; [done|]. split; [done|]. split; [done|].
  unfold getDifferences. rewrite differing_go. simpl.
  destruct (Set_of_spec (Object_keys a ++ Object_keys b)) as [Hnd Hel].
  split.
  - by apply NoDup_filter.
  - intros key.
    rewrite list_elem_of_filter, Hel, elem_of_app, is_bookkeeping_false.
    tauto.
Qed.

(** C8, as stated, fails: a null name and the name "(empty)" are two
    different values, and the field is not listed. *)
Lemma getDifferences_compares_displayed_text :
  ¬ (∀ (a b : Row) key,
       key ∈ getDifferences (Some a) (Some b)
       ↔ (key ∈ Object_keys a ∨ key ∈ Object_keys b)
         ∧ key ≠ "sync_id" ∧ key ≠ "modified_at" ∧ key ≠ "modified_by"
         ∧ get a key ≠ get b key).
Proof.
  intros H.
  specialize (H [("sync_id", JNumber 5); ("name", JNull)]
                [("sync_id", JNumber 5); ("name", JString "(empty)")]
                "name").
  assert ("name" ∈ @nil string) as Hin; [|by apply elem_of_nil in Hin].
  apply H. split; [left; right; left|].
  repeat split; discriminate.
Qed.

End Differences.

(** ** The comparison of two databases *)

Section Compare.
Import MergeDialog.
Variable hashRow : row → string.

Lemma only_in_go (ys : gset string) (l : list string) :
  ∀ n : Z,
    foldl (λ n hash, if decide (hash ∈ ys) then n else n + 1) n l
    = n + Z.of_nat (length (filter (λ hash, hash ∉ ys) l)).
Proof.
  induction l as [|h l IH]; intros n; simpl; [lia|].
  rewrite IH, filter_cons.
  destruct (decide (h ∈ ys)).
  - by rewrite decide_False by tauto.
  - rewrite decide_True by done. simpl. lia.
Qed.

Lemma only_in_size (xs ys : gset string) :
  only_in xs ys = Z.of_nat (size (xs ∖ ys)).
Proof.
  unfold only_in. rewrite only_in_go, Z.add_0_l. f_equal.
  unfold size, set_size. simpl. apply Permutation_length.
  apply NoDup_Permutation.
  - apply NoDup_filter, NoDup_elements.
  - apply NoDup_elements.
  - intros h. rewrite list_elem_of_filter, !elem_of_elements, elem_of_difference.
    tauto.
Qed.

Lemma only_in_pos (xs ys : gset string) :
  (0 <? only_in xs ys) || (0 <? only_in ys xs) = true ↔ xs ≠ ys.
Proof.
  rewrite !only_in_size, orb_true_iff, !Z.ltb_lt.
  split.
  - intros Hpos Heq. subst ys. rewrite difference_diag_L, size_empty in Hpos.
    lia.
  - intros Hne.
    destruct (decide (size (xs ∖ ys) = 0%nat)) as [E1|]; [|lia].
    destruct (decide (size (ys ∖ xs) = 0%nat)) as [E2|]; [|lia].
    apply size_empty_inv in E1. apply size_empty_inv in E2.
    destruct Hne. apply set_eq. intros h.
    destruct (decide (h ∈ xs)), (decide (h ∈ ys)); try tauto; exfalso;
      apply (not_elem_of_empty (C := gset string) h).
    + rewrite <- E1. by apply elem_of_difference.
    + rewrite <- E2. by apply elem_of_difference.
Qed.

Lemma hashes_NoDup_perm (myRows theirRows : list row) :
  NoDup (hashRow <$> myRows) → NoDup (hashRow <$> theirRows) →
  (hashes hashRow myRows = hashes hashRow theirRows
   ↔ hashRow <$> myRows ≡ₚ hashRow <$> theirRows).
Proof.
  intros Hm Ht. unfold hashes. split.
  - intros E. apply NoDup_Permutation; [done..|].
    intros h. rewrite <- !(elem_of_list_to_set (C := gset string)).
    by rewrite E.
  - intros E. apply set_eq. intros h. rewrite !elem_of_list_to_set.
    by rewrite E.
Qed.

(** C2, as the code has it. For a table present in both databases the
    comparison reports the two row counts and: with unequal counts, a
    count-level difference whose text gives the difference of the
    counts and the side that has more rows; with equal counts, no
    difference when the two sets of distinct row hashes are equal, and
    otherwise a content-level difference with the number of distinct
    hashes only in mine and only in theirs. Where no two rows of a side
    have the same hash, equal sets of hashes are equal multisets of
    hashes. *)
Theorem analyzeTable_differences (myDb theirDb : Database) (t : TableInfo)
    (myRows theirRows : list row) :
  myDb !! name t = Some myRows →
  theirDb !! name t = Some theirRows →
  let A := hashes hashRow myRows in
  let B := hashes hashRow theirRows in
  let mine := Z.of_nat (length myRows) in
  let theirs := Z.of_nat (length theirRows) in
  ∃ d,
    analyzeTable hashRow myDb theirDb t = Some d
    ∧ table d = name t ∧ myCount d = mine ∧ theirCount d = theirs
    ∧ (mine < theirs →
       hasDifferences d = true ∧ differenceType d = count
       ∧ differenceDetails d
         = "Their version has " +:+ pretty (theirs - mine) +:+ " more row(s)")
    ∧ (theirs < mine →
       hasDifferences d = true ∧ differenceType d = count
       ∧ differenceDetails d
         = "Your version has " +:+ pretty (mine - theirs) +:+ " more row(s)")
    ∧ (mine = theirs → A = B →
       hasDifferences d = false ∧ differenceType d = none
       ∧ differenceDetails d = EmptyString)
    ∧ (mine = theirs → A ≠ B →
       hasDifferences d = true ∧ differenceType d = content
       ∧ differenceDetails d
         = pretty (Z.of_nat (size (A ∖ B))) +:+ " row(s) only in yours, "
           +:+ pretty (Z.of_nat (size (B ∖ A))) +:+ " row(s) only in theirs")
    ∧ (NoDup (hashRow <$> myRows) → NoDup (hashRow <$> theirRows) →
       (A = B ↔ hashRow <$> myRows ≡ₚ hashRow <$> theirRows)).
Proof.
  intros Hmy Htheir A B mine theirs.
  assert (NoDup (hashRow <$> myRows) → NoDup (hashRow <$> theirRows) →
          (A = B ↔ hashRow <$> myRows ≡ₚ hashRow <$> theirRows)) as Hperm
    by apply hashes_NoDup_perm.
  unfold analyzeTable, exec_count, exec_select. rewrite Hmy, Htheir. simpl.
  fold mine theirs.
  destruct (Z.eqb_spec mine theirs) as [Heq|Hne]; simpl.
  - destruct (Z.ltb_spec 0 mine) as [Hpos|Hzero].
    + destruct myRows as [|r1 myRows]; [simpl in *; lia|].
      destruct theirRows as [|r2 theirRows]; [simpl in *; lia|].
      fold A B. destruct ((0 <? only_in A B) || (0 <? only_in B A)) eqn:Ediff.
      * apply only_in_pos in Ediff. eexists. split; [done|].
        rewrite !only_in_size. split_and!; try done; lia.
      * assert (A = B) as HAB.
        { destruct (decide (A = B)) as [|Hn]; [done|].
          apply only_in_pos in Hn. congruence. }
        eexists. split; [done|]. split_and!; try done; lia.
    + assert (myRows = []) as -> by (destruct myRows; [done | simpl in *; lia]).
      assert (theirRows = []) as ->
        by (destruct theirRows; [done | simpl in *; lia]).
      eexists. split; [done|]. split_and!; try done; lia.
  - eexists. split; [done|]. simpl.
    destruct (Z.ltb_spec 0 (theirs - mine)).
    + split_and!; try done; lia.
    + replace (Z.abs (theirs - mine)) with (mine - theirs) by lia.
      split_and!; try done; lia.
Qed.

End Compare.

Lemma analyzeTable_differences_witness :
  let hashRow := MergeDialog.JSON_stringify in
  let myRows := [Examples.row_ann; Examples.row_ann; Examples.row_bob] in
  let theirRows := [Examples.row_ann; Examples.row_bob; Examples.row_bob] in
  let A := MergeDialog.hashes hashRow myRows in
  let B := MergeDialog.hashes hashRow theirRows in
  let mine := Z.of_nat (length myRows) in
  let theirs := Z.of_nat (length theirRows) in
  ∃ d,
    MergeDialog.analyzeTable hashRow Examples.db_mine Examples.db_theirs
      Examples.person = Some d
    ∧ MergeDialog.table d = MergeDialog.name Examples.person
    ∧ MergeDialog.myCount d = mine ∧ MergeDialog.theirCount d = theirs
    ∧ (mine < theirs →
       MergeDialog.hasDifferences d = true
       ∧ MergeDialog.differenceType d = MergeDialog.count
       ∧ MergeDialog.differenceDetails d
         = "Their version has " +:+ pretty (theirs - mine) +:+ " more row(s)")
    ∧ (theirs < mine →
       MergeDialog.hasDifferences d = true
       ∧ MergeDialog.differenceType d = MergeDialog.count
       ∧ MergeDialog.differenceDetails d
         = "Your version has " +:+ pretty (mine - theirs) +:+ " more row(s)")
    ∧ (mine = theirs → A = B →
       MergeDialog.hasDifferences d = false
       ∧ MergeDialog.differenceType d = MergeDialog.none
       ∧ MergeDialog.differenceDetails d = EmptyString)
    ∧ (mine = theirs → A ≠ B →
       MergeDialog.hasDifferences d = true
       ∧ MergeDialog.differenceType d = MergeDialog.content
       ∧ MergeDialog.differenceDetails d
         = pretty (Z.of_nat (size (A ∖ B))) +:+ " row(s) only in yours, "
           +:+ pretty (Z.of_nat (size (B ∖ A))) +:+ " row(s) only in theirs")
    ∧ (NoDup (hashRow <$> myRows) → NoDup (hashRow <$> theirRows) →
       (A = B ↔ hashRow <$> myRows ≡ₚ hashRow <$> theirRows)).
Proof.
  apply (analyzeTable_differences MergeDialog.JSON_stringify
           Examples.db_mine Examples.db_theirs Examples.person);
    reflexivity.
Defined.

(** C2, as stated, fails: the two versions of the person table have
    three rows each and different multisets of row hashes (Ann twice in
    mine, Bob twice in theirs), and no difference is reported. *)
Lemma analyzeTable_misses_repeated_rows :
  let hashRow := MergeDialog.JSON_stringify in
  let myRows := [Examples.row_ann; Examples.row_ann; Examples.row_bob] in
  let theirRows := [Examples.row_ann; Examples.row_bob; Examples.row_bob] in
  Examples.db_mine !! "person" = Some myRows
  ∧ Examples.db_theirs !! "person" = Some theirRows
  ∧ length myRows = length theirRows
  ∧ ¬ (hashRow <$> myRows ≡ₚ hashRow <$> theirRows)
  ∧ MergeDialog.hasDifferences
      <$> MergeDialog.analyzeTable hashRow Examples.db_mine Examples.db_theirs
            Examples.person
    = Some false.
Proof.
  intros hashRow myRows theirRows.
  split; [reflexivity|]. split; [reflexivity|]. split; [reflexivity|]. split.
  - intros Hperm.
    pose proof (proj1 (Permutation_count_occ string_dec _ _) Hperm
                  (hashRow Examples.row_ann)) as Hcount.
    vm_compute in Hcount. discriminate.
  - vm_compute. reflexivity.
Qed.

(** ** More on the scan: how the entries are classified *)

Section ScanClasses.
Import FS FolderSync.

Lemma scan_baseFile (cur : string) (es : list (string * kind)) :
  ∀ acc,
    ((BASE_FILE_NAME, file) ∈ es →
     baseFile (foldl (scan_entry cur) acc es) = Some BASE_FILE_NAME)
    ∧ ((BASE_FILE_NAME, file) ∉ es →
       baseFile (foldl (scan_entry cur) acc es) = baseFile acc).
Proof.
  induction es as [|[name k] es IH]; intros acc.
  - split; [by intros ?%elem_of_nil | done].
  - change (foldl (scan_entry cur) acc ((name, k) :: es))
      with (foldl (scan_entry cur) (scan_entry cur acc (name, k)) es).
    destruct (IH (scan_entry cur acc (name, k))) as [IHin IHout].
    destruct (decide ((BASE_FILE_NAME, file) ∈ es)) as [Hin|Hout].
    { split; [auto|]. intros Hn. destruct Hn. by right. }
    rewrite IHout by done. split.
    + intros [[= <- <-]|?]%elem_of_cons; [|done]. done.
    + intros Hn. simpl. destruct k; [|done].
      destruct (String.eqb_spec name BASE_FILE_NAME) as [->|Hne].
      * destruct Hn. left.
      * destruct (extractEmailFromFileName name) as [[|c a]|]; simpl;
          try done; by destruct (Str.includes _ _).
Qed.

Lemma scan_working_records (cur : string) (es : list (string * kind)) :
  ∀ acc wf,
    wf ∈ workingFiles (foldl (scan_entry cur) acc es)
    ↔ wf ∈ workingFiles acc
      ∨ ((fileName wf, file) ∈ es ∧ handle wf = fileName wf
         ∧ extractEmailFromFileName (fileName wf) = Some (email wf)).
Proof.
  induction es as [|[name k] es IH]; intros acc wf; simpl.
  - rewrite elem_of_nil. tauto.
  - rewrite IH. clear IH. rewrite elem_of_cons.
    destruct k; simpl.
    2:{ split; [tauto|]. intros [?|([E|?] & ?)]; [tauto | | tauto].
        by injection E. }
    destruct (String.eqb_spec name BASE_FILE_NAME) as [->|Hne]; simpl.
    { split; [tauto|]. intros [?|([E|?] & ? & He)]; [tauto | | tauto].
      injection E as E. by rewrite E in He. }
    destruct (extractEmailFromFileName name) as [[|c a]|] eqn:Eem; simpl.
    + by apply extractEmail_nonempty in Eem.
    + rewrite elem_of_app, list_elem_of_singleton. split.
      * intros [[?| ->]|?]; [tauto | | tauto]. simpl. right. rewrite Eem. auto.
      * intros [?|([E|?] & Hh & He)]; [tauto | | tauto].
        injection E as E.
        left. right. destruct wf as [h e f]. simpl in *. subst.
        rewrite Eem in He. by injection He as <-.
    + assert (workingFiles
                (if Str.includes BACKUP_EXTENSION name
                 then {| baseFile := baseFile acc;
                         workingFiles := workingFiles acc;
                         backupFiles := backupFiles acc ++ [name];
                         needsMerge := needsMerge acc;
                         myWorkingFile := myWorkingFile acc |}
                 else acc) = workingFiles acc) as ->
        by (by destruct (Str.includes _ _)).
      split; [tauto|]. intros [?|([E|?] & ? & He)]; [tauto | | tauto].
      injection E as E. by rewrite E, Eem in He.
Qed.

Lemma scan_backupFiles (cur : string) (es : list (string * kind)) :
  ∀ acc name,
    name ∈ backupFiles (foldl (scan_entry cur) acc es)
    ↔ name ∈ backupFiles acc
      ∨ ((name, file) ∈ es ∧ name ≠ BASE_FILE_NAME
         ∧ extractEmailFromFileName name = None
         ∧ Str.includes BACKUP_EXTENSION name = true).
Proof.
  induction es as [|[n k] es IH]; intros acc name; simpl.
  - rewrite elem_of_nil. tauto.
  - rewrite IH. clear IH. rewrite elem_of_cons.
    assert (∀ P : Prop,
              (P ↔ k = file ∧ name = n) →
              (((P ∨ (name, file) ∈ es) ∧ name ≠ BASE_FILE_NAME
                ∧ extractEmailFromFileName name = None
                ∧ Str.includes BACKUP_EXTENSION name = true)
               ↔ (((name, file) = (n, k) ∨ (name, file) ∈ es)
                  ∧ name ≠ BASE_FILE_NAME
                  ∧ extractEmailFromFileName name = None
                  ∧ Str.includes BACKUP_EXTENSION name = true))) as Hhead.
    { intros P HP. split.
      - intros [[HPk|?] ?]; [|tauto]. apply HP in HPk as [-> ->]. tauto.
      - intros [[E|?] ?]; [|tauto]. injection E as -> <-.
        split; [|done]. left. by apply HP. }
    rewrite <- (Hhead (k = file ∧ name = n)) by done. clear Hhead.
    destruct k; simpl.
    2:{ split; [tauto|]. intros [?|[[[Hk _]|?] ?]]; [tauto | done | tauto]. }
    destruct (String.eqb_spec n BASE_FILE_NAME) as [->|Hne]; simpl.
    { split; [tauto|].
      intros [?|[[[_ Hn]|?] (Hnb & ?)]]; [tauto | done | tauto]. }
    destruct (extractEmailFromFileName n) as [[|c a]|] eqn:Eem; simpl.
    + by apply extractEmail_nonempty in Eem.
    + split; [tauto|].
      intros [?|[[[_ Hn]|?] (? & He & ?)]]; [tauto | | tauto].
      by rewrite Hn, Eem in He.
    + destruct (Str.includes BACKUP_EXTENSION n) eqn:Einc; simpl.
      * rewrite elem_of_app, list_elem_of_singleton. split.
        -- intros [[?|Hn]|?]; [tauto | | tauto].
           subst name. tauto.
        -- intros [?|[[[_ Hn]|?] ?]]; tauto.
      * split; [tauto|].
        intros [?|[[[_ Hn]|?] (? & ? & Hi)]]; [tauto | | tauto].
        by rewrite Hn, Einc in Hi.
Qed.

Lemma scan_myWorkingFile (cur : string) (es : list (string * kind)) :
  ∀ acc h,
    myWorkingFile (foldl (scan_entry cur) acc es) = Some h →
    myWorkingFile acc = Some h
    ∨ ((h, file) ∈ es
       ∧ ∃ author, extractEmailFromFileName h = Some author
                   ∧ Str.toLowerCase author = Str.toLowerCase cur).
Proof.
  induction es as [|[n k] es IH]; intros acc h; simpl; [auto|].
  intros [Hacc|(Hin & Hex)]%IH; [|right; split; [by right | done]].
  revert Hacc. destruct k; simpl; [|auto].
  destruct (String.eqb_spec n BASE_FILE_NAME) as [->|Hne]; simpl; [auto|].
  destruct (extractEmailFromFileName n) as [[|c a]|] eqn:Eem; simpl.
  - destruct (Str.includes _ _); auto.
  - destruct (same_email (String c a) cur) eqn:Esame; [|auto].
    intros [= <-]. right. split; [left|]. exists (String c a).
    split; [done|]. by apply String.eqb_eq in Esame.
  - destruct (Str.includes _ _); auto.
Qed.

Lemma scan_myWorkingFile_found (cur : string) (es : list (string * kind)) :
  ∀ acc,
    is_Some (myWorkingFile acc)
    ∨ (∃ name author, (name, file) ∈ es
                      ∧ extractEmailFromFileName name = Some author
                      ∧ Str.toLowerCase author = Str.toLowerCase cur) →
    is_Some (myWorkingFile (foldl (scan_entry cur) acc es)).
Proof.
  induction es as [|[n k] es IH]; intros acc; simpl.
  - intros [?|(? & ? & ?%elem_of_nil & _)]; done.
  - intros H. apply IH.
    destruct H as [Hacc|(name & author & Hin & Hex & Hlow)].
    + left. destruct k; simpl; [|done].
      destruct (String.eqb n BASE_FILE_NAME); simpl; [done|].
      destruct (extractEmailFromFileName n) as [[|c a]|]; simpl.
      * by destruct (Str.includes _ _).
      * by destruct (same_email _ _).
      * by destruct (Str.includes _ _).
    + apply elem_of_cons in Hin as [[= <- <-]|Hin]; [|right; eauto].
      left. simpl.
      destruct (String.eqb_spec name BASE_FILE_NAME) as [->|Hne];
        [by rewrite extractEmailFromFileName_base in Hex|].
      rewrite Hex. destruct author as [|c a];
        [by apply extractEmail_nonempty in Hex|].
      simpl. unfold same_email. rewrite Hlow, String.eqb_refl. done.
Qed.

Lemma scan_working_NoDup (cur : string) (es : list (string * kind)) :
  ∀ acc,
    NoDup es.*1 →
    NoDup (fileName <$> workingFiles acc) →
    (∀ wf, wf ∈ workingFiles acc → fileName wf ∉ es.*1) →
    NoDup (fileName <$> workingFiles (foldl (scan_entry cur) acc es)).
Proof.
  induction es as [|[name k] es IH]; intros acc Hes Hacc Hfresh; [done|].
  rewrite fmap_cons in Hes. apply NoDup_cons in Hes as [Hname Hes].
  simpl in Hname.
  change (foldl (scan_entry cur) acc ((name, k) :: es))
    with (foldl (scan_entry cur) (scan_entry cur acc (name, k)) es).
  assert (∀ wf, wf ∈ workingFiles acc → fileName wf ∉ es.*1) as Hfresh'.
  { intros wf Hwf Hin. apply (Hfresh wf Hwf). rewrite fmap_cons. by right. }
  assert (∀ wf, wf ∈ workingFiles acc → fileName wf ≠ name) as Hother.
  { intros wf Hwf E. apply (Hfresh wf Hwf). rewrite E, fmap_cons. left. }
  apply IH; [done|..]; simpl; destruct k; simpl; try done;
    destruct (String.eqb name BASE_FILE_NAME); simpl; try done;
    destruct (extractEmailFromFileName name) as [[|c a]|]; simpl;
    try (by destruct (Str.includes _ _)).
  - rewrite fmap_app. apply NoDup_app. split; [done|]. split.
    + intros f Hf [->|Hnil%elem_of_nil]%elem_of_cons; [|done].
      apply list_elem_of_fmap in Hf as (wf & Hf & Hwf). by apply (Hother wf).
    + apply NoDup_singleton.
  - intros wf [Hwf|Hwf%list_elem_of_singleton]%elem_of_app; [auto|].
    by subst wf.
Qed.

Lemma scanFolder_run (cur : string) (w : world) :
  fault_free w →
  let found :=
    foldl (scan_entry cur)
      {| baseFile := None; workingFiles := []; backupFiles := [];
         needsMerge := false; myWorkingFile := None |}
      (prod_map id entry_kind <$> map_to_list (entries w)) in
  ∃ w',
    scanFolder cur w
    = (Return
         {| baseFile := baseFile found;
            workingFiles := workingFiles found;
            backupFiles := backupFiles found;
            needsMerge :=
              bool_decide
                (0 < length (filter (λ wf, same_email (email wf) cur = false)
                               (workingFiles found)))%nat;
            myWorkingFile := myWorkingFile found |}, w')
    ∧ entries w' = entries w.
Proof.
  intros Hff found.
  set (res := {| baseFile := baseFile found;
                 workingFiles := workingFiles found;
                 backupFiles := backupFiles found;
                 needsMerge := _;
                 myWorkingFile := myWorkingFile found |}).
  destruct (wp_run false (scanFolder cur)
              (λ r es', r = Return res ∧ es' = entries w) w)
    as (r & w' & E & -> & Hes); [|by apply schedule_fault_free|by exists w'].
  unfold scanFolder. apply wp_bind, wp_dir_entries.
  apply wp_bind, wp_for_await_pure; [done|]. by apply wp_ret.
Qed.

(** X1. Without storage failure [scanFolder] sorts the files of the
    folder into three classes that do not overlap: the base is reported
    exactly when a file has the name of the base; the working files are
    exactly the files whose name matches the working-file pattern, each
    listed once with its own name as handle, its name and the author
    taken from the name; the backups are exactly the other files, not
    the base, whose name contains the backup marker. Directories are in
    none of the classes. *)
Theorem scanFolder_classifies (w : world) (currentAuthor : string) :
  fault_free w →
  ∃ r w',
    scanFolder currentAuthor w = (Return r, w')
    ∧ ((∃ data, entries w !! BASE_FILE_NAME = Some (File data)) →
       baseFile r = Some BASE_FILE_NAME)
    ∧ ((¬ ∃ data, entries w !! BASE_FILE_NAME = Some (File data)) →
       baseFile r = None)
    ∧ (∀ wf, wf ∈ workingFiles r
             ↔ (∃ data, entries w !! fileName wf = Some (File data))
               ∧ handle wf = fileName wf
               ∧ extractEmailFromFileName (fileName wf) = Some (email wf))
    ∧ NoDup (fileName <$> workingFiles r)
    ∧ (∀ name, name ∈ backupFiles r
               ↔ (∃ data, entries w !! name = Some (File data))
                 ∧ name ≠ BASE_FILE_NAME
                 ∧ extractEmailFromFileName name = None
                 ∧ Str.includes BACKUP_EXTENSION name = true).
Proof.
  intros Hff. destruct (scanFolder_run currentAuthor w Hff) as (w' & E & _).
  eexists _, w'. split; [exact E|].
  cbn [baseFile workingFiles backupFiles needsMerge myWorkingFile].
  set (es := prod_map id entry_kind <$> map_to_list (entries w)).
  set (acc0 := {| baseFile := None; workingFiles := []; backupFiles := [];
                  needsMerge := false; myWorkingFile := None |}).
  destruct (scan_baseFile currentAuthor es acc0) as [Hbase Hnobase].
  split_and!.
  - intros Hfile. apply Hbase. by apply elem_of_dir_entries.
  - intros Hfile. rewrite Hnobase; [done|].
    unfold es. by rewrite elem_of_dir_entries.
  - intros wf. rewrite scan_working_records. unfold es.
    rewrite elem_of_dir_entries. simpl. rewrite elem_of_nil. tauto.
  - apply scan_working_NoDup; [apply dir_entries_NoDup | constructor|].
    by intros wf ?%elem_of_nil.
  - intros name. rewrite scan_backupFiles. unfold es.
    rewrite elem_of_dir_entries. simpl. rewrite elem_of_nil. tauto.
Qed.

(** X2. Without storage failure, the [myWorkingFile] that [scanFolder]
    reports is a working file of the folder whose author is the current
    author up to letter case, and one is reported whenever the folder
    has such a file. No merge is needed and no file of the current
    author is found exactly when the folder has no working file at
    all. *)
Theorem scanFolder_myWorkingFile (w : world) (currentAuthor : string) :
  fault_free w →
  ∃ r w',
    scanFolder currentAuthor w = (Return r, w')
    ∧ (∀ h, myWorkingFile r = Some h →
            ∃ data author,
              entries w !! h = Some (File data)
              ∧ extractEmailFromFileName h = Some author
              ∧ Str.toLowerCase author = Str.toLowerCase currentAuthor)
    ∧ (is_Some (myWorkingFile r)
       ↔ ∃ name data author,
           entries w !! name = Some (File data)
           ∧ extractEmailFromFileName name = Some author
           ∧ Str.toLowerCase author = Str.toLowerCase currentAuthor)
    ∧ (needsMerge r = false ∧ myWorkingFile r = None ↔ workingFiles r = []).
Proof.
  intros Hff. destruct (scanFolder_run currentAuthor w Hff) as (w' & E & _).
  eexists _, w'. split; [exact E|].
  cbn [baseFile workingFiles backupFiles needsMerge myWorkingFile].
  set (es := prod_map id entry_kind <$> map_to_list (entries w)).
  set (acc0 := {| baseFile := None; workingFiles := []; backupFiles := [];
                  needsMerge := false; myWorkingFile := None |}).
  set (found := foldl (scan_entry currentAuthor) acc0 es).
  assert (∀ h, myWorkingFile found = Some h →
               ∃ data author,
                 entries w !! h = Some (File data)
                 ∧ extractEmailFromFileName h = Some author
                 ∧ Str.toLowerCase author = Str.toLowerCase currentAuthor)
    as Hsound.
  { intros h [Hacc|(Hin & author & Hex & Hlow)]%scan_myWorkingFile; [done|].
    apply elem_of_dir_entries in Hin as [data Hdata]. eauto. }
  assert ((∃ name data author,
             entries w !! name = Some (File data)
             ∧ extractEmailFromFileName name = Some author
             ∧ Str.toLowerCase author = Str.toLowerCase currentAuthor) →
          is_Some (myWorkingFile found)) as Hfound.
  { intros (name & data & author & Hdata & Hex & Hlow).
    apply scan_myWorkingFile_found. right. exists name, author.
    split; [|done]. apply elem_of_dir_entries. eauto. }
  split_and!; [done | | ].
  - split; [|done]. intros [h Hh]. destruct (Hsound h Hh) as (d & a & ?).
    eauto.
  - rewrite bool_decide_eq_false. split.
    + intros [Hnone Hmine].
      destruct (workingFiles found) as [|wf wfs] eqn:Ewfs; [done|]. exfalso.
      assert (wf ∈ workingFiles found) as Hwf by (rewrite Ewfs; left).
      apply scan_working_records in Hwf as [?%elem_of_nil|(Hin & _ & Hex)];
        [done|].
      apply elem_of_dir_entries in Hin as [data Hdata].
      destruct (same_email (email wf) currentAuthor) eqn:Esame.
      * apply String.eqb_eq in Esame.
        destruct Hfound as [h Hh]; [eauto 10|]. congruence.
      * apply Hnone. rewrite filter_cons, decide_True by done. simpl. lia.
    + intros Hempty. split; [rewrite Hempty; simpl; lia|].
      destruct (myWorkingFile found) as [h|] eqn:Eh; [|done].
      apply scan_myWorkingFile in Eh as [?|(Hin & author & Hex & _)]; [done|].
      exfalso.
      assert ({| handle := h; email := author; fileName := h |}
              ∈ workingFiles found) as Hwf.
      { apply scan_working_records. right. by simpl. }
      rewrite Hempty in Hwf. by apply elem_of_nil in Hwf.
Qed.

End ScanClasses.

Lemma scanFolder_classifies_witness :
  ∃ r w',
    FolderSync.scanFolder "amy@co" Examples.folder_amy = (FS.Return r, w')
    ∧ ((∃ data, FS.entries Examples.folder_amy !! FolderSync.BASE_FILE_NAME
                = Some (FS.File data)) →
       FolderSync.baseFile r = Some FolderSync.BASE_FILE_NAME)
    ∧ ((¬ ∃ data, FS.entries Examples.folder_amy !! FolderSync.BASE_FILE_NAME
                  = Some (FS.File data)) →
       FolderSync.baseFile r = None)
    ∧ (∀ wf, wf ∈ FolderSync.workingFiles r
             ↔ (∃ data, FS.entries Examples.folder_amy
                        !! FolderSync.fileName wf = Some (FS.File data))
               ∧ FolderSync.handle wf = FolderSync.fileName wf
               ∧ FolderSync.extractEmailFromFileName (FolderSync.fileName wf)
                 = Some (FolderSync.email wf))
    ∧ NoDup (FolderSync.fileName <$> FolderSync.workingFiles r)
    ∧ (∀ name, name ∈ FolderSync.backupFiles r
               ↔ (∃ data, FS.entries Examples.folder_amy !! name
                          = Some (FS.File data))
                 ∧ name ≠ FolderSync.BASE_FILE_NAME
                 ∧ FolderSync.extractEmailFromFileName name = None
                 ∧ Str.includes FolderSync.BACKUP_EXTENSION name = true).
Proof.
  apply (scanFolder_classifies Examples.folder_amy "amy@co"). constructor.
Defined.

Lemma scanFolder_myWorkingFile_witness :
  ∃ r w',
    FolderSync.scanFolder "john@co" Examples.folder_john = (FS.Return r, w')
    ∧ (∀ h, FolderSync.myWorkingFile r = Some h →
            ∃ data author,
              FS.entries Examples.folder_john !! h = Some (FS.File data)
              ∧ FolderSync.extractEmailFromFileName h = Some author
              ∧ Str.toLowerCase author = Str.toLowerCase "john@co")
    ∧ (is_Some (FolderSync.myWorkingFile r)
       ↔ ∃ name data author,
           FS.entries Examples.folder_john !! name = Some (FS.File data)
           ∧ FolderSync.extractEmailFromFileName name = Some author
           ∧ Str.toLowerCase author = Str.toLowerCase "john@co")
    ∧ (FolderSync.needsMerge r = false ∧ FolderSync.myWorkingFile r = None
       ↔ FolderSync.workingFiles r = []).
Proof.
  apply (scanFolder_myWorkingFile Examples.folder_john "john@co"). constructor.
Defined.

(** ** More on the merge lock *)

Section LockEdges.
Import FS FolderSync.
Variable Date_parse : string → option Z.
Variable JSON_parse : string → option MergeLockInfo.
Variable JSON_stringify : MergeLockInfo → string.

Lemma removeMergeLock_any faulty (es : gmap string entry) :
  wp faulty removeMergeLock
    (λ r es', r = Return ()
              ∧ (es' = es ∨ es' = delete MERGE_LOCK_FILE es)
              ∧ (faulty = false → es' = delete MERGE_LOCK_FILE es)) es.
Proof.
  unfold removeMergeLock. apply wp_try_catch, wp_removeEntry.
  - intros ->. apply wp_ret. split_and!; [done | by left | done].
  - destruct (es !! MERGE_LOCK_FILE) eqn:E.
    + split_and!; [done | by right | done].
    + apply wp_ret. rewrite delete_id by done.
      split_and!; [done | by left | done].
Qed.

Lemma checkMergeLock_any faulty (now : Z) (es : gmap string entry) :
  wp faulty (checkMergeLock Date_parse JSON_parse now)
    (λ r es',
       ∃ answer,
         r = Return answer
         ∧ (es' = es ∨ es' = delete MERGE_LOCK_FILE es)
         ∧ ∀ lockInfo,
             answer = Some lockInfo →
             es' = es
             ∧ ∃ content, es !! MERGE_LOCK_FILE = Some (File content)
                          ∧ JSON_parse content = Some lockInfo) es.
Proof.
  unfold checkMergeLock. apply wp_try_catch.
  assert (∀ e : error,
            wp faulty (mret None : IO (option MergeLockInfo))
              (λ r es',
                 ∃ answer,
                   r = Return answer
                   ∧ (es' = es ∨ es' = delete MERGE_LOCK_FILE es)
                   ∧ ∀ lockInfo,
                       answer = Some lockInfo →
                       es' = es
                       ∧ ∃ content,
                           es !! MERGE_LOCK_FILE = Some (File content)
                           ∧ JSON_parse content = Some lockInfo) es)
    as Hcatch.
  { intros _. apply wp_ret. exists None. split; [done|]. split; [auto|]. done. }
  wp_seq. apply wp_getFileHandle; [intros _; apply (Hcatch NotAllowedError)|].
  destruct (es !! MERGE_LOCK_FILE) as [[content|]|] eqn:Elock;
    [|apply (Hcatch TypeMismatchError)|apply (Hcatch NotFoundError)].
  wp_seq. apply wp_getFile; [intros _; apply (Hcatch NotAllowedError)|].
  rewrite Elock.
  wp_seq. apply wp_text; [intros _; apply (Hcatch NotAllowedError)|].
  destruct (JSON_parse content) as [lockInfo|] eqn:Ejson; simpl.
  2:{ wp_seq. apply wp_throw. apply (Hcatch SyntaxError). }
  wp_seq. apply wp_ret.
  destruct (from_option _ false _).
  - wp_seq. eapply wp_mono; [apply removeMergeLock_any|].
    intros r es' (-> & Hes & _). apply wp_ret. exists None. done.
  - apply wp_ret. exists (Some lockInfo). split; [done|]. split; [auto|].
    intros ? [= <-]. eauto.
Qed.

(** X3. Whatever the folder holds and whichever storage calls fail,
    [checkMergeLock] does not throw. It leaves the folder as it is or
    with the lock file removed and nothing else changed; and a lock it
    returns is the parsed content of the lock file, which is still in
    place. *)
Theorem checkMergeLock_never_throws (now : Z) (w : world) :
  ∃ answer w',
    checkMergeLock Date_parse JSON_parse now w = (Return answer, w')
    ∧ (entries w' = entries w
       ∨ entries w' = delete MERGE_LOCK_FILE (entries w))
    ∧ ∀ lockInfo,
        answer = Some lockInfo →
        entries w' = entries w
        ∧ ∃ content, entries w !! MERGE_LOCK_FILE = Some (File content)
                     ∧ JSON_parse content = Some lockInfo.
Proof.
  destruct (wp_run true _ _ w (checkMergeLock_any true now (entries w))
              (schedule_any _)) as (r & w' & E & answer & -> & H).
  by exists answer, w'.
Qed.

(** X4. Without storage failure: when the folder has no lock file, or a
    directory under its name, or a lock file whose text does not parse,
    [checkMergeLock] returns no lock and leaves the folder as it is; an
    unreadable lock file is not removed. *)
Theorem checkMergeLock_absent_or_corrupt (now : Z) (w : world) :
  fault_free w →
  (entries w !! MERGE_LOCK_FILE = None
   ∨ entries w !! MERGE_LOCK_FILE = Some Directory
   ∨ ∃ content, entries w !! MERGE_LOCK_FILE = Some (File content)
                ∧ JSON_parse content = None) →
  ∃ w', checkMergeLock Date_parse JSON_parse now w = (Return None, w')
        ∧ entries w' = entries w.
Proof.
  intros Hff Hlock.
  destruct (wp_run false (checkMergeLock Date_parse JSON_parse now)
              (λ r es', r = Return None ∧ es' = entries w) w)
    as (r & w' & E & -> & Hes); [|by apply schedule_fault_free|by exists w'].
  unfold checkMergeLock. apply wp_try_catch.
  wp_seq. apply wp_getFileHandle; [done|].
  destruct Hlock as [Habs|[Hdir|(content & Hfile & Hjson)]].
  - rewrite Habs. by apply wp_ret.
  - rewrite Hdir. by apply wp_ret.
  - rewrite Hfile.
    wp_seq. apply wp_getFile; [done|]. rewrite Hfile.
    wp_seq. apply wp_text; [done|].
    rewrite Hjson. simpl. wp_seq. apply wp_throw. by apply wp_ret.
Qed.

(** X5. Without storage failure, a lock whose [startedAt] is not a date
    is returned whatever the clock says: its age is NaN, which is never
    more than an hour, so such a lock is never treated as stale and
    never removed. *)
Theorem checkMergeLock_invalid_date (now : Z) (w : world) (content : string)
    (lockInfo : MergeLockInfo) :
  fault_free w →
  entries w !! MERGE_LOCK_FILE = Some (File content) →
  JSON_parse content = Some lockInfo →
  Date_parse (startedAt lockInfo) = None →
  ∃ w', checkMergeLock Date_parse JSON_parse now w
        = (Return (Some lockInfo), w')
        ∧ entries w' = entries w.
Proof.
  intros Hff Hfile Hjson Hdate.
  destruct (wp_run false (checkMergeLock Date_parse JSON_parse now)
              (λ r es', r = Return (Some lockInfo) ∧ es' = entries w) w)
    as (r & w' & E & -> & Hes); [|by apply schedule_fault_free|by exists w'].
  unfold checkMergeLock. apply wp_try_catch.
  wp_seq. apply wp_getFileHandle; [done|]. rewrite Hfile.
  wp_seq. apply wp_getFile; [done|]. rewrite Hfile.
  wp_seq. apply wp_text; [done|].
  rewrite Hjson. simpl. wp_seq. apply wp_ret. rewrite Hdate. simpl.
  by apply wp_ret.
Qed.

Lemma createMergeLock_any faulty (now : Z) (email : string)
    (workingFileNames : list string) (es : gmap string entry) :
  let lockInfo :=
    {| lock_email := email; startedAt := JSDate.toISOString now;
       lock_workingFiles := workingFileNames |} in
  wp faulty (createMergeLock JSON_stringify now email workingFileNames)
    (λ r es',
       r = Return ()
       ∧ (es' = es
          ∨ (es !! MERGE_LOCK_FILE = None
             ∧ es' = <[MERGE_LOCK_FILE := File EmptyString]> es)
          ∨ (es !! MERGE_LOCK_FILE ≠ Some Directory
             ∧ es' = <[MERGE_LOCK_FILE := File (JSON_stringify lockInfo)]> es))
       ∧ (faulty = false → es !! MERGE_LOCK_FILE ≠ Some Directory →
          es' = <[MERGE_LOCK_FILE := File (JSON_stringify lockInfo)]> es)) es.
Proof.
  intros lockInfo. unfold createMergeLock. fold lockInfo.
  apply wp_try_catch.
  assert (faulty = true → es !! MERGE_LOCK_FILE = None →
          wp faulty (mret () : IO unit)
            (λ r es',
               r = Return ()
               ∧ (es' = es
                  ∨ (es !! MERGE_LOCK_FILE = None
                     ∧ es' = <[MERGE_LOCK_FILE := File EmptyString]> es)
                  ∨ (es !! MERGE_LOCK_FILE ≠ Some Directory
                     ∧ es' = <[MERGE_LOCK_FILE :=
                                 File (JSON_stringify lockInfo)]> es))
               ∧ (faulty = false →
                  es !! MERGE_LOCK_FILE ≠ Some Directory →
                  es' = <[MERGE_LOCK_FILE :=
                            File (JSON_stringify lockInfo)]> es))
            (<[MERGE_LOCK_FILE := File EmptyString]> es)) as Hempty.
  { intros -> Hnone. apply wp_ret. split_and!; [done | | done].
    right. by left. }
  wp_seq. apply wp_getFileHandle.
  { intros ->. apply wp_ret. split_and!; [done | by left | done]. }
  destruct (es !! MERGE_LOCK_FILE) as [[old|]|] eqn:Elock.
  - wp_seq. apply wp_createWritable.
    { intros ->. apply wp_ret. split_and!; [done | by left | done]. }
    rewrite Elock.
    wp_seq. apply wp_write.
    { intros ->. apply wp_ret. split_and!; [done | by left | done]. }
    apply wp_close.
    { intros ->. apply wp_ret. split_and!; [done | by left | done]. }
    simpl. split_and!; [done | | done]. right. right. done.
  - apply wp_ret. split_and!; [done | by left | done].
  - wp_seq. apply wp_createWritable; [exact (λ Hf, Hempty Hf eq_refl)|].
    rewrite lookup_insert_eq.
    wp_seq. apply wp_write; [exact (λ Hf, Hempty Hf eq_refl)|].
    apply wp_close; [exact (λ Hf, Hempty Hf eq_refl)|].
    simpl. rewrite insert_insert_eq.
    split_and!; [done | | done]. right. right. done.
Qed.

Lemma wp_run_schedule faulty {A} (m : IO A) Q (w : world) :
  wp faulty m Q (entries w) → schedule faulty (faults w) →
  ∃ r w', m w = (r, w') ∧ Q r (entries w') ∧ schedule faulty (faults w').
Proof.
  intros Hm Hfs. destruct w as [es fs].
  destruct (Hm fs Hfs) as (r & es' & fs' & E & Hfs' & HQ).
  by exists r, (World es' fs').
Qed.

Lemma schedule_false_fault_free (w : world) :
  schedule false (faults w) → fault_free w.
Proof.
  unfold fault_free, schedule. intros H. eapply Forall_impl; [exact H|].
  intros [] Hb; [by discriminate Hb | done].
Qed.

(** X6. Whichever storage calls fail, [createMergeLock] does not throw
    and touches nothing but the lock file. Afterwards the folder is as
    it was, or holds the lock with its JSON text, or, when there was no
    lock file and a call failed after the file was created, holds an
    empty lock file. Without storage failure, and with no directory
    under the name of the lock, the lock is written. *)
Theorem createMergeLock_never_throws (now : Z) (email : string)
    (workingFileNames : list string) (w : world) :
  let lockInfo :=
    {| lock_email := email; startedAt := JSDate.toISOString now;
       lock_workingFiles := workingFileNames |} in
  ∃ w',
    createMergeLock JSON_stringify now email workingFileNames w
    = (Return (), w')
    ∧ (entries w' = entries w
       ∨ (entries w !! MERGE_LOCK_FILE = None
          ∧ entries w' = <[MERGE_LOCK_FILE := File EmptyString]> (entries w))
       ∨ (entries w !! MERGE_LOCK_FILE ≠ Some Directory
          ∧ entries w'
            = <[MERGE_LOCK_FILE := File (JSON_stringify lockInfo)]>
                (entries w)))
    ∧ (fault_free w → entries w !! MERGE_LOCK_FILE ≠ Some Directory →
       entries w'
       = <[MERGE_LOCK_FILE := File (JSON_stringify lockInfo)]> (entries w)).
Proof.
  intros lockInfo.
  destruct (wp_run true _ _ w
              (createMergeLock_any true now email workingFileNames (entries w))
              (schedule_any _)) as (r & w' & E & -> & Hany & _).
  exists w'. split; [done|]. split; [done|].
  intros Hff Hdir.
  destruct (wp_run false _ _ w
              (createMergeLock_any false now email workingFileNames
                 (entries w))
              (schedule_fault_free _ Hff)) as (r2 & w2 & E2 & _ & _ & Hw).
  assert (w2 = w') as -> by congruence. by apply Hw.
Qed.

(** X7. Round trip of the lock, without storage failure and for a
    platform where [JSON.parse] reads back what [JSON.stringify] wrote
    and the date of [toISOString] parses to the instant it was made
    from: after [createMergeLock] at time [now], [checkMergeLock]
    returns that very lock as long as no more than an hour has passed,
    leaving the folder as it is; later than that it returns no lock and
    the folder is as it was before the lock was taken. *)
Theorem createMergeLock_checkMergeLock (now : Z) (email : string)
    (workingFileNames : list string) (w : world) :
  let lockInfo :=
    {| lock_email := email; startedAt := JSDate.toISOString now;
       lock_workingFiles := workingFileNames |} in
  fault_free w →
  entries w !! MERGE_LOCK_FILE = None →
  JSON_parse (JSON_stringify lockInfo) = Some lockInfo →
  Date_parse (JSDate.toISOString now) = Some now →
  ∃ w1,
    createMergeLock JSON_stringify now email workingFileNames w
    = (Return (), w1)
    ∧ ∀ later,
        (later - now ≤ 60 * 60 * 1000 →
         ∃ w2, checkMergeLock Date_parse JSON_parse later w1
               = (Return (Some lockInfo), w2)
               ∧ entries w2 = entries w1)
        ∧ (60 * 60 * 1000 < later - now →
           ∃ w2, checkMergeLock Date_parse JSON_parse later w1
                 = (Return None, w2)
                 ∧ entries w2 = entries w).
Proof.
  intros lockInfo Hff Habs Hjson Hdate.
  destruct (wp_run_schedule false _ _ w
              (createMergeLock_any false now email workingFileNames
                 (entries w))
              (schedule_fault_free _ Hff))
    as (r & w1 & E & (-> & _ & Hw) & Hff1%schedule_false_fault_free).
  exists w1. split; [done|]. intros later.
  assert (entries w1 !! MERGE_LOCK_FILE
          = Some (File (JSON_stringify lockInfo))) as Hlock.
  { rewrite Hw; [apply lookup_insert_eq | done | by rewrite Habs]. }
  destruct (checkMergeLock_run Date_parse JSON_parse later w1 _ lockInfo now
              Hff1 Hlock Hjson Hdate) as (w2 & E2 & Hes2).
  split; intros Hage; exists w2.
  - by rewrite bool_decide_eq_false_2 in E2, Hes2 by lia.
  - rewrite bool_decide_eq_true_2 in E2, Hes2 by done.
    split; [done|]. rewrite Hes2, Hw; [|done|by rewrite Habs].
    rewrite delete_insert_eq. by apply delete_id.
Qed.

(** X8. Whichever storage calls fail, and also when there is no lock
    to remove, [removeMergeLock] does not throw and touches nothing but
    the lock file; without storage failure the folder has no lock file
    afterwards. *)
Theorem removeMergeLock_never_throws (w : world) :
  ∃ w',
    removeMergeLock w = (Return (), w')
    ∧ (entries w' = entries w
       ∨ entries w' = delete MERGE_LOCK_FILE (entries w))
    ∧ (fault_free w → entries w' !! MERGE_LOCK_FILE = None).
Proof.
  destruct (wp_run true _ _ w (removeMergeLock_any true (entries w))
              (schedule_any _)) as (r & w' & E & -> & Hany & _).
  exists w'. split; [done|]. split; [done|].
  intros Hff.
  destruct (wp_run false _ _ w (removeMergeLock_any false (entries w))
              (schedule_fault_free _ Hff)) as (r2 & w2 & E2 & _ & _ & Hw).
  assert (w2 = w') as -> by congruence. rewrite Hw by done.
  apply lookup_delete_eq.
Qed.

End LockEdges.

Lemma checkMergeLock_absent_or_corrupt_witness :
  ∃ w', FolderSync.checkMergeLock JSDate.iso_parse Examples.parse_lock_text
          Examples.jan_1 Examples.folder_lock_undated
        = (FS.Return None, w')
        ∧ FS.entries w' = FS.entries Examples.folder_lock_undated.
Proof.
  apply (checkMergeLock_absent_or_corrupt JSDate.iso_parse
           Examples.parse_lock_text Examples.jan_1
           Examples.folder_lock_undated).
  - constructor.
  - right. right. exists (Examples.stringify_lock Examples.lock_undated).
    split; reflexivity.
Defined.

Lemma checkMergeLock_invalid_date_witness :
  ∃ w', FolderSync.checkMergeLock JSDate.iso_parse Examples.parse_undated_text
          Examples.jan_4 Examples.folder_lock_undated
        = (FS.Return (Some Examples.lock_undated), w')
        ∧ FS.entries w' = FS.entries Examples.folder_lock_undated.
Proof.
  apply (checkMergeLock_invalid_date JSDate.iso_parse
           Examples.parse_undated_text Examples.jan_4
           Examples.folder_lock_undated
           (Examples.stringify_lock Examples.lock_undated)
           Examples.lock_undated).
  - constructor.
  - reflexivity.
  - reflexivity.
  - reflexivity.
Defined.

Lemma createMergeLock_checkMergeLock_witness :
  ∃ w1,
    FolderSync.createMergeLock Examples.stringify_lock Examples.jan_1
      "amy@co" [] Examples.folder_amy
    = (FS.Return (), w1)
    ∧ ∀ later,
        (later - Examples.jan_1 ≤ 60 * 60 * 1000 →
         ∃ w2, FolderSync.checkMergeLock JSDate.iso_parse
                 Examples.parse_lock_text later w1
               = (FS.Return
                    (Some {| FolderSync.lock_email := "amy@co";
                             FolderSync.startedAt :=
                               JSDate.toISOString Examples.jan_1;
                             FolderSync.lock_workingFiles := [] |}), w2)
               ∧ FS.entries w2 = FS.entries w1)
        ∧ (60 * 60 * 1000 < later - Examples.jan_1 →
           ∃ w2, FolderSync.checkMergeLock JSDate.iso_parse
                   Examples.parse_lock_text later w1
                 = (FS.Return None, w2)
                 ∧ FS.entries w2 = FS.entries Examples.folder_amy).
Proof.
  apply (createMergeLock_checkMergeLock JSDate.iso_parse
           Examples.parse_lock_text Examples.stringify_lock Examples.jan_1
           "amy@co" [] Examples.folder_amy).
  - constructor.
  - reflexivity.
  - vm_compute. reflexivity.
  - vm_compute. reflexivity.
Defined.

(** ** Calendar dates and their digits *)

Section Calendar.
Import Str JSDate Checks.

Lemma all_below_spec (f : Z → bool) (n : N) :
  all_below f n = true → ∀ z, 0 ≤ z < Z.of_N n → f z = true.
Proof.
  unfold all_below.
  assert (∀ z0 ok0,
            snd (N.iter n (λ '(z, ok), (z + 1, ok && f z)) (z0, ok0)) = true →
            fst (N.iter n (λ '(z, ok), (z + 1, ok && f z)) (z0, ok0))
            = z0 + Z.of_N n
            ∧ ok0 = true
            ∧ ∀ z, z0 ≤ z < z0 + Z.of_N n → f z = true) as H.
  { induction n as [|n IH] using N.peano_ind; intros z0 ok0.
    - simpl. intros ->. split; [lia|]. split; [done|]. lia.
    - rewrite N.iter_succ.
      destruct (N.iter n _ (z0, ok0)) as [z1 ok1] eqn:E. simpl.
      intros [-> Hf]%andb_true_iff.
      specialize (IH z0 ok0). rewrite E in IH. simpl in IH.
      destruct (IH eq_refl) as (-> & -> & Hall).
      split; [lia|]. split; [done|].
      intros z Hz. destruct (decide (z = z0 + Z.of_N n)) as [->|]; [done|].
      apply Hall. lia. }
  intros Hok z Hz. destruct (H 0 true Hok) as (_ & _ & Hall). apply Hall. lia.
Qed.

Lemma doe_all : all_below doe_ok 146097 = true.
Proof. vm_compute. reflexivity. Qed.

Lemma pad4_all : all_below (pad_ok 4) 10000 = true.
Proof. vm_compute. reflexivity. Qed.

Lemma pad2_all : all_below (pad_ok 2) 100 = true.
Proof. vm_compute. reflexivity. Qed.

Lemma pad0_4_digits (n : Z) :
  0 ≤ n < 10000 → p_digits 4 0 (pad0 4 n) = Some (n, EmptyString).
Proof.
  intros Hn. pose proof (all_below_spec _ _ pad4_all n ltac:(lia)) as H.
  unfold pad_ok in H. by apply bool_decide_eq_true in H.
Qed.

Lemma pad0_2_digits (n : Z) :
  0 ≤ n < 100 → p_digits 2 0 (pad0 2 n) = Some (n, EmptyString).
Proof.
  intros Hn. pose proof (all_below_spec _ _ pad2_all n ltac:(lia)) as H.
  unfold pad_ok in H. by apply bool_decide_eq_true in H.
Qed.

(** [civil_from_days] is a right inverse of [days_from_civil], with the
    month and the day in range; the days from 1970 to the end of 9999
    have a year of four digits. *)
Lemma civil_from_days_spec (z : Z) :
  ∃ y m d,
    civil_from_days z = (y, m, d)
    ∧ days_from_civil y m d = z
    ∧ 1 ≤ m ≤ 12 ∧ 1 ≤ d ≤ 31
    ∧ (0 ≤ z < days_from_civil 10000 1 1 → 1970 ≤ y ≤ 9999).
Proof.
  unfold civil_from_days.
  pose proof (Z.div_mod (z + 719468) 146097 ltac:(done)) as Hdm.
  pose proof (Z.mod_pos_bound (z + 719468) 146097 ltac:(done)) as Hb.
  set (era := (z + 719468) / 146097) in *.
  assert ((z + 719468) - era * 146097 = (z + 719468) mod 146097) as -> by lia.
  set (doe := (z + 719468) mod 146097) in *.
  pose proof (all_below_spec _ _ doe_all doe ltac:(lia)) as Hok.
  unfold doe_ok in Hok. cbv zeta in *.
  set (yoe := (doe - doe / 1460 + doe / 36524 - doe / 146096) / 365) in *.
  set (doy := doe - (365 * yoe + yoe / 4 - yoe / 100)) in *.
  set (mp := (5 * doy + 2) / 153) in *.
  set (d := doy - (153 * mp + 2) / 5 + 1) in *.
  set (m := if mp <? 10 then mp + 3 else mp - 9) in *.
  repeat (apply andb_true_iff in Hok as [Hok ?]).
  eexists _, m, d. split; [done|].
  repeat match goal with
         | H : (_ <=? _) = true |- _ => apply Z.leb_le in H
         | H : (_ =? _) = true |- _ => apply Z.eqb_eq in H
         end.
  split_and!; try lia.
  - unfold days_from_civil.
    assert ((if m <=? 2
             then (if m <=? 2 then yoe + era * 400 + 1 else yoe + era * 400) - 1
             else (if m <=? 2 then yoe + era * 400 + 1 else yoe + era * 400))
            = yoe + era * 400) as -> by (destruct (m <=? 2); lia).
    assert ((yoe + era * 400) / 400 = era) as ->.
    { rewrite Z.div_add by done. rewrite Z.div_small by lia. lia. }
    replace (yoe + era * 400 - era * 400) with yoe by lia.
    replace ((m + 9) mod 12) with mp by lia. lia.
  - intros Hz. change (days_from_civil 10000 1 1) with 2932897 in Hz.
    assert (4 ≤ era ≤ 24) as Hera by (unfold era; lia).
    match goal with
    | H1 : implb (doe <? _) _ = true, H2 : implb (_ <=? doe) _ = true |- _ =>
        rename H1 into Hhi; rename H2 into Hlo
    end.
    split.
    + destruct (decide (era = 4)) as [E4|]; [|destruct (m <=? 2); lia].
      assert ((135080 <=? doe) = true) as Hdoe by (apply Z.leb_le; lia).
      rewrite Hdoe in Hlo. simpl in Hlo. apply Z.leb_le in Hlo.
      destruct (m <=? 2); lia.
    + destruct (decide (era = 24)) as [E24|]; [|destruct (m <=? 2); lia].
      assert ((doe <? 146037) = true) as Hdoe by (apply Z.ltb_lt; lia).
      rewrite Hdoe in Hhi. simpl in Hhi. apply Z.leb_le in Hhi.
      destruct (m <=? 2); lia.
Qed.

(** [MakeDay] on a month index and a day in range is the day number of
    the date. *)
Lemma MakeDay_civil (y m d : Z) :
  1 ≤ m ≤ 12 → MakeDay y (m - 1) d = days_from_civil y m d.
Proof.
  intros Hm. unfold MakeDay.
  rewrite Z.div_small, Z.mod_small by lia.
  replace (y + 0) with y by lia. replace (m - 1 + 1) with m by lia.
  unfold days_from_civil. cbv zeta. lia.
Qed.

End Calendar.

(** ** Digits, separators and substrings *)

Section Digits.
Import Str JSDate Checks.

Lemma p_digits_app (n : nat) : ∀ acc s v r t,
  p_digits n acc s = Some (v, r) →
  p_digits n acc (s +:+ t) = Some (v, r +:+ t).
Proof.
  induction n as [|n IH]; intros acc s v r t.
  - simpl. by intros [= -> ->].
  - destruct s as [|c s]; [done|].
    change (String c s +:+ t) with (String c (s +:+ t)). simpl.
    destruct (Ascii.is_nat c); [|done]. apply IH.
Qed.

Lemma p_digits_split (n : nat) : ∀ acc s v r,
  p_digits n acc s = Some (v, r) →
  ∃ ds, s = ds +:+ r ∧ String.length ds = n.
Proof.
  induction n as [|n IH]; intros acc s v r.
  - simpl. intros [= -> ->]. by exists EmptyString.
  - destruct s as [|c s]; [done|]. simpl.
    destruct (Ascii.is_nat c); [|done].
    intros (ds & -> & Hlen)%IH. exists (String c ds). split; [done|].
    simpl. by rewrite Hlen.
Qed.

Lemma p_digits_Number (n : nat) : ∀ acc s v,
  p_digits n acc s = Some (v, EmptyString) → Number_go acc s = Some v.
Proof.
  induction n as [|n IH]; intros acc s v.
  - simpl. by intros [= -> ->].
  - destruct s as [|c s]; [done|]. simpl.
    destruct (Ascii.is_nat c); [|done]. apply IH.
Qed.

Lemma p_digits_no_char (c0 : ascii) (n : nat) :
  Ascii.is_nat c0 = None →
  ∀ acc s v,
    p_digits n acc s = Some (v, EmptyString) →
    forallb (λ c, negb (Ascii.eqb c c0)) s = true.
Proof.
  intros Hc0. induction n as [|n IH]; intros acc s v.
  - simpl. by intros [= -> ->].
  - destruct s as [|c s]; [done|]. simpl.
    destruct (Ascii.is_nat c) eqn:Ec; [|done].
    intros Hs%IH. rewrite Hs.
    destruct (Ascii.eqb c c0) eqn:E; [|done].
    apply Ascii.eqb_eq in E as ->. congruence.
Qed.

Lemma p_digits_last (n : nat) : ∀ acc s v,
  p_digits (S n) acc s = Some (v, EmptyString) →
  ∃ p c, s = p +:+ String c EmptyString ∧ is_Some (Ascii.is_nat c).
Proof.
  induction n as [|n IH]; intros acc s v.
  - destruct s as [|c s]; [done|]. simpl.
    destruct (Ascii.is_nat c) eqn:Ec; [|done].
    intros [= _ ->]. exists EmptyString, c. split; [done|]. by rewrite Ec.
  - destruct s as [|c s]; [done|].
    change (p_digits (S (S n)) acc (String c s))
      with (match Ascii.is_nat c with
            | Some d => p_digits (S n) (10 * acc + Z.of_nat d) s
            | None => None
            end).
    destruct (Ascii.is_nat c); [|done].
    intros (p & c' & -> & Hc')%IH. by exists (String c p), c'.
Qed.

Lemma split_app (sep : ascii) (s t : string) :
  forallb (λ c, negb (Ascii.eqb c sep)) s = true →
  split sep (s +:+ String sep t) = s :: split sep t.
Proof.
  induction s as [|c s IH].
  - intros _. change (EmptyString +:+ String sep t) with (String sep t).
    simpl. by rewrite Ascii.eqb_refl.
  - change (String c s +:+ String sep t) with (String c (s +:+ String sep t)).
    simpl. intros [Hc Hs]%andb_true_iff. apply negb_true_iff in Hc.
    by rewrite Hc, IH.
Qed.

Lemma split_no_sep (sep : ascii) (s : string) :
  forallb (λ c, negb (Ascii.eqb c sep)) s = true → split sep s = [s].
Proof.
  induction s as [|c s IH]; [done|].
  simpl. intros [Hc Hs]%andb_true_iff. apply negb_true_iff in Hc.
  by rewrite Hc, IH.
Qed.

Lemma substring_app_l (s t : string) :
  String.substring 0 (String.length s) (s +:+ t) = s.
Proof.
  induction s as [|c s IH].
  - simpl. by destruct (EmptyString +:+ t).
  - change (String c s +:+ t) with (String c (s +:+ t)). simpl.
    by rewrite IH.
Qed.

Lemma substring_app_r (s t : string) :
  String.substring (String.length s) (String.length t) (s +:+ t) = t.
Proof.
  induction s as [|c s IH].
  - apply substring_all.
  - change (String c s +:+ t) with (String c (s +:+ t)). simpl. apply IH.
Qed.

Lemma append_last_inj (s t : string) (a b : ascii) :
  s +:+ String a EmptyString = t +:+ String b EmptyString → a = b.
Proof.
  revert t. induction s as [|c s IH]; intros [|c' t].
  - by intros [= ->].
  - change (String a EmptyString
            = String c' (t +:+ String b EmptyString) → a = b).
    intros [= _ E]. apply (f_equal String.length) in E.
    rewrite string_length_app in E. simpl in E. lia.
  - change (String c (s +:+ String a EmptyString)
            = String b EmptyString → a = b).
    intros [= _ E]. apply (f_equal String.length) in E.
    rewrite string_length_app in E. simpl in E. lia.
  - change (String c (s +:+ String a EmptyString)
            = String c' (t +:+ String b EmptyString) → a = b).
    intros [= _ E]. by apply IH in E.
Qed.

End Digits.

(** ** The names of the backups *)

Section BackupNames.
Import Str JSDate FS FolderSync.
Variable LocalTZA : Z → bool → Z.

Lemma is_date_inv (s : string) :
  is_date s = true →
  ∃ y m d s2 s4,
    p_digits 4 0 s = Some (y, String "-" s2)
    ∧ p_digits 2 0 s2 = Some (m, String "-" s4)
    ∧ p_digits 2 0 s4 = Some (d, EmptyString).
Proof.
  unfold is_date.
  destruct (p_digits 4 0 s) as [[y s1]|] eqn:E1;
    cbn [mbind option_bind p_char]; [|done].
  destruct s1 as [|c s2]; cbn [mbind option_bind p_char]; [done|].
  destruct (Ascii.eqb "-" c) eqn:Ec; cbn [mbind option_bind p_char]; [|done].
  apply Ascii.eqb_eq in Ec as <-.
  destruct (p_digits 2 0 s2) as [[m s3]|] eqn:E2;
    cbn [mbind option_bind p_char]; [|done].
  destruct s3 as [|c s4]; cbn [mbind option_bind p_char]; [done|].
  destruct (Ascii.eqb "-" c) eqn:Ec; cbn [mbind option_bind p_char]; [|done].
  apply Ascii.eqb_eq in Ec as <-.
  destruct (p_digits 2 0 s4) as [[d s5]|] eqn:E3;
    cbn [mbind option_bind p_char]; [|done].
  destruct s5; [|done]. intros _. by exists y, m, d, s2, s4.
Qed.

Lemma is_date_length (s : string) :
  is_date s = true → String.length s = 10%nat.
Proof.
  intros (y & m & d & s2 & s4 & H1 & H2 & H3)%is_date_inv.
  apply p_digits_split in H1 as (ds1 & -> & L1).
  apply p_digits_split in H2 as (ds2 & -> & L2).
  apply p_digits_split in H3 as (ds3 & -> & L3).
  repeat (rewrite string_length_app; simpl). lia.
Qed.

Lemma is_date_last (s : string) :
  is_date s = true →
  ∃ p c, s = p +:+ String c EmptyString ∧ is_Some (Ascii.is_nat c).
Proof.
  intros (y & m & d & s2 & s4 & H1 & H2 & H3)%is_date_inv.
  apply p_digits_split in H1 as (ds1 & -> & _).
  apply p_digits_split in H2 as (ds2 & -> & _).
  apply p_digits_last in H3 as (p & c & -> & Hc).
  exists (ds1 +:+ String "-" (ds2 +:+ String "-" p)), c. split; [|done].
  rewrite string_app_assoc.
  change (String "-" (ds2 +:+ String "-" p) +:+ String c EmptyString)
    with (String "-" ((ds2 +:+ String "-" p) +:+ String c EmptyString)).
  by rewrite string_app_assoc.
Qed.

(** A date written with four, two and two digits. *)
Lemma date_string (Y M D : string) (y m d : Z) :
  p_digits 4 0 Y = Some (y, EmptyString) →
  p_digits 2 0 M = Some (m, EmptyString) →
  p_digits 2 0 D = Some (d, EmptyString) →
  is_date (Y +:+ "-" +:+ M +:+ "-" +:+ D) = true
  ∧ Number <$> split "-" (Y +:+ "-" +:+ M +:+ "-" +:+ D)
    = [Some y; Some m; Some d].
Proof.
  intros HY HM HD. split.
  - unfold is_date.
    rewrite (p_digits_app _ _ _ _ _ ("-" +:+ M +:+ "-" +:+ D) HY).
    change (EmptyString +:+ "-" +:+ M +:+ "-" +:+ D)
      with (String "-" (M +:+ "-" +:+ D)).
    cbn [mbind option_bind p_char Ascii.eqb Bool.eqb].
    rewrite (p_digits_app _ _ _ _ _ ("-" +:+ D) HM).
    change (EmptyString +:+ "-" +:+ D) with (String "-" D).
    cbn [mbind option_bind p_char Ascii.eqb Bool.eqb].
    by rewrite HD.
  - change (Y +:+ "-" +:+ M +:+ "-" +:+ D)
      with (Y +:+ String "-" (M +:+ String "-" D)).
    rewrite split_app by (by eapply (p_digits_no_char "-")).
    rewrite split_app by (by eapply (p_digits_no_char "-")).
    rewrite split_no_sep by (by eapply (p_digits_no_char "-")).
    simpl. unfold Number.
    by rewrite (p_digits_Number _ _ _ _ HY), (p_digits_Number _ _ _ _ HM),
      (p_digits_Number _ _ _ _ HD).
Qed.

(** The date that [toISOString] writes from 1970 to the end of 9999. *)
Lemma toISOString_date_digits (t : Z) :
  0 ≤ t < days_from_civil 10000 1 1 * msPerDay →
  ∃ Y M D y m d,
    toISOString_date t = Y +:+ "-" +:+ M +:+ "-" +:+ D
    ∧ p_digits 4 0 Y = Some (y, EmptyString)
    ∧ p_digits 2 0 M = Some (m, EmptyString)
    ∧ p_digits 2 0 D = Some (d, EmptyString)
    ∧ 1970 ≤ y ∧ 1 ≤ m ≤ 12
    ∧ days_from_civil y m d = t / msPerDay.
Proof.
  intros Ht. unfold toISOString_date.
  destruct (civil_from_days_spec (t / msPerDay))
    as (y & m & d & -> & Hday & Hm & Hd & Hy).
  assert (0 ≤ t / msPerDay < days_from_civil 10000 1 1) as Hrange.
  { split; [apply Z.div_pos; [lia | done]|].
    apply Z.div_lt_upper_bound; [done | lia]. }
  specialize (Hy Hrange).
  assert ((0 <=? y) && (y <=? 9999) = true) as ->.
  { apply andb_true_iff. split; apply Z.leb_le; lia. }
  exists (pad0 4 y), (pad0 2 m), (pad0 2 d), y, m, d.
  split; [done|].
  rewrite pad0_4_digits, !pad0_2_digits by lia. split_and!; done || lia.
Qed.

Lemma extractEmail_inv (fileName author : string) :
  extractEmailFromFileName fileName = Some author →
  fileName = createWorkingFileName author ∧ dot_plus author = true.
Proof.
  unfold extractEmailFromFileName, match_WORKING_FILE_PATTERN,
    createWorkingFileName.
  destruct (strip_prefix _ fileName) as [rest|] eqn:Erest; simpl; [|done].
  destruct (strip_suffix _ rest) as [group1|] eqn:Egroup; simpl; [|done].
  destruct (dot_plus group1) eqn:Edot; [|done]. intros [= <-].
  apply strip_prefix_Some in Erest as ->.
  by apply strip_suffix_Some in Egroup as ->.
Qed.

Lemma match_BACKUP_FILE_PATTERN_create (author date : string) :
  dot_plus author = true → is_date date = true →
  match_BACKUP_FILE_PATTERN
    (createWorkingFileName author +:+ BACKUP_EXTENSION +:+ "." +:+ date)
  = Some date.
Proof.
  intros Hdot Hdate. pose proof (is_date_length _ Hdate) as Hlen.
  replace (createWorkingFileName author +:+ BACKUP_EXTENSION +:+ "." +:+ date)
    with ("schedule." +:+ ((author +:+ ".db.bak.") +:+ date)).
  2:{ unfold createWorkingFileName, BACKUP_EXTENSION.
      by rewrite !string_app_assoc. }
  unfold match_BACKUP_FILE_PATTERN. rewrite strip_prefix_app. simpl.
  rewrite string_length_app, Hlen.
  destruct (Nat.ltb_spec (String.length (author +:+ ".db.bak.") + 10) 10);
    [lia|].
  replace (String.length (author +:+ ".db.bak.") + 10 - 10)%nat
    with (String.length (author +:+ ".db.bak.")) by lia.
  assert (String.substring (String.length (author +:+ ".db.bak.")) 10
            ((author +:+ ".db.bak.") +:+ date) = date) as ->.
  { rewrite <- Hlen. apply substring_app_r. }
  rewrite substring_app_l.
  rewrite strip_suffix_app. simpl. by rewrite Hdot, Hdate.
Qed.

Lemma match_BACKUP_FILE_PATTERN_inv (fileName date : string) :
  match_BACKUP_FILE_PATTERN fileName = Some date →
  is_date date = true ∧ ∃ p, fileName = p +:+ date.
Proof.
  unfold match_BACKUP_FILE_PATTERN.
  destruct (strip_prefix _ fileName) as [rest|] eqn:Erest; simpl; [|done].
  destruct (Nat.ltb_spec (String.length rest) 10); [done|].
  destruct (strip_suffix _ _) as [stem|] eqn:Estem; simpl; [|done].
  destruct (dot_plus stem); simpl; [|done].
  destruct (is_date _) eqn:Edate; [|done]. intros [= <-]. split; [done|].
  apply strip_prefix_Some in Erest as ->.
  pose proof (substring_split rest (String.length rest - 10) ltac:(lia)) as E.
  replace (String.length rest - (String.length rest - 10))%nat with 10%nat
    in E by lia.
  exists ("schedule." +:+ String.substring 0 (String.length rest - 10) rest).
  by rewrite string_app_assoc, <- E.
Qed.

(** No name is that of a backup and of a working file at once: the one
    ends in a digit, the other in the letter b. *)
Lemma backup_name_not_working (fileName date : string) :
  match_BACKUP_FILE_PATTERN fileName = Some date →
  extractEmailFromFileName fileName = None.
Proof.
  intros [Hdate [p ->]]%match_BACKUP_FILE_PATTERN_inv.
  destruct (extractEmailFromFileName _) as [author|] eqn:E; [|done].
  exfalso. apply extractEmail_inv in E as [E _].
  apply is_date_last in Hdate as (q & c & -> & Hc).
  unfold createWorkingFileName in E.
  rewrite <- string_app_assoc in E.
  change ("schedule." +:+ author +:+ ".db")
    with ("schedule." +:+ (author +:+ (".d" +:+ String "b" EmptyString))) in E.
  rewrite <- !string_app_assoc in E.
  apply append_last_inj in E as ->. by destruct Hc.
Qed.

(** X9. Round trip of the backup naming convention, from 1970 to the
    end of the year 9999: the date read back from the backup name of a
    working file is local midnight of the day that was current in UTC
    when the name was made, at the zone offset in force at that local
    midnight. *)
Theorem parseBackupDate_createBackupFileName (now : Z)
    (workingFileName author : string) :
  0 ≤ now < days_from_civil 10000 1 1 * msPerDay →
  extractEmailFromFileName workingFileName = Some author →
  parseBackupDate LocalTZA (createBackupFileName now workingFileName)
  = Some (now / msPerDay * msPerDay
          - LocalTZA (now / msPerDay * msPerDay) false).
Proof.
  intros Hnow [-> Hdot]%extractEmail_inv.
  destruct (toISOString_date_digits now Hnow)
    as (Y & M & D & y & m & d & Htoday & HY & HM & HD & Hy & Hm & Hday).
  destruct (date_string Y M D y m d HY HM HD) as [Hdate Hsplit].
  unfold parseBackupDate, createBackupFileName. rewrite Htoday.
  rewrite match_BACKUP_FILE_PATTERN_create by done.
  rewrite Hsplit. unfold Date_ymd.
  assert ((0 <=? y) && (y <=? 99) = false) as ->.
  { apply andb_false_iff. right. apply Z.leb_gt. lia. }
  by rewrite MakeDay_civil, Hday.
Qed.

End BackupNames.

Lemma parseBackupDate_createBackupFileName_witness :
  FolderSync.parseBackupDate Examples.New_York
    (FolderSync.createBackupFileName Examples.two_hours_later
       "schedule.amy@co.db")
  = Some (Examples.two_hours_later / JSDate.msPerDay * JSDate.msPerDay
          - Examples.New_York
              (Examples.two_hours_later / JSDate.msPerDay * JSDate.msPerDay)
              false).
Proof.
  apply (parseBackupDate_createBackupFileName Examples.New_York
           Examples.two_hours_later "schedule.amy@co.db" "amy@co").
  - vm_compute. split; [discriminate | reflexivity].
  - reflexivity.
Defined.

(** ** The backup that archiving leaves *)

Section Archive.
Import Str JSDate FS FolderSync.

(** The date that [toISOString] writes from 1970 to the end of 9999 is
    the calendar date of the UTC day, in four, two and two digits. *)
Lemma toISOString_date_civil (t : Z) :
  0 ≤ t < days_from_civil 10000 1 1 * msPerDay →
  ∃ y m d,
    civil_from_days (t / msPerDay) = (y, m, d)
    ∧ toISOString_date t = pad0 4 y +:+ "-" +:+ pad0 2 m +:+ "-" +:+ pad0 2 d
    ∧ p_digits 4 0 (pad0 4 y) = Some (y, EmptyString)
    ∧ p_digits 2 0 (pad0 2 m) = Some (m, EmptyString)
    ∧ p_digits 2 0 (pad0 2 d) = Some (d, EmptyString).
Proof.
  intros Ht. unfold toISOString_date.
  destruct (civil_from_days_spec (t / msPerDay))
    as (y & m & d & E & _ & Hm & Hd & Hy).
  assert (0 ≤ t / msPerDay < days_from_civil 10000 1 1) as Hrange.
  { split; [apply Z.div_pos; [lia | done]|].
    apply Z.div_lt_upper_bound; [done | lia]. }
  specialize (Hy Hrange). exists y, m, d. rewrite E.
  assert ((0 <=? y) && (y <=? 9999) = true) as ->.
  { apply andb_true_iff. split; apply Z.leb_le; lia. }
  rewrite pad0_4_digits, !pad0_2_digits by lia. done.
Qed.

(** X30. For a working file as [scanFolder] lists it (the handle is
    that of the file name), [archiveWorkingFile file] writes the bytes
    of the file to a backup and then deletes the original. The name of the backup is the name of the file followed
    by [.bak.] and the date part of [new Date().toISOString()]: from
    1970 to the end of 9999 that is the year, month and day of the
    current UTC day, in four, two and two digits, which is not the date
    of today where the zone is on another day than UTC. Whichever
    storage call fails, the original is deleted only once the backup
    holds its bytes: either the call returns, the backup is written and
    the original is gone, or it throws and the original is still there
    with its bytes. Without a storage failure (and with no directory
    under the name of the backup) it returns. *)
Theorem archiveWorkingFile_backup_then_delete (now : Z) (w : world)
    (workingFile : WorkingFileInfo) (data : string) :
  handle workingFile = fileName workingFile →
  entries w !! fileName workingFile = Some (File data) →
  let backupFileName :=
    fileName workingFile +:+ ".bak." +:+ toISOString_date now in
  ∃ r w',
    archiveWorkingFile now workingFile w = (r, w')
    ∧ match r with
      | Return _ =>
          entries w' !! backupFileName = Some (File data)
          ∧ entries w' !! fileName workingFile = None
      | Throw _ => entries w' !! fileName workingFile = Some (File data)
      end
    ∧ (fault_free w →
       entries w !! backupFileName ≠ Some Directory →
       r = Return ())
    ∧ (0 ≤ now < days_from_civil 10000 1 1 * msPerDay →
       ∃ y m d,
         civil_from_days (now / msPerDay) = (y, m, d)
         ∧ backupFileName
           = fileName workingFile +:+ ".bak."
             +:+ pad0 4 y +:+ "-" +:+ pad0 2 m +:+ "-" +:+ pad0 2 d
         ∧ p_digits 4 0 (pad0 4 y) = Some (y, EmptyString)
         ∧ p_digits 2 0 (pad0 2 m) = Some (m, EmptyString)
         ∧ p_digits 2 0 (pad0 2 d) = Some (d, EmptyString)).
Proof.
  intros Hh Hwf backupFileName.
  assert (createBackupFileName now (fileName workingFile) = backupFileName)
    as Hname.
  { reflexivity. }
  destruct (wp_run true _ _ w
              (archiveWorkingFile_wp true now workingFile _ data Hh Hwf
                 ltac:(done)) (schedule_any _)) as (r & w' & E & HQ).
  rewrite Hname in HQ.
  exists r, w'. split; [done|]. split_and!.
  - destruct r; [done | by destruct HQ].
  - intros Hff Hdir. rewrite <- Hname in Hdir.
    destruct (wp_run false _ _ w
                (archiveWorkingFile_wp false now workingFile _ data Hh Hwf
                   (λ _, Hdir)) (schedule_fault_free _ Hff))
      as (r2 & w2 & E2 & HQ2).
    rewrite E in E2. injection E2 as <- <-.
    destruct r as [[]|e]; [done | by destruct HQ2].
  - intros Hnow.
    destruct (toISOString_date_civil now Hnow)
      as (y & m & d & Hcivil & Hdate & HY & HM & HD).
    exists y, m, d. split_and!; [done | | done..].
    unfold backupFileName. by rewrite Hdate.
Qed.

End Archive.

Lemma archiveWorkingFile_backup_then_delete_witness :
  let now := Examples.two_hours_later in
  let amy := Examples.file_of_amy in
  let w := Examples.folder_amy in
  let backupFileName :=
    FolderSync.fileName amy +:+ ".bak." +:+ JSDate.toISOString_date now in
  ∃ r w',
    FolderSync.archiveWorkingFile now amy w = (r, w')
    ∧ match r with
      | FS.Return _ =>
          FS.entries w' !! backupFileName = Some (FS.File "EDITS")
          ∧ FS.entries w' !! FolderSync.fileName amy = None
      | FS.Throw _ =>
          FS.entries w' !! FolderSync.fileName amy = Some (FS.File "EDITS")
      end
    ∧ (FS.fault_free w →
       FS.entries w !! backupFileName ≠ Some FS.Directory →
       r = FS.Return ())
    ∧ (0 ≤ now < JSDate.days_from_civil 10000 1 1 * JSDate.msPerDay →
       ∃ y m d,
         JSDate.civil_from_days (now / JSDate.msPerDay) = (y, m, d)
         ∧ backupFileName
           = FolderSync.fileName amy +:+ ".bak."
             +:+ Str.pad0 4 y +:+ "-" +:+ Str.pad0 2 m +:+ "-"
             +:+ Str.pad0 2 d
         ∧ Str.p_digits 4 0 (Str.pad0 4 y) = Some (y, EmptyString)
         ∧ Str.p_digits 2 0 (Str.pad0 2 m) = Some (m, EmptyString)
         ∧ Str.p_digits 2 0 (Str.pad0 2 d) = Some (d, EmptyString)).
Proof.
  apply (archiveWorkingFile_backup_then_delete Examples.two_hours_later
           Examples.folder_amy Examples.file_of_amy "EDITS");
    reflexivity.
Defined.

(** The run of the witness: on 2025-01-01 at 02:00 UTC the working
    file of amy@co becomes the backup of 2025-01-01. *)
Example archiveWorkingFile_run :
  let run :=
    FolderSync.archiveWorkingFile Examples.two_hours_later
      Examples.file_of_amy Examples.folder_amy in
  run.1 = FS.Return ()
  ∧ FS.entries run.2 !! "schedule.amy@co.db.bak.2025-01-01"
    = Some (FS.File "EDITS")
  ∧ FS.entries run.2 !! "schedule.amy@co.db" = None.
Proof. vm_compute. repeat split; reflexivity. Qed.

(** C4, on the code. In New York on 2025-12-26 at 22:00 archiving the
    working file of amy@co returns, writes its bytes to a backup and
    deletes the original, but the backup is not named with the date of
    today, 2025-12-26: its name carries the date of UTC, 2025-12-27,
    which [parseBackupDate] then reads as midnight of 2025-12-27 in New
    York. *)
Lemma archiveWorkingFile_backup_of_tomorrow :
  let now := Examples.in_New_York 2025 12 26 (22 * Examples.hour) in
  let run :=
    FolderSync.archiveWorkingFile now Examples.file_of_amy
      Examples.folder_amy in
  JSDate.local_date (Examples.New_York now true) now = "2025-12-26"
  ∧ JSDate.toISOString now = "2025-12-27T03:00:00.000Z"
  ∧ run.1 = FS.Return ()
  ∧ FS.entries run.2 !! "schedule.amy@co.db" = None
  ∧ FS.entries run.2
    !! ("schedule.amy@co.db.bak."
        +:+ JSDate.local_date (Examples.New_York now true) now) = None
  ∧ FS.entries run.2 !! "schedule.amy@co.db.bak.2025-12-27"
    = Some (FS.File "EDITS")
  ∧ FolderSync.parseBackupDate Examples.New_York
      "schedule.amy@co.db.bak.2025-12-27"
    = Some (Examples.in_New_York 2025 12 27 0).
Proof. vm_compute. repeat split; reflexivity. Qed.

(** ** The life of a backup: archive, scan and clean-up *)

Section BackupLife.
Import Str JSDate FS FolderSync.
Variable LocalTZA : Z → bool → Z.

Lemma digit_end_not_working (p : string) (c : ascii) :
  is_Some (Ascii.is_nat c) →
  extractEmailFromFileName (p +:+ String c EmptyString) = None.
Proof.
  intros Hc.
  destruct (extractEmailFromFileName _) as [author|] eqn:E; [|done].
  exfalso. apply extractEmail_inv in E as [E _].
  unfold createWorkingFileName in E.
  change ("schedule." +:+ author +:+ ".db")
    with ("schedule." +:+ (author +:+ (".d" +:+ String "b" EmptyString))) in E.
  rewrite <- !string_app_assoc in E.
  apply append_last_inj in E as ->. by destruct Hc.
Qed.

Lemma toISOString_date_last (t : Z) :
  ∃ p c, toISOString_date t = p +:+ String c EmptyString
         ∧ is_Some (Ascii.is_nat c).
Proof.
  unfold toISOString_date.
  destruct (civil_from_days_spec (t / msPerDay))
    as (y & m & d & -> & _ & _ & Hd & _).
  destruct (p_digits_last _ _ _ _ (pad0_2_digits d ltac:(lia)))
    as (p & c & -> & Hc).
  eexists _, c. split; [|done].
  by rewrite <- !string_app_assoc.
Qed.

Lemma createBackupFileName_last (now : Z) (workingFileName : string) :
  ∃ p c, createBackupFileName now workingFileName = p +:+ String c EmptyString
         ∧ is_Some (Ascii.is_nat c).
Proof.
  unfold createBackupFileName.
  destruct (toISOString_date_last now) as (p & c & -> & Hc).
  eexists _, c. split; [|done]. by rewrite <- !string_app_assoc.
Qed.

(** The name of a backup, whenever it is made, is not the name of a
    working file nor of the base, and it contains the backup marker. *)
Lemma createBackupFileName_class (now : Z) (workingFileName : string) :
  extractEmailFromFileName (createBackupFileName now workingFileName) = None
  ∧ createBackupFileName now workingFileName ≠ BASE_FILE_NAME
  ∧ includes BACKUP_EXTENSION (createBackupFileName now workingFileName)
    = true.
Proof.
  destruct (createBackupFileName_last now workingFileName)
    as (p & c & E & Hc).
  split_and!.
  - rewrite E. by apply digit_end_not_working.
  - rewrite E. intros E'.
    change BASE_FILE_NAME with ("schedule.bas" +:+ String "e" EmptyString)
      in E'.
    apply append_last_inj in E' as ->. by destruct Hc.
  - unfold createBackupFileName. apply includes_app.
Qed.

Lemma expired_is_backup (cutoffDate : Z) (name : string) :
  expired LocalTZA cutoffDate name →
  ∃ date, match_BACKUP_FILE_PATTERN name = Some date.
Proof.
  intros (d & Hd & _). unfold parseBackupDate in Hd.
  destruct (match_BACKUP_FILE_PATTERN name); [eauto | done].
Qed.

(** X10. Whichever storage calls fail, and whether it returns or
    throws, [cleanupOldBackups] only removes entries: what is left is
    part of what was there, and the base, the merge lock, every working
    file and every directory are left as they are. *)
Theorem cleanupOldBackups_spares (now maxAgeDays : Z) (w : world) :
  ∃ r w',
    cleanupOldBackups LocalTZA now maxAgeDays w = (r, w')
    ∧ entries w' ⊆ entries w
    ∧ (∀ name,
         name = BASE_FILE_NAME ∨ name = MERGE_LOCK_FILE
         ∨ is_Some (extractEmailFromFileName name)
         ∨ entries w !! name = Some Directory →
         entries w' !! name = entries w !! name).
Proof.
  destruct (wp_run true _ _ w
              (cleanupOldBackups_wp LocalTZA true now maxAgeDays (entries w))
              (schedule_any _)) as (r & w' & E & Hsame & _).
  exists r, w'. split; [done|]. split.
  - apply map_subseteq_spec. intros name x Hx.
    destruct (Hsame name) as [<-|[Hnone _]]; [done | congruence].
  - intros name Hname.
    destruct (Hsame name) as [?|(_ & [data Hdata] & Hexp)]; [done|].
    exfalso. apply expired_is_backup in Hexp as [date Hdate].
    destruct Hname as [->|[->|[[author Hauthor]|Hdir]]].
    + by vm_compute in Hdate.
    + by vm_compute in Hdate.
    + apply backup_name_not_working in Hdate. congruence.
    + congruence.
Qed.

(** X11. Without storage failure a second clean-up, run when the first
    is over and with a clock that has not moved forward, finds nothing
    to delete: it returns 0 and leaves the folder as the first one left
    it. *)
Theorem cleanupOldBackups_idempotent (now again maxAgeDays : Z) (w : world) :
  fault_free w →
  again ≤ now →
  ∃ n w1 w2,
    cleanupOldBackups LocalTZA now maxAgeDays w = (Return n, w1)
    ∧ cleanupOldBackups LocalTZA again maxAgeDays w1 = (Return 0%nat, w2)
    ∧ entries w2 = entries w1.
Proof.
  intros Hff Hclock.
  destruct (wp_run_schedule false _ _ w
              (cleanupOldBackups_wp LocalTZA false now maxAgeDays (entries w))
              (schedule_fault_free _ Hff))
    as (r & w1 & E1 & [Hsame1 HQ1] & Hff1%schedule_false_fault_free).
  destruct r as [n|e]; [|done].
  destruct HQ1 as (_ & Hall1). specialize (Hall1 eq_refl).
  destruct (wp_run false _ _ w1
              (cleanupOldBackups_wp LocalTZA false again maxAgeDays
                 (entries w1))
              (schedule_fault_free _ Hff1)) as (r & w2 & E2 & Hsame2 & HQ2).
  destruct r as [n2|e]; [|done].
  destruct HQ2 as (Hsize2 & _).
  assert (entries w2 = entries w1) as Hes.
  { apply map_eq. intros name.
    destruct (Hsame2 name) as [?|(_ & [data Hdata] & (d & Hd & Hlt))];
      [done|].
    exfalso.
    assert (entries w !! name = Some (File data)) as Hw.
    { destruct (Hsame1 name) as [<-|[? _]]; [done | congruence]. }
    assert (entries w1 !! name = None) as Hgone; [|congruence].
    apply (Hall1 name data Hw). exists d. split; [done|]. lia. }
  exists n, w1, w2. split; [done|]. split; [|done].
  rewrite Hes in Hsize2. by replace n2 with 0%nat in E2 by lia.
Qed.

Lemma archiveWorkingFile_exact faulty (now : Z) (wf : WorkingFileInfo)
    (es : gmap string entry) (data : string) :
  handle wf = fileName wf →
  es !! fileName wf = Some (File data) →
  wp faulty (archiveWorkingFile now wf)
    (λ r es',
       r = Return () →
       es' = delete (fileName wf)
               (<[createBackupFileName now (fileName wf) := File data]> es))
    es.
Proof.
  intros Hh Hwf. unfold archiveWorkingFile. rewrite Hh.
  pose proof (createBackupFileName_longer now (fileName wf)) as Hne.
  set (bk := createBackupFileName now (fileName wf)) in *.
  wp_seq. apply wp_getFile; [done|]. rewrite Hwf.
  wp_seq. apply wp_arrayBuffer; [done|].
  wp_seq. apply wp_getFileHandle; [done|].
  assert (∀ (es1 : gmap string entry) old,
            es1 !! bk = Some (File old) →
            es1 !! fileName wf = Some (File data) →
            <[bk := File data]> es1 = <[bk := File data]> es →
            wp faulty
              (createWritable bk ≫= λ writable,
               write writable data ≫= λ writable,
               close writable ≫= λ _, removeEntry (fileName wf))
              (λ r es',
                 r = Return () →
                 es' = delete (fileName wf) (<[bk := File data]> es)) es1)
    as Hrest.
  { intros es1 old Hbk Hwf1 Hins.
    wp_seq. apply wp_createWritable; [done|]. rewrite Hbk.
    wp_seq. apply wp_write; [done|].
    wp_seq. apply wp_close; [done|]. simpl.
    apply wp_removeEntry; [done|]. rewrite lookup_insert_ne by done.
    rewrite Hwf1. intros _. by rewrite <- Hins. }
  destruct (es !! bk) as [[old|]|] eqn:Ebk.
  - by apply (Hrest es old).
  - done.
  - apply (Hrest _ EmptyString).
    + by rewrite lookup_insert_eq.
    + by rewrite lookup_insert_ne.
    + by rewrite insert_insert_eq.
Qed.

Lemma archiveWorkingFile_returned (now : Z) (wf : WorkingFileInfo)
    (w w1 : world) (data : string) :
  handle wf = fileName wf →
  entries w !! fileName wf = Some (File data) →
  archiveWorkingFile now wf w = (Return (), w1) →
  entries w1
  = delete (fileName wf)
      (<[createBackupFileName now (fileName wf) := File data]> (entries w)).
Proof.
  intros Hh Hwf Hrun.
  destruct (wp_run true _ _ w
              (archiveWorkingFile_exact true now wf _ data Hh Hwf)
              (schedule_any _)) as (r & w' & E & HQ).
  rewrite Hrun in E. injection E as <- <-. by apply HQ.
Qed.

(** X12. How long a backup lives. A working file archived at [now]
    (from 1970 to the end of 9999) leaves a backup that a clean-up run
    at [later] keeps, whichever storage calls fail, as long as local
    time at [later] is no more than [maxAgeDays] days past the midnight
    that began the UTC day of [now]; past that, a clean-up without
    storage failure deletes it. Local time is reckoned with the zone
    offset in force at that midnight. *)
Theorem backup_survives_cleanup (now later maxAgeDays : Z) (w w1 : world)
    (workingFile : WorkingFileInfo) (author data : string) :
  0 ≤ now < days_from_civil 10000 1 1 * msPerDay →
  handle workingFile = fileName workingFile →
  extractEmailFromFileName (fileName workingFile) = Some author →
  entries w !! fileName workingFile = Some (File data) →
  archiveWorkingFile now workingFile w = (Return (), w1) →
  ∃ r w2,
    cleanupOldBackups LocalTZA later maxAgeDays w1 = (r, w2)
    ∧ (later + LocalTZA (now / msPerDay * msPerDay) false
       ≤ (now / msPerDay + maxAgeDays) * msPerDay →
       entries w2 !! createBackupFileName now (fileName workingFile)
       = Some (File data))
    ∧ ((now / msPerDay + maxAgeDays) * msPerDay
       < later + LocalTZA (now / msPerDay * msPerDay) false →
       fault_free w1 →
       entries w2 !! createBackupFileName now (fileName workingFile) = None).
Proof.
  intros Hnow Hh Hauthor Hwf Hrun.
  pose proof (archiveWorkingFile_returned now workingFile w w1 data Hh Hwf
                Hrun) as Hw1.
  pose proof (createBackupFileName_longer now (fileName workingFile)) as Hne.
  pose proof (parseBackupDate_createBackupFileName LocalTZA now _ _ Hnow
                Hauthor) as Hparse.
  set (bk := createBackupFileName now (fileName workingFile)) in *.
  assert (entries w1 !! bk = Some (File data)) as Hbk.
  { by rewrite Hw1, lookup_delete_ne, lookup_insert_eq. }
  destruct (wp_run true _ _ w1
              (cleanupOldBackups_wp LocalTZA true later maxAgeDays
                 (entries w1))
              (schedule_any _)) as (r & w2 & E & Hsame & _).
  exists r, w2. split; [done|]. split.
  - intros Hyoung.
    destruct (Hsame bk) as [->|(_ & _ & d & Hd & Hlt)]; [done|].
    rewrite Hparse in Hd. injection Hd as <-. lia.
  - intros Hold Hff.
    destruct (wp_run false _ _ w1
                (cleanupOldBackups_wp LocalTZA false later maxAgeDays
                   (entries w1))
                (schedule_fault_free _ Hff)) as (r2 & w2' & E2 & _ & HQ2).
    assert (r2 = r ∧ w2' = w2) as [-> ->] by (split; congruence).
    destruct r as [n|e]; [|done].
    destruct HQ2 as (_ & Hall). apply (Hall eq_refl bk data Hbk).
    eexists. split; [exact Hparse|]. lia.
Qed.

(** X13. After a working file has been archived, a scan without storage
    failure lists its backup among the backups, whatever the date, and
    lists as working files exactly the other working files that were
    in the folder before. *)
Theorem archiveWorkingFile_then_scanFolder (now : Z) (w w1 : world)
    (workingFile : WorkingFileInfo) (data currentAuthor : string) :
  handle workingFile = fileName workingFile →
  entries w !! fileName workingFile = Some (File data) →
  archiveWorkingFile now workingFile w = (Return (), w1) →
  fault_free w1 →
  ∃ r w2,
    scanFolder currentAuthor w1 = (Return r, w2)
    ∧ createBackupFileName now (fileName workingFile) ∈ backupFiles r
    ∧ ∀ wf, wf ∈ workingFiles r
            ↔ fileName wf ≠ fileName workingFile
              ∧ (∃ d, entries w !! fileName wf = Some (File d))
              ∧ handle wf = fileName wf
              ∧ extractEmailFromFileName (fileName wf) = Some (email wf).
Proof.
  intros Hh Hwf Hrun Hff.
  pose proof (archiveWorkingFile_returned now workingFile w w1 data Hh Hwf
                Hrun) as Hw1.
  pose proof (createBackupFileName_longer now (fileName workingFile)) as Hne.
  destruct (createBackupFileName_class now (fileName workingFile))
    as (Hnotwf & Hnotbase & Hbak).
  set (bk := createBackupFileName now (fileName workingFile)) in *.
  destruct (scanFolder_run currentAuthor w1 Hff) as (w2 & E & _).
  eexists _, w2. split; [exact E|].
  cbn [baseFile workingFiles backupFiles needsMerge myWorkingFile].
  split.
  - apply scan_backupFiles. right. split_and!; [|done..].
    apply elem_of_dir_entries. exists data.
    by rewrite Hw1, lookup_delete_ne, lookup_insert_eq.
  - intros wf. rewrite scan_working_records, elem_of_dir_entries. simpl.
    rewrite elem_of_nil, Hw1. split.
    + intros [[]|([d Hd] & Hhandle & Hemail)].
      destruct (decide (fileName wf = fileName workingFile)) as [Heq|Hneq].
      { by rewrite Heq, lookup_delete_eq in Hd. }
      rewrite lookup_delete_ne in Hd by done.
      destruct (decide (fileName wf = bk)) as [Hbk|Hnbk].
      { rewrite Hbk in Hemail. congruence. }
      rewrite lookup_insert_ne in Hd by done. eauto.
    + intros (Hneq & [d Hd] & Hhandle & Hemail). right.
      split; [|done]. exists d.
      rewrite lookup_delete_ne by done.
      rewrite lookup_insert_ne; [done|]. intros Hbk.
      rewrite <- Hbk in Hemail. congruence.
Qed.

End BackupLife.

Lemma cleanupOldBackups_idempotent_witness :
  ∃ n w1 w2,
    FolderSync.cleanupOldBackups (Examples.fixed_zone 0)
      (Examples.midnight_day10 + 1) 2 Examples.folder_backups
    = (FS.Return n, w1)
    ∧ FolderSync.cleanupOldBackups (Examples.fixed_zone 0)
        Examples.midnight_day10 2 w1
      = (FS.Return 0%nat, w2)
    ∧ FS.entries w2 = FS.entries w1.
Proof.
  apply (cleanupOldBackups_idempotent (Examples.fixed_zone 0)
           (Examples.midnight_day10 + 1)
           Examples.midnight_day10 2 Examples.folder_backups).
  - constructor.
  - lia.
Defined.

Lemma backup_survives_cleanup_witness :
  let now := Examples.two_hours_later in
  let later := Examples.jan_4 in
  let archived :=
    (FolderSync.archiveWorkingFile now Examples.file_of_amy
       Examples.folder_amy).2 in
  let backup :=
    FolderSync.createBackupFileName now
      (FolderSync.fileName Examples.file_of_amy) in
  let offset :=
    Examples.New_York (now / JSDate.msPerDay * JSDate.msPerDay) false in
  ∃ r w2,
    FolderSync.cleanupOldBackups Examples.New_York later 3 archived = (r, w2)
    ∧ (later + offset ≤ (now / JSDate.msPerDay + 3) * JSDate.msPerDay →
       FS.entries w2 !! backup = Some (FS.File "EDITS"))
    ∧ ((now / JSDate.msPerDay + 3) * JSDate.msPerDay < later + offset →
       FS.fault_free archived →
       FS.entries w2 !! backup = None).
Proof.
  apply (backup_survives_cleanup Examples.New_York
           Examples.two_hours_later Examples.jan_4 3 Examples.folder_amy _
           Examples.file_of_amy "amy@co" "EDITS").
  - vm_compute. split; [discriminate | reflexivity].
  - reflexivity.
  - reflexivity.
  - reflexivity.
  - vm_compute. reflexivity.
Defined.

Lemma archiveWorkingFile_then_scanFolder_witness :
  ∃ r w2,
    FolderSync.scanFolder "john@co"
      (FolderSync.archiveWorkingFile Examples.two_hours_later
         Examples.file_of_amy Examples.folder_amy).2
    = (FS.Return r, w2)
    ∧ FolderSync.createBackupFileName Examples.two_hours_later
        (FolderSync.fileName Examples.file_of_amy)
      ∈ FolderSync.backupFiles r
    ∧ ∀ wf, wf ∈ FolderSync.workingFiles r
            ↔ FolderSync.fileName wf
              ≠ FolderSync.fileName Examples.file_of_amy
              ∧ (∃ d, FS.entries Examples.folder_amy
                      !! FolderSync.fileName wf = Some (FS.File d))
              ∧ FolderSync.handle wf = FolderSync.fileName wf
              ∧ FolderSync.extractEmailFromFileName (FolderSync.fileName wf)
                = Some (FolderSync.email wf).
Proof.
  apply (archiveWorkingFile_then_scanFolder Examples.two_hours_later
           Examples.folder_amy _ Examples.file_of_amy "EDITS" "john@co").
  - reflexivity.
  - reflexivity.
  - vm_compute. reflexivity.
  - vm_compute. constructor.
Defined.

(** ** More on working files and the base *)

Section FilesMore.
Import Str FS FolderSync.

Lemma createWorkingFileFromBase_wp (baseHandle : FileSystemFileHandle)
    (author data : string) (es : gmap string entry) :
  es !! baseHandle = Some (File data) →
  es !! createWorkingFileName author ≠ Some Directory →
  wp false (createWorkingFileFromBase baseHandle author)
    (λ r es',
       r = Return (createWorkingFileName author)
       ∧ es' = <[createWorkingFileName author := File data]> es) es.
Proof.
  intros Hbase Hdir. unfold createWorkingFileFromBase.
  wp_seq. apply wp_getFile; [done|]. rewrite Hbase.
  wp_seq. apply wp_arrayBuffer; [done|].
  wp_seq. apply wp_getFileHandle; [done|].
  destruct (es !! createWorkingFileName author) as [[old|]|] eqn:Ewf;
    [|done|].
  - wp_seq. apply wp_createWritable; [done|]. rewrite Ewf.
    wp_seq. apply wp_write; [done|].
    wp_seq. apply wp_close; [done|]. by apply wp_ret.
  - wp_seq. apply wp_createWritable; [done|]. rewrite lookup_insert_eq.
    wp_seq. apply wp_write; [done|].
    wp_seq. apply wp_close; [done|]. apply wp_ret. split; [done|].
    simpl. by rewrite insert_insert_eq.
Qed.

Lemma readDatabaseFile_wp faulty (h : FileSystemFileHandle)
    (es : gmap string entry) :
  wp faulty (readDatabaseFile h)
    (λ r es',
       es' = es
       ∧ match r with
         | Return data => es !! h = Some (File data)
         | Throw NotFoundError => ∀ data, es !! h ≠ Some (File data)
         | Throw _ => faulty = true
         end) es.
Proof.
  unfold readDatabaseFile.
  wp_seq. apply wp_getFile; [done|].
  destruct (es !! h) as [[data|]|] eqn:E.
  - apply wp_arrayBuffer; done.
  - done.
  - done.
Qed.

(** X14. Without storage failure, once a working file has been made
    from the base for an author (a non-empty name with no line
    terminator), reading that file gives the bytes of the base, and a
    scan for that author, or for the same name in another letter case,
    lists the file as a working file of the author and reports a
    working file of the current user. *)
Theorem createWorkingFileFromBase_then_read_and_scan (w : world)
    (baseHandle : FileSystemFileHandle) (author currentAuthor data : string) :
  fault_free w →
  entries w !! baseHandle = Some (File data) →
  entries w !! createWorkingFileName author ≠ Some Directory →
  dot_plus author = true →
  toLowerCase currentAuthor = toLowerCase author →
  ∃ w1 w2 w3 r,
    createWorkingFileFromBase baseHandle author w
    = (Return (createWorkingFileName author), w1)
    ∧ readDatabaseFile (createWorkingFileName author) w1 = (Return data, w2)
    ∧ scanFolder currentAuthor w2 = (Return r, w3)
    ∧ {| handle := createWorkingFileName author; email := author;
         fileName := createWorkingFileName author |} ∈ workingFiles r
    ∧ is_Some (myWorkingFile r)
    ∧ entries w3 = <[createWorkingFileName author := File data]> (entries w).
Proof.
  intros Hff Hbase Hdir Hdot Hcase.
  destruct (wp_run_schedule false _ _ w
              (createWorkingFileFromBase_wp baseHandle author data _
                 Hbase Hdir) (schedule_fault_free _ Hff))
    as (r1 & w1 & E1 & [-> Hw1] & Hff1%schedule_false_fault_free).
  assert (entries w1 !! createWorkingFileName author = Some (File data))
    as Hfile by (by rewrite Hw1, lookup_insert_eq).
  destruct (wp_run_schedule false _ _ w1
              (readDatabaseFile_wp false (createWorkingFileName author) _)
              (schedule_fault_free _ Hff1))
    as (r2 & w2 & E2 & [Hw2 Hr2] & Hff2%schedule_false_fault_free).
  destruct r2 as [data2|e].
  2:{ destruct e; try done. by destruct (Hr2 data). }
  assert (data2 = data) as -> by congruence.
  destruct (scanFolder_run currentAuthor w2 Hff2) as (w3 & E3 & Hw3).
  pose proof (match_WORKING_FILE_PATTERN_create author Hdot) as Hmatch.
  assert (extractEmailFromFileName (createWorkingFileName author)
          = Some author) as Hemail.
  { unfold extractEmailFromFileName. by rewrite Hmatch. }
  eexists w1, w2, w3, _. split; [done|]. split; [done|]. split; [exact E3|].
  cbn [baseFile workingFiles backupFiles needsMerge myWorkingFile].
  assert ((createWorkingFileName author, file)
          ∈ prod_map id entry_kind <$> map_to_list (entries w2)) as Hin.
  { apply elem_of_dir_entries. exists data. by rewrite Hw2. }
  split_and!.
  - apply scan_working_records. right. by simpl.
  - apply scan_myWorkingFile_found. right.
    exists (createWorkingFileName author), author. by split_and!.
  - by rewrite Hw3, Hw2.
Qed.

Lemma saveToWorkingFile_wp faulty (workingHandle : FileSystemFileHandle)
    (data : string) (es : gmap string entry) :
  wp faulty (saveToWorkingFile workingHandle data)
    (λ r es',
       match r with
       | Return _ =>
           (∃ old, es !! workingHandle = Some (File old))
           ∧ es' = <[workingHandle := File data]> es
       | Throw NotFoundError =>
           es' = es ∧ ∀ old, es !! workingHandle ≠ Some (File old)
       | Throw _ => es' = es ∧ faulty = true
       end) es.
Proof.
  unfold saveToWorkingFile.
  wp_seq. apply wp_createWritable; [done|].
  destruct (es !! workingHandle) as [[old|]|] eqn:E; [|done..].
  wp_seq. apply wp_write; [done|].
  apply wp_close; [done|]. split; [eauto | done].
Qed.

(** X15. Saving to a working file. Whichever storage calls fail,
    [saveToWorkingFile] leaves the folder as it was when it throws and
    changes nothing but the contents of the file when it returns; it
    never creates a file: with no file behind the handle it throws
    NotFoundError. Without storage failure it returns for an existing
    file, and [readDatabaseFile] then gives back the data saved. *)
Theorem saveToWorkingFile_then_read (w : world)
    (workingHandle : FileSystemFileHandle) (data : string) :
  ∃ r w1,
    saveToWorkingFile workingHandle data w = (r, w1)
    ∧ match r with
      | Return _ => entries w1 = <[workingHandle := File data]> (entries w)
      | Throw _ => entries w1 = entries w
      end
    ∧ ((∀ old, entries w !! workingHandle ≠ Some (File old)) →
       ∃ e, r = Throw e)
    ∧ (fault_free w →
       (∃ old, entries w !! workingHandle = Some (File old)) →
       r = Return ()
       ∧ ∃ w2, readDatabaseFile workingHandle w1 = (Return data, w2)
               ∧ entries w2 = entries w1).
Proof.
  destruct (wp_run true _ _ w
              (saveToWorkingFile_wp true workingHandle data (entries w))
              (schedule_any _)) as (r & w1 & E & HQ).
  exists r, w1. split; [done|]. split_and!.
  - destruct r as [[]|e]; [by destruct HQ|]. by destruct e, HQ.
  - intros Hnone. destruct r as [[]|e]; [|by exists e].
    destruct HQ as [[old Hold] _]. by destruct (Hnone old).
  - intros Hff [old Hold].
    destruct (wp_run_schedule false _ _ w
                (saveToWorkingFile_wp false workingHandle data (entries w))
                (schedule_fault_free _ Hff))
      as (r' & w1' & E' & HQ' & Hff1%schedule_false_fault_free).
    assert (r' = r ∧ w1' = w1) as [-> ->] by (split; congruence).
    destruct r as [[]|e].
    2:{ destruct e, HQ' as [_ H]; try done. by destruct (H old). }
    destruct HQ' as [_ Hw1]. split; [done|].
    destruct (wp_run false _ _ w1
                (readDatabaseFile_wp false workingHandle _)
                (schedule_fault_free _ Hff1)) as (r2 & w2 & E2 & Hw2 & Hr2).
    rewrite Hw1, lookup_insert_eq in Hr2.
    destruct r2 as [data2|e].
    + exists w2. split; [|done]. by assert (data2 = data) as -> by congruence.
    + destruct e; try done. by destruct (Hr2 data).
Qed.

Lemma createEmptyBase_fresh_wp faulty (initialDbData : string)
    (es : gmap string entry) :
  es !! BASE_FILE_NAME = None →
  wp faulty (createEmptyBase initialDbData)
    (λ r es',
       match r with
       | Return h => h = BASE_FILE_NAME
                     ∧ es' = <[BASE_FILE_NAME := File initialDbData]> es
       | Throw _ =>
           faulty = true
           ∧ (es' = es ∨ es' = <[BASE_FILE_NAME := File EmptyString]> es)
       end) es.
Proof.
  intros Hbase. unfold createEmptyBase.
  wp_seq. apply wp_getFileHandle; [by intros ->; auto|]. rewrite Hbase.
  wp_seq. apply wp_createWritable; [by intros ->; auto|].
  rewrite lookup_insert_eq.
  wp_seq. apply wp_write; [by intros ->; auto|].
  wp_seq. apply wp_close; [by intros ->; auto|]. apply wp_ret.
  split; [done|]. simpl. by rewrite insert_insert_eq.
Qed.

(** X16. Creating the base in a folder that has none is not done in one
    step. When [createEmptyBase] returns, the base holds the initial
    data and nothing else has changed, which is what happens without
    storage failure; when it throws, the folder is as it was or has an
    empty base file and nothing else changed; and a storage failure on
    the second call does leave that empty base behind. *)
Theorem createEmptyBase_in_empty_folder (w : world) (initialDbData : string) :
  entries w !! BASE_FILE_NAME = None →
  (∃ r w',
     createEmptyBase initialDbData w = (r, w')
     ∧ match r with
       | Return h =>
           h = BASE_FILE_NAME
           ∧ entries w' = <[BASE_FILE_NAME := File initialDbData]> (entries w)
       | Throw _ =>
           entries w' = entries w
           ∨ entries w' = <[BASE_FILE_NAME := File EmptyString]> (entries w)
       end
     ∧ (fault_free w → r = Return BASE_FILE_NAME))
  ∧ ∃ w',
      createEmptyBase initialDbData (World (entries w) [false; true])
      = (Throw NotAllowedError, w')
      ∧ entries w' = <[BASE_FILE_NAME := File EmptyString]> (entries w).
Proof.
  intros Hbase. split.
  - destruct (wp_run true _ _ w
                (createEmptyBase_fresh_wp true initialDbData _ Hbase)
                (schedule_any _)) as (r & w' & E & HQ).
    exists r, w'. split; [done|]. split.
    + destruct r; [done | by destruct HQ].
    + intros Hff.
      destruct (wp_run false _ _ w
                  (createEmptyBase_fresh_wp false initialDbData _ Hbase)
                  (schedule_fault_free _ Hff)) as (r2 & w2 & E2 & HQ2).
      assert (r2 = r) as -> by congruence.
      destruct r as [h|e]; [by destruct HQ2 as [-> _] | by destruct HQ2].
  - unfold createEmptyBase, getFileHandle, createWritable, mbind, IO_bind,
      storage_call, get_entries, put_entries, mret, IO_ret, throw.
    simpl. rewrite Hbase. simpl. eauto.
Qed.

End FilesMore.

(** ** More on checkpoints *)

Section CheckpointMore.
Import FolderSync.
Variable Date_parse : string → option Z.

(** X17. [shouldCheckpoint] is monotone: once a checkpoint is due it
    stays due as the clock advances, and it is due as well for every
    smaller number of days. *)
Theorem shouldCheckpoint_monotone (now later : Z)
    (lastCheckpointStr : option string) (maxDays fewerDays : Z) :
  now ≤ later →
  fewerDays ≤ maxDays →
  shouldCheckpoint Date_parse now lastCheckpointStr maxDays = true →
  shouldCheckpoint Date_parse later lastCheckpointStr fewerDays = true.
Proof.
  intros Hclock Hdays. rewrite !shouldCheckpoint_true_iff.
  intros [?|[?|(s & t & ? & ? & Hdue)]]; [auto..|].
  right. right. exists s, t. split; [done|]. split; [done|].
  unfold JSDate.msPerDay in *. lia.
Qed.

End CheckpointMore.

Lemma createWorkingFileFromBase_then_read_and_scan_witness :
  ∃ w1 w2 w3 r,
    FolderSync.createWorkingFileFromBase "schedule.base" "John@co"
      Examples.folder_amy
    = (FS.Return (FolderSync.createWorkingFileName "John@co"), w1)
    ∧ FolderSync.readDatabaseFile (FolderSync.createWorkingFileName "John@co")
        w1 = (FS.Return "BASE", w2)
    ∧ FolderSync.scanFolder "john@co" w2 = (FS.Return r, w3)
    ∧ {| FolderSync.handle := FolderSync.createWorkingFileName "John@co";
         FolderSync.email := "John@co";
         FolderSync.fileName := FolderSync.createWorkingFileName "John@co" |}
      ∈ FolderSync.workingFiles r
    ∧ is_Some (FolderSync.myWorkingFile r)
    ∧ FS.entries w3
      = <[FolderSync.createWorkingFileName "John@co" := FS.File "BASE"]>
          (FS.entries Examples.folder_amy).
Proof.
  apply (createWorkingFileFromBase_then_read_and_scan Examples.folder_amy
           "schedule.base" "John@co" "john@co" "BASE").
  - constructor.
  - reflexivity.
  - vm_compute. discriminate.
  - reflexivity.
  - reflexivity.
Defined.

Lemma createEmptyBase_in_empty_folder_witness :
  (∃ r w',
     FolderSync.createEmptyBase "NEW" (FS.World ∅ []) = (r, w')
     ∧ match r with
       | FS.Return h =>
           h = FolderSync.BASE_FILE_NAME
           ∧ FS.entries w'
             = <[FolderSync.BASE_FILE_NAME := FS.File "NEW"]> ∅
       | FS.Throw _ =>
           FS.entries w' = ∅
           ∨ FS.entries w'
             = <[FolderSync.BASE_FILE_NAME := FS.File EmptyString]> ∅
       end
     ∧ (FS.fault_free (FS.World ∅ []) →
        r = FS.Return FolderSync.BASE_FILE_NAME))
  ∧ ∃ w',
      FolderSync.createEmptyBase "NEW" (FS.World ∅ [false; true])
      = (FS.Throw FS.NotAllowedError, w')
      ∧ FS.entries w'
        = <[FolderSync.BASE_FILE_NAME := FS.File EmptyString]> ∅.
Proof.
  apply (createEmptyBase_in_empty_folder (FS.World ∅ []) "NEW").
  reflexivity.
Defined.

Lemma shouldCheckpoint_monotone_witness :
  FolderSync.shouldCheckpoint JSDate.iso_parse
    (Examples.jan_4 + 1) (Some "2025-01-01T00:00:00.000Z") 2 = true.
Proof.
  apply (shouldCheckpoint_monotone JSDate.iso_parse Examples.jan_4
           (Examples.jan_4 + 1) (Some "2025-01-01T00:00:00.000Z") 3 2).
  - lia.
  - lia.
  - vm_compute. reflexivity.
Defined.

(** ** The resolutions of the conflict dialog *)

Section Resolutions.
Import MergeConflictDialog.
Implicit Types conflicts : list MergeConflict.

Lemma setAllResolutions_go conflicts (choice : Choice) :
  ∀ (acc : gmap string Choice) k,
    foldl (λ newResolutions conflict, <[key conflict := choice]> newResolutions)
      acc conflicts !! k
    = if decide (k ∈ key <$> conflicts) then Some choice else acc !! k.
Proof.
  induction conflicts as [|c conflicts IH]; intros acc k; cbn [foldl].
  - rewrite fmap_nil. by destruct (decide (k ∈ [])) as [?%elem_of_nil|].
  - rewrite IH, fmap_cons.
    destruct (decide (k ∈ key <$> conflicts)) as [Hin|Hnin].
    + rewrite decide_True; [done | by right].
    + destruct (decide (k = key c)) as [->|Hne].
      * rewrite lookup_insert_eq, decide_True; [done | left].
      * rewrite lookup_insert_ne by done.
        rewrite decide_False; [done|].
        intros [?|?]%elem_of_cons; done.
Qed.

Lemma setAllResolutions_lookup conflicts (choice : Choice) (k : string) :
  setAllResolutions conflicts choice !! k
  = if decide (k ∈ key <$> conflicts) then Some choice else None.
Proof. unfold setAllResolutions. by rewrite setAllResolutions_go. Qed.

Lemma allResolved_spec conflicts (resolutions : gmap string Choice) :
  allResolved conflicts resolutions = true
  ↔ ∀ c, c ∈ conflicts → is_Some (resolutions !! key c).
Proof.
  unfold allResolved. rewrite forallb_forall. split.
  - intros H c Hc. apply list_elem_of_In, H, bool_decide_eq_true in Hc.
    by destruct (resolutions !! key c).
  - intros H c Hc. apply list_elem_of_In, H in Hc as [v Hv].
    apply bool_decide_eq_true. by rewrite Hv.
Qed.

(** X18. The buttons that set all resolutions agree with the quick
    actions: after [setAllResolutions choice] every conflict is
    resolved, and submitting the advanced form sends, for each conflict
    in order, its table and sync id with that choice; this is what
    Keep All Original, Keep All A and Keep All B send. A form in which
    nothing was chosen sends the original for every conflict. *)
Theorem setAllResolutions_then_submit conflicts (choice : Choice) :
  allResolved conflicts (setAllResolutions conflicts choice) = true
  ∧ handleAdvancedSubmit conflicts (setAllResolutions conflicts choice)
    = (λ c, {| resolution_syncId := syncId c; resolution_table := table c;
               resolution_choice := choice |}) <$> conflicts
  ∧ handleAdvancedSubmit conflicts (setAllResolutions conflicts choice_base)
    = handleKeepAllOriginal conflicts
  ∧ handleAdvancedSubmit conflicts (setAllResolutions conflicts choice_a)
    = handleKeepAllA conflicts
  ∧ handleAdvancedSubmit conflicts (setAllResolutions conflicts choice_b)
    = handleKeepAllB conflicts
  ∧ handleAdvancedSubmit conflicts ∅ = handleKeepAllOriginal conflicts.
Proof.
  assert (∀ ch,
            handleAdvancedSubmit conflicts (setAllResolutions conflicts ch)
            = (λ c, {| resolution_syncId := syncId c;
                       resolution_table := table c;
                       resolution_choice := ch |}) <$> conflicts) as Hsubmit.
  { intros ch. unfold handleAdvancedSubmit.
    apply list_fmap_ext. intros i c Hc.
    rewrite setAllResolutions_lookup, decide_True; [done|].
    apply list_elem_of_fmap. exists c. split; [done|].
    by eapply list_elem_of_lookup_2. }
  split_and!; try apply Hsubmit.
  - apply allResolved_spec. intros c Hc.
    rewrite setAllResolutions_lookup, decide_True; [done|].
    apply list_elem_of_fmap. by exists c.
  - unfold handleAdvancedSubmit, handleKeepAllOriginal.
    apply list_fmap_ext. intros i c _. by rewrite lookup_empty.
Qed.

Lemma reachable_keys conflicts (resolutions : gmap string Choice) :
  reachable conflicts resolutions →
  ∀ k, is_Some (resolutions !! k) → k ∈ key <$> conflicts.
Proof.
  induction 1 as [|resolutions choice _ _|resolutions c value _ IH Hc];
    intros k [v Hv].
  - by rewrite lookup_empty in Hv.
  - rewrite setAllResolutions_lookup in Hv.
    by destruct (decide (k ∈ key <$> conflicts)).
  - unfold onChange in Hv. destruct (decide (k = key c)) as [->|Hne].
    + apply list_elem_of_fmap. by exists c.
    + rewrite lookup_insert_ne in Hv by done. apply IH. by exists v.
Qed.

(** X19. The counter of the button that applies the resolutions. In
    every state that the dialog can reach, the resolutions recorded are
    resolutions of conflicts of the list, there are no more of them
    than there are conflicts, and all conflicts are resolved (the
    button is enabled) exactly when there are as many as the conflicts
    have distinct keys; for conflicts with distinct keys the button is
    enabled exactly when the counter shows n of n. *)
Theorem allResolved_counter conflicts (resolutions : gmap string Choice) :
  reachable conflicts resolutions →
  (∀ k, is_Some (resolutions !! k) → k ∈ key <$> conflicts)
  ∧ (size resolutions ≤ length conflicts)%nat
  ∧ (allResolved conflicts resolutions = true
     ↔ size resolutions
       = size (list_to_set (key <$> conflicts) : gset string))
  ∧ (NoDup (key <$> conflicts) →
     (allResolved conflicts resolutions = true
      ↔ size resolutions = length conflicts)).
Proof.
  intros Hreach. pose proof (reachable_keys _ _ Hreach) as Hkeys.
  set (keys := list_to_set (key <$> conflicts) : gset string).
  assert (dom resolutions ⊆ keys) as Hdom.
  { intros k Hk. apply elem_of_dom in Hk. apply elem_of_list_to_set. auto. }
  assert (size keys ≤ length conflicts)%nat as Hsize.
  { rewrite <- (length_fmap key conflicts). unfold keys, size, set_size.
    simpl. apply submseteq_length, NoDup_submseteq; [apply NoDup_elements|].
    by intros x Hx%elem_of_elements%elem_of_list_to_set. }
  assert (allResolved conflicts resolutions = true
          ↔ size resolutions = size keys) as Hiff.
  { rewrite allResolved_spec, <- size_dom. split.
    - intros Hall. f_equal. apply set_eq. intros k. split; [apply Hdom|].
      intros ([c] & -> & Hc)%elem_of_list_to_set%list_elem_of_fmap.
      apply elem_of_dom. by apply Hall.
    - intros Hsz c Hc. apply elem_of_dom.
      assert (dom resolutions = keys) as Heq.
      { apply set_subseteq_size_eq; [done | lia]. }
      rewrite Heq. apply elem_of_list_to_set, list_elem_of_fmap.
      by exists c. }
  split_and!; [done | | done |].
  - rewrite <- size_dom. pose proof (subseteq_size _ _ Hdom). lia.
  - intros Hnd. rewrite Hiff. unfold keys.
    rewrite size_list_to_set by done. by rewrite length_fmap.
Qed.

Lemma key_inj_go (t1 t2 s1 s2 : string) :
  Str.forallb (λ c, negb (Ascii.eqb c ":")) t1 = true →
  Str.forallb (λ c, negb (Ascii.eqb c ":")) t2 = true →
  t1 +:+ ":" +:+ s1 = t2 +:+ ":" +:+ s2 →
  t1 = t2 ∧ s1 = s2.
Proof.
  revert t2. induction t1 as [|c1 t1 IH]; intros [|c2 t2] H1 H2 E.
  - change (String ":" s1 = String ":" s2) in E. by injection E as ->.
  - change (String ":" s1 = String c2 (t2 +:+ ":" +:+ s2)) in E.
    injection E as <- _. by simpl in H2.
  - change (String c1 (t1 +:+ ":" +:+ s1) = String ":" s2) in E.
    injection E as -> _. by simpl in H1.
  - change (String c1 (t1 +:+ ":" +:+ s1) = String c2 (t2 +:+ ":" +:+ s2))
      in E.
    injection E as -> E. simpl in H1, H2.
    apply andb_true_iff in H1 as [_ H1]. apply andb_true_iff in H2 as [_ H2].
    by destruct (IH t2 H1 H2 E) as [-> ->].
Qed.

(** X20. What one radio group changes. A choice made for a conflict is
    sent, on submission, for every conflict of the list that has the
    same key table:syncId, and the other conflicts are sent as they
    were. Two conflicts share a key without sharing table and sync id
    only when the name of a table contains a colon. *)
Theorem onChange_then_submit conflicts (resolutions : gmap string Choice)
    (c : MergeConflict) (value : Choice) :
  handleAdvancedSubmit conflicts (onChange resolutions (key c) value)
  = (λ c', {| resolution_syncId := syncId c'; resolution_table := table c';
              resolution_choice :=
                if decide (key c' = key c) then value
                else default choice_base (resolutions !! key c') |})
    <$> conflicts
  ∧ ∀ c1 c2,
      Str.forallb (λ x, negb (Ascii.eqb x ":")) (table c1) = true →
      Str.forallb (λ x, negb (Ascii.eqb x ":")) (table c2) = true →
      key c1 = key c2 →
      table c1 = table c2 ∧ syncId c1 = syncId c2.
Proof.
  split.
  - unfold handleAdvancedSubmit, onChange. apply list_fmap_ext.
    intros i c' _. destruct (decide (key c' = key c)) as [->|Hne].
    + by rewrite lookup_insert_eq.
    + by rewrite lookup_insert_ne.
  - intros c1 c2 H1 H2. apply key_inj_go; done.
Qed.

Lemma conflictsByTable_thrown conflicts :
  foldl group_conflict None conflicts = None.
Proof. by induction conflicts. Qed.

Lemma filter_table_fresh (t : string) (done : list MergeConflict) :
  t ∉ table <$> done → filter (λ c, table c = t) done = [].
Proof.
  intros Hnin. induction done as [|c done IH]; [done|].
  rewrite fmap_cons, not_elem_of_cons in Hnin. destruct Hnin as [Hne Hnin].
  rewrite filter_cons, decide_False by done. by apply IH.
Qed.

Lemma group_insert (done : list MergeConflict)
    (g : gmap string (list MergeConflict)) (c : MergeConflict) :
  (∀ t, g !! t = if decide (t ∈ table <$> done)
                 then Some (filter (λ c, table c = t) done) else None) →
  ∀ t, <[table c := filter (λ c0, table c0 = table c) done ++ [c]]> g !! t
       = if decide (t ∈ table <$> (done ++ [c]))
         then Some (filter (λ c0, table c0 = t) (done ++ [c])) else None.
Proof.
  intros Hg t.
  assert (t ∈ table <$> (done ++ [c]) ↔ t ∈ table <$> done ∨ t = table c)
    as Hmem.
  { rewrite fmap_app, elem_of_app. simpl. by rewrite list_elem_of_singleton. }
  rewrite filter_app, filter_cons, filter_nil.
  destruct (decide (t = table c)) as [->|Hne].
  - rewrite lookup_insert_eq, !decide_True; [done..|]. apply Hmem. by right.
  - rewrite lookup_insert_ne, Hg by done.
    rewrite (decide_False (P := table c = t)) by done.
    rewrite app_nil_r.
    destruct (decide (t ∈ table <$> done)) as [Ht|Ht].
    + rewrite decide_True; [done|]. apply Hmem. by left.
    + rewrite decide_False; [done|]. rewrite Hmem. tauto.
Qed.

Lemma conflictsByTable_go conflicts :
  ∀ (done : list MergeConflict) (g : gmap string (list MergeConflict)),
    (∀ c, c ∈ done → table c ∉ Object_prototype_names) →
    (∀ t, g !! t = if decide (t ∈ table <$> done)
                   then Some (filter (λ c, table c = t) done) else None) →
    match foldl group_conflict (Some g) conflicts with
    | None => ∃ c, c ∈ conflicts ∧ table c ∈ Object_prototype_names
    | Some grouped =>
        (∀ c, c ∈ conflicts → table c ∉ Object_prototype_names)
        ∧ ∀ t, grouped !! t
               = if decide (t ∈ table <$> (done ++ conflicts))
                 then Some (filter (λ c, table c = t) (done ++ conflicts))
                 else None
    end.
Proof.
  induction conflicts as [|c conflicts IH]; intros done g Hdone Hg.
  - cbn [foldl]. split; [by intros c ?%elem_of_nil|].
    intros t. by rewrite app_nil_r.
  - cbn [foldl].
    assert (∀ g1,
              table c ∉ Object_prototype_names →
              (∀ t, g1 !! t
                    = if decide (t ∈ table <$> (done ++ [c]))
                      then Some (filter (λ c, table c = t) (done ++ [c]))
                      else None) →
              match foldl group_conflict (Some g1) conflicts with
              | None => ∃ c0, c0 ∈ c :: conflicts
                              ∧ table c0 ∈ Object_prototype_names
              | Some grouped =>
                  (∀ c0, c0 ∈ c :: conflicts →
                         table c0 ∉ Object_prototype_names)
                  ∧ ∀ t, grouped !! t
                         = if decide (t ∈ table <$> (done ++ c :: conflicts))
                           then Some (filter (λ c, table c = t)
                                        (done ++ c :: conflicts))
                           else None
              end) as Hstep.
    { intros g1 Hproto Hg1.
      specialize (IH (done ++ [c]) g1).
      destruct (foldl _ (Some g1) conflicts) as [grouped|].
      - destruct IH as [Hnone Hgrouped]; [|done|].
        { intros c0 [?| ->%list_elem_of_singleton]%elem_of_app; auto. }
        split.
        + intros c0 [-> |?]%elem_of_cons; auto.
        + intros t. rewrite Hgrouped. by rewrite <- app_assoc.
      - destruct IH as (c0 & Hc0 & Hp); [|done|].
        { intros c0 [?| ->%list_elem_of_singleton]%elem_of_app; auto. }
        exists c0. split; [by right | done]. }
    unfold group_conflict at 2. cbn [mbind option_bind].
    rewrite Hg. destruct (decide (table c ∈ table <$> done)) as [Hin|Hnin].
    + apply Hstep; [|by apply group_insert].
      apply list_elem_of_fmap in Hin as (c0 & -> & Hc0). auto.
    + destruct (decide (table c ∈ Object_prototype_names)) as [Hp|Hp].
      * rewrite conflictsByTable_thrown. exists c. split; [left | done].
      * apply Hstep; [done|].
        pose proof (group_insert done g c Hg) as Hins.
        by rewrite filter_table_fresh in Hins.
Qed.

(** X21. The conflicts grouped by table. When no conflict is on a table
    named like a property that every object inherits (constructor,
    toString, and the like) the grouping has, for each table with a
    conflict, exactly the conflicts of that table in the order of the
    list, and nothing for the other tables: the groups are not empty
    and every conflict is in one group, that of its table. When some
    conflict is on such a table the grouping throws. *)
Theorem conflictsByTable_groups conflicts :
  match conflictsByTable conflicts with
  | None => ∃ c, c ∈ conflicts ∧ table c ∈ Object_prototype_names
  | Some grouped =>
      (∀ c, c ∈ conflicts → table c ∉ Object_prototype_names)
      ∧ (∀ t, grouped !! t
              = if decide (t ∈ table <$> conflicts)
                then Some (filter (λ c, table c = t) conflicts) else None)
      ∧ (∀ t group, grouped !! t = Some group → group ≠ [])
      ∧ (∀ c, c ∈ conflicts →
              ∃ group, grouped !! table c = Some group ∧ c ∈ group)
  end.
Proof.
  unfold conflictsByTable.
  pose proof (conflictsByTable_go conflicts [] ∅) as H.
  destruct (foldl group_conflict (Some ∅) conflicts) as [grouped|].
  - destruct H as [Hproto Hgrouped]; [by intros c ?%elem_of_nil | |].
    { intros t. rewrite lookup_empty, decide_False; [done|].
      rewrite fmap_nil. apply not_elem_of_nil. }
    rewrite app_nil_l in Hgrouped. split_and!; [done..| |].
    + intros t group. rewrite Hgrouped.
      destruct (decide (t ∈ table <$> conflicts)) as [Hin|]; [|done].
      intros [= <-] Hnil.
      apply list_elem_of_fmap in Hin as (c & -> & Hc).
      assert (c ∈ filter (λ c0, table c0 = table c) conflicts) as Hf
        by (by apply list_elem_of_filter).
      rewrite Hnil in Hf. by apply elem_of_nil in Hf.
    + intros c Hc. eexists. rewrite Hgrouped, decide_True.
      * split; [done|]. by apply list_elem_of_filter.
      * apply list_elem_of_fmap. by exists c.
  - apply H; [by intros c ?%elem_of_nil|].
    intros t. rewrite lookup_empty, decide_False; [done|].
    rewrite fmap_nil. apply not_elem_of_nil.
Qed.

End Resolutions.

(** ** More on the differing fields *)

Section DifferencesMore.
Import MergeConflictDialog.

Lemma getDifferences_filter (a b : Row) :
  getDifferences (Some a) (Some b)
  = filter (λ key, is_bookkeeping key = false
                   ∧ formatValue (get a key) ≠ formatValue (get b key))
      (Set_of (Object_keys a ++ Object_keys b)).
Proof. unfold getDifferences. by rewrite differing_go. Qed.

(** X22. The differing fields do not depend on the side: a field is
    listed for A against B exactly when it is listed for B against A.
    A row against itself has no differing field, nor have two rows
    that agree on all fields but the bookkeeping ones; and whenever no
    field is listed, also with a row missing, the cell of differences
    reads All fields. *)
Theorem getDifferences_sides (a b : Row) :
  (∀ key, key ∈ getDifferences (Some a) (Some b)
          ↔ key ∈ getDifferences (Some b) (Some a))
  ∧ getDifferences (Some a) (Some a) = []
  ∧ ((∀ key, is_bookkeeping key = false → get a key = get b key) →
     getDifferences (Some a) (Some b) = [])
  ∧ (∀ rowA rowB, getDifferences rowA rowB = [] →
                  differencesCell rowA rowB = "All fields")
  ∧ differencesCell (Some a) (Some a) = "All fields"
  ∧ differencesCell None (Some b) = "All fields"
  ∧ differencesCell (Some a) None = "All fields".
Proof.
  assert (∀ x y : Row,
            (∀ key, is_bookkeeping key = false → get x key = get y key) →
            getDifferences (Some x) (Some y) = []) as Hsame.
  { intros x y Hxy. rewrite getDifferences_filter.
    destruct (filter _ _) as [|k l] eqn:E; [done|].
    assert (k ∈ k :: l) as Hk by left. rewrite <- E in Hk.
    apply list_elem_of_filter in Hk as [[Hk Hne] _].
    by rewrite (Hxy k Hk) in Hne. }
  assert (∀ rowA rowB, getDifferences rowA rowB = [] →
                       differencesCell rowA rowB = "All fields") as Hcell.
  { intros rowA rowB E. unfold differencesCell. by rewrite E. }
  split_and!;
    [|by apply Hsame|apply Hsame|exact Hcell|by apply Hcell, Hsame|done..].
  intros key. rewrite !getDifferences_filter, !list_elem_of_filter.
  destruct (Set_of_spec (Object_keys a ++ Object_keys b)) as [_ ->].
  destruct (Set_of_spec (Object_keys b ++ Object_keys a)) as [_ ->].
  rewrite !elem_of_app. split; intros [[? Hne] ?]; (split; [split|]);
    try done; try tauto; by intros E; apply Hne.
Qed.

End DifferencesMore.

(** ** More on the comparison of two databases *)

Section CompareMore.
Import MergeDialog.
Variable hashRow : row → string.

(** What the comparison of one table gives, by the rows of both
    sides. *)
Lemma analyzeTable_rows (myDb theirDb : Database) (t : TableInfo) :
  match myDb !! name t, theirDb !! name t with
  | Some myRows, Some theirRows =>
      ∃ d, analyzeTable hashRow myDb theirDb t = Some d
           ∧ table d = name t
           ∧ myCount d = Z.of_nat (length myRows)
           ∧ theirCount d = Z.of_nat (length theirRows)
           ∧ differenceType d
             = (if decide (length myRows ≠ length theirRows) then count
                else if decide (hashes hashRow myRows
                                ≠ hashes hashRow theirRows)
                     then content else none)
           ∧ hasDifferences d
             = match differenceType d with none => false | _ => true end
           ∧ (differenceType d = none → differenceDetails d = EmptyString)
  | _, _ => analyzeTable hashRow myDb theirDb t = None
  end.
Proof.
  unfold analyzeTable, exec_count, exec_select.
  destruct (myDb !! name t) as [myRows|]; simpl; [|done].
  destruct (theirDb !! name t) as [theirRows|]; simpl; [|done].
  set (mine := Z.of_nat (length myRows)).
  set (theirs := Z.of_nat (length theirRows)).
  destruct (Z.eqb_spec mine theirs) as [Heq|Hne]; simpl.
  - rewrite decide_False by (unfold mine, theirs in Heq; lia).
    destruct (Z.ltb_spec 0 mine) as [Hpos|Hzero].
    + destruct myRows as [|r1 myRows]; [simpl in *; lia|].
      destruct theirRows as [|r2 theirRows]; [simpl in *; lia|].
      set (A := hashes hashRow (r1 :: myRows)).
      set (B := hashes hashRow (r2 :: theirRows)).
      destruct ((0 <? only_in A B) || (0 <? only_in B A)) eqn:Ediff.
      * apply only_in_pos in Ediff. eexists. split; [done|].
        rewrite decide_True by done. by split_and!.
      * assert (A = B) as HAB.
        { destruct (decide (A = B)) as [|Hn]; [done|].
          apply only_in_pos in Hn. congruence. }
        eexists. split; [done|]. simpl.
        rewrite decide_False by (by intros []). by split_and!.
    + assert (myRows = []) as -> by (destruct myRows; [done | simpl in *; lia]).
      assert (theirRows = []) as ->
        by (destruct theirRows; [done | simpl in *; lia]).
      eexists. split; [done|]. simpl.
      rewrite decide_False by (by intros []). by split_and!.
  - eexists. split; [done|]. simpl.
    rewrite decide_True by (unfold mine, theirs in Hne; lia).
    by split_and!.
Qed.

Lemma analyzeDbDifferences_go (myDb theirDb : Database) (l : list TableInfo) :
  ∀ (diffs : list TableDiff) (initialChoices : gmap string Choice),
    let r :=
      foldl
        (λ '(diffs, initialChoices) t,
           match analyzeTable hashRow myDb theirDb t with
           | Some d => (diffs ++ [d], <[name t := mine]> initialChoices)
           | None => (diffs, initialChoices)
           end)
        (diffs, initialChoices) l in
    r.1 = diffs ++ omap (analyzeTable hashRow myDb theirDb) l
    ∧ ∀ n, r.2 !! n
           = if decide (n ∈ table <$> omap (analyzeTable hashRow myDb theirDb) l)
             then Some mine else initialChoices !! n.
Proof.
  induction l as [|t l IH]; intros diffs initialChoices.
  - split; [by rewrite app_nil_r|]. intros n.
    change (omap (analyzeTable hashRow myDb theirDb) []) with (@nil TableDiff).
    rewrite fmap_nil. by destruct (decide (n ∈ [])) as [?%elem_of_nil|].
  - change (omap (analyzeTable hashRow myDb theirDb) (t :: l))
      with (match analyzeTable hashRow myDb theirDb t with
            | Some d => d :: omap (analyzeTable hashRow myDb theirDb) l
            | None => omap (analyzeTable hashRow myDb theirDb) l
            end).
    cbn [foldl].
    pose proof (analyzeTable_rows myDb theirDb t) as Ht.
    destruct (analyzeTable hashRow myDb theirDb t) as [d|] eqn:Ed.
    + destruct (IH (diffs ++ [d]) (<[name t := mine]> initialChoices))
        as [IH1 IH2].
      assert (table d = name t) as Htable.
      { destruct (myDb !! name t), (theirDb !! name t); try done.
        destruct Ht as (d' & [= <-] & ? & _). done. }
      split; [by rewrite IH1, <- app_assoc|].
      intros n. rewrite IH2, fmap_cons, Htable.
      destruct (decide (n ∈ table <$> omap _ l)) as [Hin|Hnin].
      * rewrite decide_True; [done | by right].
      * destruct (decide (n = name t)) as [->|Hne].
        -- rewrite lookup_insert_eq, decide_True; [done | left].
        -- rewrite lookup_insert_ne by done.
           rewrite decide_False; [done|].
           intros [?|?]%elem_of_cons; done.
    + apply IH.
Qed.

Lemma analyzed_tables (myDb theirDb : Database) (l : list TableInfo) :
  table <$> omap (analyzeTable hashRow myDb theirDb) l
  = filter (λ n, is_Some (myDb !! n) ∧ is_Some (theirDb !! n)) (name <$> l).
Proof.
  induction l as [|t l IH]; [done|].
  change (omap (analyzeTable hashRow myDb theirDb) (t :: l))
    with (match analyzeTable hashRow myDb theirDb t with
          | Some d => d :: omap (analyzeTable hashRow myDb theirDb) l
          | None => omap (analyzeTable hashRow myDb theirDb) l
          end).
  rewrite fmap_cons, filter_cons.
  pose proof (analyzeTable_rows myDb theirDb t) as Ht.
  destruct (myDb !! name t) as [myRows|] eqn:Emy.
  - destruct (theirDb !! name t) as [theirRows|] eqn:Etheir.
    + destruct Ht as (d & -> & Htable & _).
      rewrite decide_True by (split; by eexists).
      by rewrite fmap_cons, IH, Htable.
    + rewrite Ht, decide_False; [done|].
      intros [_ [x Hx]]. simpl in Hx. congruence || done.
  - rewrite decide_False.
    + by destruct (theirDb !! name t); rewrite Ht.
    + intros [[x Hx] _]. simpl in Hx. congruence || done.
Qed.

(** X23. Which tables are compared. [analyzeDbDifferences] reports, in
    the order of the list of data tables and each once, exactly the
    data tables that both databases have; a table missing on a side is
    left out, and no other table is looked at. The initial choice is
    mine for every table reported and there is none for any other; and
    each table reported counts either as different or as identical. *)
Theorem analyzeDbDifferences_tables (myDb theirDb : Database) :
  let tableDiffs := (analyzeDbDifferences hashRow myDb theirDb).1 in
  let choices := (analyzeDbDifferences hashRow myDb theirDb).2 in
  table <$> tableDiffs
  = filter (λ n, is_Some (myDb !! n) ∧ is_Some (theirDb !! n))
      (name <$> ALL_DATA_TABLES)
  ∧ NoDup (table <$> tableDiffs)
  ∧ (∀ n, choices !! n
          = if decide (n ∈ table <$> tableDiffs) then Some mine else None)
  ∧ (length (tablesWithDifferences tableDiffs)
     + length (tablesWithoutDifferences tableDiffs)
     = length tableDiffs)%nat.
Proof.
  intros tableDiffs choices.
  destruct (analyzeDbDifferences_go myDb theirDb ALL_DATA_TABLES [] ∅)
    as [Hdiffs Hchoices].
  fold (analyzeDbDifferences hashRow myDb theirDb) in Hdiffs, Hchoices.
  fold tableDiffs in Hdiffs. fold choices in Hchoices.
  rewrite app_nil_l in Hdiffs.
  assert (table <$> tableDiffs
          = filter (λ n, is_Some (myDb !! n) ∧ is_Some (theirDb !! n))
              (name <$> ALL_DATA_TABLES)) as Htables.
  { rewrite Hdiffs. apply analyzed_tables. }
  split_and!.
  - done.
  - rewrite Htables. apply NoDup_filter.
    apply (bool_decide_unpack _). vm_compute. exact I.
  - intros n. rewrite Hchoices, <- Hdiffs. by rewrite lookup_empty.
  - unfold tablesWithDifferences, tablesWithoutDifferences.
    clear. induction tableDiffs as [|d l IH]; [done|].
    rewrite !filter_cons. destruct (hasDifferences d) eqn:E.
    + rewrite decide_True, decide_False by (simpl; congruence). simpl. lia.
    + rewrite decide_False, decide_True by (simpl; congruence). simpl. lia.
Qed.

Lemma omap_analyzeTable_Forall2 (P : TableDiff → TableDiff → Prop)
    (db1 db2 db3 db4 : Database) (l : list TableInfo) :
  (∀ t d, analyzeTable hashRow db1 db2 t = Some d →
          ∃ d', analyzeTable hashRow db3 db4 t = Some d' ∧ P d d') →
  (∀ t, analyzeTable hashRow db1 db2 t = None →
        analyzeTable hashRow db3 db4 t = None) →
  Forall2 P (omap (analyzeTable hashRow db1 db2) l)
    (omap (analyzeTable hashRow db3 db4) l).
Proof.
  intros Hsome Hnone. induction l as [|t l IH]; [constructor|].
  change (omap (analyzeTable hashRow db1 db2) (t :: l))
    with (match analyzeTable hashRow db1 db2 t with
          | Some d => d :: omap (analyzeTable hashRow db1 db2) l
          | None => omap (analyzeTable hashRow db1 db2) l
          end).
  change (omap (analyzeTable hashRow db3 db4) (t :: l))
    with (match analyzeTable hashRow db3 db4 t with
          | Some d => d :: omap (analyzeTable hashRow db3 db4) l
          | None => omap (analyzeTable hashRow db3 db4) l
          end).
  destruct (analyzeTable hashRow db1 db2 t) as [d|] eqn:E.
  - destruct (Hsome t d E) as (d' & -> & HP). by constructor.
  - by rewrite (Hnone t E).
Qed.

(** X24. The comparison does not depend on the side, and finds nothing
    between a database and itself. With the two databases exchanged the
    same tables are reported in the same order, each with the two
    counts exchanged and with the same verdict: different or not, by
    count or by content. A database compared with itself gives no
    table with differences. *)
Theorem analyzeDbDifferences_sides (myDb theirDb : Database) :
  Forall2
    (λ d d', table d' = table d
             ∧ myCount d' = theirCount d ∧ theirCount d' = myCount d
             ∧ hasDifferences d' = hasDifferences d
             ∧ differenceType d' = differenceType d)
    (analyzeDbDifferences hashRow myDb theirDb).1
    (analyzeDbDifferences hashRow theirDb myDb).1
  ∧ tablesWithDifferences (analyzeDbDifferences hashRow myDb myDb).1 = []
  ∧ Forall (λ d, myCount d = theirCount d ∧ differenceType d = none
                 ∧ differenceDetails d = EmptyString)
      (analyzeDbDifferences hashRow myDb myDb).1.
Proof.
  unfold analyzeDbDifferences.
  destruct (analyzeDbDifferences_go myDb theirDb ALL_DATA_TABLES [] ∅)
    as [-> _].
  destruct (analyzeDbDifferences_go theirDb myDb ALL_DATA_TABLES [] ∅)
    as [-> _].
  destruct (analyzeDbDifferences_go myDb myDb ALL_DATA_TABLES [] ∅)
    as [-> _].
  rewrite !app_nil_l.
  assert (Forall (λ d, myCount d = theirCount d ∧ differenceType d = none
                       ∧ differenceDetails d = EmptyString
                       ∧ hasDifferences d = false)
            (omap (analyzeTable hashRow myDb myDb) ALL_DATA_TABLES)) as Hself.
  { apply Forall_forall. intros d (t & Ht & Hd)%list_elem_of_omap.
    pose proof (analyzeTable_rows myDb myDb t) as Hrows.
    destruct (myDb !! name t) as [rows|]; [|congruence].
    destruct Hrows as (d' & E & _ & Hm & Hc & Htype & Hhas & Hdetails).
    assert (d' = d) as -> by congruence.
    rewrite !decide_False in Htype by (by intros []).
    rewrite Htype in Hhas. split_and!; auto. congruence. }
  split_and!.
  - apply omap_analyzeTable_Forall2.
    + intros t d Hd.
      pose proof (analyzeTable_rows myDb theirDb t) as H1.
      pose proof (analyzeTable_rows theirDb myDb t) as H2.
      destruct (myDb !! name t) as [myRows|]; [|congruence].
      destruct (theirDb !! name t) as [theirRows|]; [|congruence].
      destruct H1 as (d1 & E1 & Ht1 & Hm1 & Hc1 & Hty1 & Hh1 & _).
      destruct H2 as (d2 & E2 & Ht2 & Hm2 & Hc2 & Hty2 & Hh2 & _).
      assert (d1 = d) as -> by congruence.
      exists d2. split; [done|].
      assert (differenceType d2 = differenceType d) as Hty.
      { rewrite Hty1, Hty2.
        destruct (decide (length myRows ≠ length theirRows)).
        - by rewrite decide_True by auto.
        - rewrite decide_False by auto.
          destruct (decide (hashes hashRow myRows
                            ≠ hashes hashRow theirRows)).
          + by rewrite decide_True by auto.
          + by rewrite decide_False by auto. }
      rewrite Hh1, Hh2, Hty. split_and!; congruence.
    + intros t Hnone.
      pose proof (analyzeTable_rows myDb theirDb t) as H1.
      pose proof (analyzeTable_rows theirDb myDb t) as H2.
      destruct (myDb !! name t), (theirDb !! name t); try done.
      destruct H1 as (d1 & E1 & _). congruence.
  - unfold tablesWithDifferences.
    induction Hself as [|d l (_ & _ & _ & Hd) _ IH]; [done|].
    rewrite filter_cons, decide_False; [done | congruence].
  - eapply Forall_impl; [exact Hself|]. intros d (? & ? & ? & _). done.
Qed.

End CompareMore.

(** ** Moving a menu item *)

Section Moves.
Import SpecialEvents.
Implicit Types menuItems : list MenuItem.

Lemma header_at_false menuItems (j : nat) (m : MenuItem) :
  header_at menuItems j = false → menuItems !! j = Some m → is_header m = 0.
Proof.
  unfold header_at. intros H E. rewrite E in H.
  apply negb_false_iff, Z.eqb_eq in H. done.
Qed.

Lemma sectionStart_from_spec menuItems (i : nat) :
  (sectionStart_from menuItems i ≤ S i)%nat
  ∧ (∀ j, (sectionStart_from menuItems i ≤ j ≤ i)%nat →
          header_at menuItems j = false).
Proof.
  induction i as [|i [IH1 IH2]]; simpl.
  - destruct (header_at menuItems 0) eqn:E.
    + split; [lia|]. intros j ?. lia.
    + split; [lia|]. intros j ?. by replace j with 0%nat by lia.
  - destruct (header_at menuItems (S i)) eqn:E.
    + split; [lia|]. intros j ?. lia.
    + split; [lia|]. intros j ?.
      destruct (decide (j = S i)) as [->|]; [done|]. apply IH2. lia.
Qed.

Lemma sectionEnd_from_spec (rest : list MenuItem) :
  ∀ i last,
    last = i + Z.of_nat (length rest) - 1 →
    i - 1 ≤ sectionEnd_from rest i last ≤ last
    ∧ ∀ j, i ≤ j ≤ sectionEnd_from rest i last →
           ∃ m, rest !! Z.to_nat (j - i) = Some m ∧ is_header m = 0.
Proof.
  induction rest as [|m rest IH]; intros i last Hlast; simpl in *.
  - split; [lia|]. intros j ?. lia.
  - destruct (Z.eqb_spec (is_header m) 0) as [Hm|Hm]; simpl.
    + destruct (IH (i + 1) last ltac:(lia)) as [IH1 IH2].
      split; [lia|]. intros j Hj.
      destruct (decide (j = i)) as [->|Hne].
      * exists m. by rewrite Z.sub_diag.
      * destruct (IH2 j ltac:(lia)) as (m' & Hm' & Hh). exists m'.
        split; [|done].
        replace (Z.to_nat (j - i)) with (S (Z.to_nat (j - (i + 1)))) by lia.
        done.
    + split; [lia|]. intros j ?. lia.
Qed.

(** X25. A move never crosses a header. Whatever the list and the item,
    [handleMoveMenuItem] either does nothing or exchanges the sort
    order of the item with that of its neighbour in the list, above
    for up and below for down, and this neighbour is never a header;
    on the way up the item found under the id is not a header
    either. *)
Theorem handleMoveMenuItem_within_section menuItems (item : MenuItem)
    (direction : Direction) :
  handleMoveMenuItem menuItems item direction = []
  ∨ ∃ (k : nat) (current swapItem : MenuItem),
      list_find (λ m, id m = id item) menuItems = Some (k, current)
      ∧ menuItems !! (match direction with
                      | up => k - 1
                      | down => k + 1
                      end)%nat = Some swapItem
      ∧ (direction = up → (0 < k)%nat ∧ is_header current = 0)
      ∧ is_header swapItem = 0
      ∧ handleMoveMenuItem menuItems item direction
        = [(sort_order swapItem, id item); (sort_order item, id swapItem)].
Proof.
  unfold handleMoveMenuItem.
  destruct (list_find _ menuItems) as [[k current]|] eqn:Efind; [|by left].
  pose proof Efind as (Hk & _ & _)%list_find_Some.
  unfold getSectionBounds.
  destruct (sectionStart_from_spec menuItems k) as [Hs1 Hs2].
  destruct (sectionEnd_from_spec (drop (S k) menuItems) (Z.of_nat k + 1)
              (Z.of_nat (length menuItems) - 1)) as [He1 He2].
  { rewrite length_drop. apply lookup_lt_Some in Hk. lia. }
  set (sectionStart := sectionStart_from menuItems k) in *.
  set (sectionEnd := sectionEnd_from _ _ _) in *.
  destruct direction.
  - rewrite bool_decide_eq_true_2 by done. cbn [andb].
    destruct (Z.leb_spec (Z.of_nat k) (Z.of_nat sectionStart)) as [|Hgt];
      [by left|].
    rewrite bool_decide_eq_false_2 by done. cbn [andb].
    destruct (Z.ltb_spec (Z.of_nat k - 1) 0) as [|_]; [lia|].
    replace (Z.to_nat (Z.of_nat k - 1)) with (k - 1)%nat by lia.
    destruct (lookup_lt_is_Some_2 menuItems (k - 1)) as [swapItem Hswap].
    { apply lookup_lt_Some in Hk. lia. }
    rewrite Hswap. right. exists k, current, swapItem.
    split_and!; [done | done | | | done].
    + intros _. split; [lia|].
      apply (header_at_false menuItems k); [|done]. apply Hs2. lia.
    + apply (header_at_false menuItems (k - 1)); [|done]. apply Hs2. lia.
  - rewrite bool_decide_eq_false_2 by done. cbn [andb].
    rewrite bool_decide_eq_true_2 by done. cbn [andb].
    destruct (Z.leb_spec sectionEnd (Z.of_nat k)) as [|Hlt]; [by left|].
    destruct (Z.ltb_spec (Z.of_nat k + 1) 0) as [|_]; [lia|].
    replace (Z.to_nat (Z.of_nat k + 1)) with (k + 1)%nat by lia.
    destruct (He2 (Z.of_nat k + 1) ltac:(lia)) as (swapItem & Hswap & Hh).
    assert (menuItems !! (k + 1)%nat = Some swapItem) as Hswap'.
    { rewrite Z.sub_diag, lookup_drop in Hswap. rewrite <- Hswap.
      f_equal. lia. }
    rewrite Hswap'. right. exists k, current, swapItem.
    split_and!; done.
Qed.

(** X26. The buttons tell what a move does: for the row at an index of
    the list, whose id no earlier row has, moving up does nothing
    exactly when the up button is disabled, and moving down does
    nothing exactly when the down button is disabled. *)
Theorem handleMoveMenuItem_disabled menuItems (index : nat) (item : MenuItem) :
  menuItems !! index = Some item →
  (∀ j m, (j < index)%nat → menuItems !! j = Some m → id m ≠ id item) →
  (handleMoveMenuItem menuItems item up = []
   ↔ disableUp menuItems index = true)
  ∧ (handleMoveMenuItem menuItems item down = []
     ↔ disableDown menuItems index = true).
Proof.
  intros Hitem Hfirst.
  assert (list_find (λ m, id m = id item) menuItems = Some (index, item))
    as Hfind.
  { apply list_find_Some. split_and!; [done..|]. intros j m ? ?. eauto. }
  unfold handleMoveMenuItem, disableUp, disableDown. rewrite Hfind.
  unfold getSectionBounds. cbn [fst snd].
  destruct (sectionStart_from_spec menuItems index) as [Hs1 Hs2].
  destruct (sectionEnd_from_spec (drop (S index) menuItems)
              (Z.of_nat index + 1) (Z.of_nat (length menuItems) - 1))
    as [He1 He2].
  { rewrite length_drop. apply lookup_lt_Some in Hitem. lia. }
  set (sectionStart := sectionStart_from menuItems index) in *.
  set (sectionEnd := sectionEnd_from _ _ _) in *.
  split.
  - rewrite bool_decide_eq_true_2 by done. cbn [andb].
    destruct (Z.leb_spec (Z.of_nat index) (Z.of_nat sectionStart)) as [|Hgt];
      [done|].
    rewrite bool_decide_eq_false_2 by done. cbn [andb].
    destruct (Z.ltb_spec (Z.of_nat index - 1) 0) as [|_]; [lia|].
    destruct (lookup_lt_is_Some_2 menuItems (Z.to_nat (Z.of_nat index - 1)))
      as [swapItem ->]; [|done].
    apply lookup_lt_Some in Hitem. lia.
  - rewrite bool_decide_eq_false_2 by done. cbn [andb].
    rewrite bool_decide_eq_true_2 by done. cbn [andb].
    destruct (Z.leb_spec sectionEnd (Z.of_nat index)) as [|Hlt]; [done|].
    destruct (Z.ltb_spec (Z.of_nat index + 1) 0) as [|_]; [lia|].
    destruct (lookup_lt_is_Some_2 menuItems (Z.to_nat (Z.of_nat index + 1)))
      as [swapItem ->]; [|done].
    lia.
Qed.

End Moves.

(** ** Times of day and presets *)

Section Times.
Import Str SegmentAdjustmentEditor.

Lemma Number_go_app (a b : string) :
  ∀ acc, Number_go acc (a +:+ b) = Number_go acc a ≫= λ v, Number_go v b.
Proof.
  induction a as [|c a IH]; intros acc; [done|].
  change (String c a +:+ b) with (String c (a +:+ b)). simpl.
  destruct (Ascii.is_nat c); [apply IH | done].
Qed.

Lemma Number_go_no_colon (s : string) :
  ∀ acc v, Number_go acc s = Some v →
           forallb (λ c, negb (Ascii.eqb c ":")) s = true.
Proof.
  induction s as [|c s IH]; intros acc v; [done|]. simpl.
  destruct (Ascii.is_nat c) eqn:Ec; [|done]. intros Hs%IH. rewrite Hs.
  destruct (Ascii.eqb_spec c ":") as [->|]; [done | done].
Qed.

Lemma is_nat_pretty_N_char (d : N) :
  (d < 10)%N → Ascii.is_nat (pretty_N_char d) = Some (N.to_nat d).
Proof.
  intros Hd.
  assert (d = 0 ∨ d = 1 ∨ d = 2 ∨ d = 3 ∨ d = 4 ∨ d = 5 ∨ d = 6 ∨ d = 7
          ∨ d = 8 ∨ d = 9)%N as Hcases by lia.
  repeat (destruct Hcases as [->|Hcases]; [reflexivity|]). by subst.
Qed.

(** The digits that [pretty] writes for a natural number read back as
    that number. *)
Lemma pretty_N_go_digits (x : N) :
  ∃ ds, (∀ s, pretty_N_go x s = ds +:+ s)
        ∧ ∀ acc, Number_go acc ds
                 = Some (acc * 10 ^ Z.of_nat (String.length ds) + Z.of_N x).
Proof.
  induction (N.lt_wf_0 x) as [x _ IH].
  destruct (decide (x = 0)%N) as [->|Hx].
  - exists EmptyString. split; [done|]. intros acc. simpl. f_equal. lia.
  - destruct (IH (x `div` 10)%N) as (ds & Hds & Hnum).
    { apply N.div_lt; lia. }
    exists (ds +:+ String (pretty_N_char (x `mod` 10)) EmptyString). split.
    + intros s. rewrite pretty_N_go_step by lia.
      by rewrite Hds, string_app_assoc.
    + intros acc. rewrite Number_go_app, Hnum. simpl.
      rewrite is_nat_pretty_N_char by (apply N.mod_lt; lia).
      f_equal. rewrite string_length_app. simpl.
      rewrite Nat2Z.inj_add, Z.pow_add_r by lia.
      pose proof (N.div_mod x 10 ltac:(lia)) as Hdm.
      pose proof (N.mod_lt x 10 ltac:(lia)). lia.
Qed.

Lemma Number_pretty (n : Z) : 0 ≤ n → Number (pretty n) = Some n.
Proof.
  intros Hn. unfold Number. destruct n as [|p|p]; [done| |lia].
  change (pretty (Z.pos p)) with (pretty (N.pos p)).
  unfold pretty, pretty_N. rewrite decide_False by done.
  destruct (pretty_N_go_digits (N.pos p)) as (ds & Hds & Hnum).
  rewrite Hds.
  assert (ds +:+ EmptyString = ds) as ->.
  { clear. induction ds as [|c ds IH]; [done|].
    change (String c (ds +:+ EmptyString) = String c ds). by rewrite IH. }
  rewrite Hnum. f_equal; lia.
Qed.

Lemma Number_go_zeros (k : nat) (s : string) :
  Number_go 0 (String.concat EmptyString (replicate k "0") +:+ s)
  = Number_go 0 s.
Proof.
  induction k as [|k IH]; [done|].
  destruct k as [|k].
  - done.
  - change (String.concat EmptyString (replicate (S (S k)) "0") +:+ s)
      with (String "0" (String.concat EmptyString (replicate (S k) "0")
                        +:+ s)).
    simpl Number_go at 1. exact IH.
Qed.

Lemma Number_pad0 (width : nat) (n : Z) :
  0 ≤ n →
  Number (pad0 width n) = Some n
  ∧ forallb (λ c, negb (Ascii.eqb c ":")) (pad0 width n) = true.
Proof.
  intros Hn.
  assert (Number (pad0 width n) = Some n) as H.
  { unfold Number, pad0. cbv zeta. rewrite Number_go_zeros.
    by apply Number_pretty. }
  split; [done|]. by eapply Number_go_no_colon.
Qed.

(** X27. Round trip of the times of day: for every number of minutes
    from 0 on, the text that [fmt] writes is read back by [mins] as the
    same number, also past 99 hours, where the hours take more than two
    digits. *)
Theorem mins_fmt (m : Z) : 0 ≤ m → mins (fmt m) = Some m.
Proof.
  intros Hm. unfold mins, fmt, pad2.
  assert (0 ≤ m / 60) as Hh by (apply Z.div_pos; lia).
  assert (0 ≤ Z.rem m 60) as Hr by (apply Z.rem_nonneg; lia).
  destruct (Number_pad0 2 (m / 60) Hh) as [Hnh Hch].
  destruct (Number_pad0 2 (Z.rem m 60) Hr) as [Hnr Hcr].
  change (pad0 2 (m / 60) +:+ ":" +:+ pad0 2 (Z.rem m 60))
    with (pad0 2 (m / 60) +:+ String ":" (pad0 2 (Z.rem m 60))).
  rewrite split_app, split_no_sep by done. simpl. rewrite Hnh, Hnr.
  f_equal. rewrite Z.rem_mod_nonneg by lia.
  pose proof (Z.div_mod m 60 ltac:(lia)). lia.
Qed.




End Times.

(** ** Identifiers *)

Section Identifiers.
Import FolderSync.

Lemma trunc_16 (q : Q) :
  (0 <= q)%Q → (q < 1)%Q → 0 ≤ trunc (Qmult q (inject_Z 16)) < 16.
Proof.
  destruct q as [n d]. unfold Qle, Qlt, trunc. simpl. intros Hn Hd.
  rewrite Z.quot_div_nonneg by lia.
  split; [apply Z.div_pos; lia|].
  apply Z.div_lt_upper_bound; lia.
Qed.

Lemma hex_digits (r : Z) :
  0 ≤ r < 16 →
  (∃ c, toString16 r = String c EmptyString ∧ is_hex c = true)
  ∧ (∃ c, toString16 (Z.lor (Z.land r 3) 8) = String c EmptyString
          ∧ is_89ab c = true).
Proof.
  intros Hr.
  assert (r = 0 ∨ r = 1 ∨ r = 2 ∨ r = 3 ∨ r = 4 ∨ r = 5 ∨ r = 6 ∨ r = 7
          ∨ r = 8 ∨ r = 9 ∨ r = 10 ∨ r = 11 ∨ r = 12 ∨ r = 13 ∨ r = 14
          ∨ r = 15) as Hcases by lia.
  repeat (destruct Hcases as [->|Hcases];
          [split; eexists; split; reflexivity|]).
  subst. split; eexists; split; reflexivity.
Qed.

(** X29. The shape of the identifiers. Whatever [Math.random] returns,
    in its range from 0 up to but not including 1, [generateUUID]
    gives 36 characters in the layout of a version-4 UUID: lower-case
    hexadecimal digits in groups of 8, 4, 4, 4 and 12 with hyphens
    between, the third group starting with 4 and the fourth with 8, 9,
    a or b. *)
Theorem generateUUID_shape (random : nat → Q) :
  (∀ n, (0 <= random n)%Q ∧ (random n < 1)%Q) →
  matches uuid_v4_pattern (generateUUID random) = true.
Proof.
  intros Hrange. unfold generateUUID.
  cbn -[trunc toString16 Qmult inject_Z].
  repeat match goal with
         | |- context [toString16 (trunc (Qmult (random ?i) (inject_Z 16)))] =>
             let c := fresh "c" in
             let E := fresh "E" in
             let Hc := fresh "Hc" in
             destruct (hex_digits _ (trunc_16 (random i)
                                       (proj1 (Hrange i)) (proj2 (Hrange i))))
               as [(c & E & Hc) _];
             rewrite E; clear E
         | |- context [toString16
                         (Z.lor (Z.land
                                   (trunc (Qmult (random ?i) (inject_Z 16))) 3)
                            8)] =>
             let c := fresh "c" in
             let E := fresh "E" in
             let Hc := fresh "Hc" in
             destruct (hex_digits _ (trunc_16 (random i)
                                       (proj1 (Hrange i)) (proj2 (Hrange i))))
               as [_ (c & E & Hc)];
             rewrite E; clear E
         end.
  repeat match goal with
         | |- context [String ?c EmptyString +:+ ?s] =>
             change (String c EmptyString +:+ s) with (String c s)
         end.
  cbn -[is_hex is_89ab].
  repeat match goal with H : _ = true |- _ => rewrite H; clear H end.
  reflexivity.
Qed.

End Identifiers.

Lemma generateUUID_shape_witness :
  FolderSync.matches FolderSync.uuid_v4_pattern
    (FolderSync.generateUUID (λ _, Qmake 1 2)) = true.
Proof.
  apply (generateUUID_shape (λ _, Qmake 1 2)).
  intros n. unfold Qle, Qlt. simpl. lia.
Defined.

Lemma allResolved_counter_witness :
  (∀ k, is_Some (MergeConflictDialog.onChange ∅
                   (MergeConflictDialog.key Examples.conflict_ann)
                   MergeConflictDialog.choice_a !! k) →
        k ∈ MergeConflictDialog.key <$> [Examples.conflict_ann])
  ∧ (size (MergeConflictDialog.onChange ∅
             (MergeConflictDialog.key Examples.conflict_ann)
             MergeConflictDialog.choice_a)
     ≤ length [Examples.conflict_ann])%nat
  ∧ (MergeConflictDialog.allResolved [Examples.conflict_ann]
       (MergeConflictDialog.onChange ∅
          (MergeConflictDialog.key Examples.conflict_ann)
          MergeConflictDialog.choice_a) = true
     ↔ size (MergeConflictDialog.onChange ∅
               (MergeConflictDialog.key Examples.conflict_ann)
               MergeConflictDialog.choice_a)
       = size (list_to_set
                 (MergeConflictDialog.key <$> [Examples.conflict_ann])
               : gset string))
  ∧ (NoDup (MergeConflictDialog.key <$> [Examples.conflict_ann]) →
     (MergeConflictDialog.allResolved [Examples.conflict_ann]
        (MergeConflictDialog.onChange ∅
           (MergeConflictDialog.key Examples.conflict_ann)
           MergeConflictDialog.choice_a) = true
      ↔ size (MergeConflictDialog.onChange ∅
                (MergeConflictDialog.key Examples.conflict_ann)
                MergeConflictDialog.choice_a)
        = length [Examples.conflict_ann])).
Proof.
  apply (allResolved_counter [Examples.conflict_ann]
           (MergeConflictDialog.onChange ∅
              (MergeConflictDialog.key Examples.conflict_ann)
              MergeConflictDialog.choice_a)).
  apply MergeConflictDialog.reachable_onChange.
  - apply MergeConflictDialog.reachable_initial.
  - left.
Defined.

Lemma handleMoveMenuItem_disabled_witness :
  (SpecialEvents.handleMoveMenuItem Examples.menu
     {| SpecialEvents.id := 2; SpecialEvents.sort_order := 20;
        SpecialEvents.is_header := 0 |} SpecialEvents.up = []
   ↔ SpecialEvents.disableUp Examples.menu 1 = true)
  ∧ (SpecialEvents.handleMoveMenuItem Examples.menu
       {| SpecialEvents.id := 2; SpecialEvents.sort_order := 20;
          SpecialEvents.is_header := 0 |} SpecialEvents.down = []
     ↔ SpecialEvents.disableDown Examples.menu 1 = true).
Proof.
  apply (handleMoveMenuItem_disabled Examples.menu 1
           {| SpecialEvents.id := 2; SpecialEvents.sort_order := 20;
              SpecialEvents.is_header := 0 |}).
  - reflexivity.
  - intros j m Hj. assert (j = 0%nat) as -> by lia.
    intros [= <-]. discriminate.
Defined.

Lemma mins_fmt_witness :
  SegmentAdjustmentEditor.mins (SegmentAdjustmentEditor.fmt 6075)
  = Some 6075.
Proof. apply (mins_fmt 6075). lia. Defined.

